(** * Mimora waitlist: a shallow embedding of the submission workflow

    The development follows the TypeScript sources of the landing page:
    the serverless mail endpoint (rate limiter, input sanitisation,
    request handler, HTML template), the waitlist slider (local
    submission cache, CRM submitter, validator, submit handler) and the
    client-side mail service.

    JavaScript strings are sequences of UTF-16 code units, numbers that
    hold millisecond clocks are integers, [Map] objects are finite maps,
    and code that can throw lives in a small completion monad. *)

From Stdlib Require Import ZArith NArith Lia Ascii String Sorted.
From stdpp Require Import base option list gmap strings pretty.

Set Default Proof Using "Type".
Set Warnings "-register-all".

(* ================================================================== *)
(** * JavaScript strings *)
(* ================================================================== *)

Module JS.

(** A string value is its sequence of UTF-16 code units. *)
Abbreviation jsstring := (list N).

(** ASCII literals of the source text. *)
Fixpoint lit (s : string) : jsstring :=
  match s with
  | EmptyString => []
  | String a s' => N_of_ascii a :: lit s'
  end.

(** [WhiteSpace] and [LineTerminator] code points of ECMAScript: the set
    removed by [String.prototype.trim] and matched by the [\s] class. *)
Definition isWhiteSpace (c : N) : bool :=
  ((c =? 9) || (c =? 10) || (c =? 11) || (c =? 12) || (c =? 13)
   || (c =? 32) || (c =? 160) || (c =? 5760)
   || ((8192 <=? c) && (c <=? 8202))
   || (c =? 8232) || (c =? 8233) || (c =? 8239) || (c =? 8287)
   || (c =? 12288) || (c =? 65279))%N.

Fixpoint trimStart (s : jsstring) : jsstring :=
  match s with
  | [] => []
  | c :: s' => if isWhiteSpace c then trimStart s' else s
  end.

Definition trimEnd (s : jsstring) : jsstring :=
  reverse (trimStart (reverse s)).

(** [String.prototype.trim]. *)
Definition trim (s : jsstring) : jsstring := trimEnd (trimStart s).

(** [String.prototype.substring(start, end)]: both indices are clamped to
    [0, length] and swapped when they come in the wrong order. *)
Definition substring (start finish : Z) (s : jsstring) : jsstring :=
  let len := Z.of_nat (length s) in
  let finalStart := Z.min (Z.max start 0) len in
  let finalEnd := Z.min (Z.max finish 0) len in
  let from := Z.min finalStart finalEnd in
  let to := Z.max finalStart finalEnd in
  take (Z.to_nat (to - from)) (drop (Z.to_nat from) s).

(** [String.prototype.replace] with a global pattern made of a single
    character class: the scan goes left to right, every code unit of the
    class is a match of length one and is replaced, the others are
    copied. *)
Fixpoint replace_class_global (cls : N → bool) (replacement s : jsstring)
  : jsstring :=
  match s with
  | [] => []
  | c :: s' =>
      if cls c then replacement ++ replace_class_global cls replacement s'
      else c :: replace_class_global cls replacement s'
  end.

(** [String.prototype.split] with a separator of one code unit. The
    result is never empty: a string without separator is its own only
    piece. *)
Fixpoint split (sep : N) (s : jsstring) : list jsstring :=
  match s with
  | [] => [[]]
  | c :: s' =>
      if (c =? sep)%N then [] :: split sep s'
      else match split sep s' with
           | [] => [[c]]
           | piece :: pieces => (c :: piece) :: pieces
           end
  end.

(** Truthiness of a string: only the empty string is falsy. *)
Definition truthy_string (s : jsstring) : bool :=
  match s with [] => false | _ => true end.


(** ** Values, exceptions and completions *)

(** Values that cross the wire or sit in storage: [undefined] and the
    JSON values. A number is kept as the decimal [mantissa * 10^exponent]
    of its literal; what depends on the double it is read as is derived
    from the literal ([roundsToZero], the runtime's [numberToString]). *)
Inductive value : Type :=
| VUndefined
| VNull
| VBool (b : bool)
| VNumber (mantissa exponent : Z)
| VString (s : jsstring)
| VArray (items : list value)
| VObject (props : list (jsstring * value)).

(** Exceptions raised by the platform itself; their message text belongs
    to the engine. *)
Inductive engine_error : Type :=
| ReadOfNullish (prop : jsstring)   (* property read or destructuring of null/undefined *)
| NotCallable (prop : jsstring)     (* call of a property that is not a function *)
| JsonSyntax.                       (* [JSON.parse] on text that is not JSON *)

(** What a [throw] or a rejected promise carries. *)
Inductive thrown : Type :=
| Engine (e : engine_error)         (* a TypeError or SyntaxError of the engine *)
| ErrorObject (message : jsstring)  (* any other [Error] instance *)
| NotAnError.                       (* a thrown value that is not an [Error] *)

(** Outcome of a computation that may throw; an [async] function
    resolves with [Normal] and rejects with [Throw]. *)
Inductive completion (A : Type) : Type :=
| Normal (a : A)
| Throw (e : thrown).
Arguments Normal {A} a.
Arguments Throw {A} e.

#[export] Instance completion_ret : MRet completion := λ A a, Normal a.
#[export] Instance completion_bind : MBind completion := λ A B f c,
  match c with
  | Normal a => f a
  | Throw e => Throw e
  end.

(** [try { body } catch (error) { handler error }]. *)
Definition try_catch {A} (body : completion A) (handler : thrown → completion A)
  : completion A :=
  match body with
  | Normal a => Normal a
  | Throw e => handler e
  end.

(** Built-ins of the platform that the sources call and that are taken
    as given: locale-independent lower-casing, the decimal rendering of a
    number, the message texts of engine exceptions. *)
Record Runtime : Type := {
  toLowerCase : jsstring → jsstring;
  numberToString : Z → Z → jsstring;
  engineMessage : engine_error → jsstring;
}.

(** [error.message] when [error instanceof Error]. *)
Definition message_of (rt : Runtime) (e : thrown) : option jsstring :=
  match e with
  | Engine err => Some (engineMessage rt err)
  | ErrorObject message => Some message
  | NotAnError => None
  end.

(** A literal is read as the nearest double, ties to even: it reads as
    zero when its magnitude is at most [2^-1075], half of the least
    positive double. *)
Definition roundsToZero (mantissa exponent : Z) : bool :=
  ((mantissa =? 0)
   || ((exponent <? 0)
       && (Z.abs mantissa * 2 ^ 1075 <=? 10 ^ (- exponent))))%Z.

(** Truthiness, as used by [!x] and [x || y]. *)
Definition truthy (v : value) : bool :=
  match v with
  | VUndefined | VNull => false
  | VBool b => b
  | VNumber mantissa exponent => negb (roundsToZero mantissa exponent)
  | VString s => truthy_string s
  | VArray _ | VObject _ => true
  end.

Fixpoint lookup_prop (key : jsstring) (props : list (jsstring * value))
  : option value :=
  match props with
  | [] => None
  | (k, v) :: props' => if decide (k = key) then Some v else lookup_prop key props'
  end.

(** Property read [v.key], for the names the sources read ([name],
    [email], [role], [error], [message], [trim]), none of which is a
    property of a primitive or of an array: reading from [null] or
    [undefined] throws, a missing property reads as [undefined]. *)
Definition get (v : value) (key : jsstring) : completion value :=
  match v with
  | VUndefined | VNull => Throw (Engine (ReadOfNullish key))
  | VObject props => Normal (default VUndefined (lookup_prop key props))
  | _ => Normal VUndefined
  end.

(** [ToString] of a value. *)
Fixpoint toString (rt : Runtime) (v : value) : jsstring :=
  match v with
  | VUndefined => lit "undefined"
  | VNull => lit "null"
  | VBool true => lit "true"
  | VBool false => lit "false"
  | VNumber mantissa exponent => numberToString rt mantissa exponent
  | VString s => s
  | VArray items =>
      (fix join (l : list value) : jsstring :=
         match l with
         | [] => []
         | x :: l' =>
             (match x with
              | VUndefined | VNull => []
              | _ => toString rt x
              end) ++
             (match l' with [] => [] | _ => lit "," ++ join l' end)
         end) items
  | VObject _ => lit "[object Object]"
  end.

End JS.

Import JS.

(* ================================================================== *)
(** * Regular expressions *)
(* ================================================================== *)

Module Regex.

(** The patterns of the sources are anchored at both ends and use only
    classes, concatenation, [?], [+] and bounded repetition, so
    [RegExp.prototype.test] decides whether the whole string belongs to
    a regular language. *)
Inductive regex : Type :=
| Void
| Eps
| Class (cls : N → bool)
| Seq (r1 r2 : regex)
| Alt (r1 r2 : regex)
| Star (r : regex).

(** The strings of a pattern. *)
Inductive Matches : regex → jsstring → Prop :=
| MEps : Matches Eps []
| MClass cls c : cls c = true → Matches (Class cls) [c]
| MSeq r1 r2 s1 s2 :
    Matches r1 s1 → Matches r2 s2 → Matches (Seq r1 r2) (s1 ++ s2)
| MAltL r1 r2 s : Matches r1 s → Matches (Alt r1 r2) s
| MAltR r1 r2 s : Matches r2 s → Matches (Alt r1 r2) s
| MStarNil r : Matches (Star r) []
| MStarApp r s1 s2 :
    Matches r s1 → Matches (Star r) s2 → Matches (Star r) (s1 ++ s2).

Fixpoint nullable (r : regex) : bool :=
  match r with
  | Void => false
  | Eps => true
  | Class _ => false
  | Seq r1 r2 => nullable r1 && nullable r2
  | Alt r1 r2 => nullable r1 || nullable r2
  | Star _ => true
  end.

(** Residual of [r] after reading the code unit [c]. *)
Fixpoint deriv (c : N) (r : regex) : regex :=
  match r with
  | Void => Void
  | Eps => Void
  | Class cls => if cls c then Eps else Void
  | Seq r1 r2 =>
      if nullable r1 then Alt (Seq (deriv c r1) r2) (deriv c r2)
      else Seq (deriv c r1) r2
  | Alt r1 r2 => Alt (deriv c r1) (deriv c r2)
  | Star r1 => Seq (deriv c r1) (Star r1)
  end.

(** [/^r$/.test(s)]. *)
Fixpoint test (r : regex) (s : jsstring) : bool :=
  match s with
  | [] => nullable r
  | c :: s' => test (deriv c r) s'
  end.

Definition plus (r : regex) : regex := Seq r (Star r).
Definition opt (r : regex) : regex := Alt Eps r.

Fixpoint power (r : regex) (n : nat) : regex :=
  match n with
  | O => Eps
  | S n' => Seq r (power r n')
  end.

(** [r{lo,hi}]. *)
Definition repeat_range (r : regex) (lo hi : nat) : regex :=
  Seq (power r lo) (power (opt r) (hi - lo)).

Definition isChar (ch : string) (c : N) : bool :=
  match lit ch with
  | [x] => (c =? x)%N
  | _ => false
  end.

Definition isDigit (c : N) : bool := ((48 <=? c) && (c <=? 57))%N.

(** [[^\s@]]. *)
Definition notSpaceNorAt (c : N) : bool := negb (isWhiteSpace c || isChar "@" c).

(** [/^[^\s@]+@[^\s@]+\.[^\s@]+$/], the pattern shared by the endpoint
    and the form validator. *)
Definition emailRegex : regex :=
  Seq (plus (Class notSpaceNorAt))
    (Seq (Class (isChar "@"))
       (Seq (plus (Class notSpaceNorAt))
          (Seq (Class (isChar ".")) (plus (Class notSpaceNorAt))))).

(** [[\d\s\-()]]. *)
Definition phoneClass (c : N) : bool :=
  isDigit c || isWhiteSpace c || isChar "-" c || isChar "(" c || isChar ")" c.

(** [/^\+?[\d\s\-()]{7,15}$/]. *)
Definition phoneRegex : regex :=
  Seq (opt (Class (isChar "+"))) (repeat_range (Class phoneClass) 7 15).

End Regex.

(* ================================================================== *)
(** * JSON text *)
(* ================================================================== *)

Module Json.

Local Open Scope N_scope.

(** Outcome of a parser: a result with the unread input, a syntax
    error, or an exhausted recursion budget. *)
Inductive presult (A : Type) : Type :=
| Parsed (a : A) (rest : jsstring)
| Malformed
| OutOfFuel.
Arguments Parsed {A} a rest.
Arguments Malformed {A}.
Arguments OutOfFuel {A}.

Definition isJsonSpace (c : N) : bool :=
  (c =? 32) || (c =? 9) || (c =? 10) || (c =? 13).

Fixpoint skip_ws (s : jsstring) : jsstring :=
  match s with
  | [] => []
  | c :: s' => if isJsonSpace c then skip_ws s' else s
  end.

Definition hexval (c : N) : option N :=
  if (48 <=? c) && (c <=? 57) then Some (c - 48)
  else if (97 <=? c) && (c <=? 102) then Some (c - 87)
  else if (65 <=? c) && (c <=? 70) then Some (c - 55)
  else None.

(** The character after a backslash, [u] apart. *)
Definition unescape (c : N) : option N :=
  if c =? 34 then Some 34          (* quote *)
  else if c =? 92 then Some 92     (* backslash *)
  else if c =? 47 then Some 47     (* slash *)
  else if c =? 98 then Some 8      (* b *)
  else if c =? 102 then Some 12    (* f *)
  else if c =? 110 then Some 10    (* n *)
  else if c =? 114 then Some 13    (* r *)
  else if c =? 116 then Some 9     (* t *)
  else None.

(** A string literal, read from behind its opening quote up to and
    including the closing quote. *)
Fixpoint parse_string_body (s : jsstring) : option (jsstring * jsstring) :=
  match s with
  | [] => None
  | c :: rest =>
      if c =? 34 then Some ([], rest)
      else if c =? 92 then
        match rest with
        | [] => None
        | e :: rest1 =>
            if e =? 117 then
              match rest1 with
              | a :: b :: c' :: d :: rest2 =>
                  match hexval a, hexval b, hexval c', hexval d with
                  | Some h1, Some h2, Some h3, Some h4 =>
                      match parse_string_body rest2 with
                      | Some (str, r) =>
                          Some ((h1 * 4096 + h2 * 256 + h3 * 16 + h4) :: str, r)
                      | None => None
                      end
                  | _, _, _, _ => None
                  end
              | _ => None
              end
            else
              match unescape e with
              | Some u =>
                  match parse_string_body rest1 with
                  | Some (str, r) => Some (u :: str, r)
                  | None => None
                  end
              | None => None
              end
        end
      else if c <? 32 then None
      else
        match parse_string_body rest with
        | Some (str, r) => Some (c :: str, r)
        | None => None
        end
  end.

(** The reader on a text whose first code unit [c] has been read. *)
Definition read_after (c : N) (tail : jsstring) : option (jsstring * jsstring) :=
  match parse_string_body tail with
  | Some (str, r) => Some (c :: str, r)
  | None => None
  end.

Fixpoint take_digits (s : jsstring) : list N * jsstring :=
  match s with
  | [] => ([], [])
  | c :: s' =>
      if Regex.isDigit c then
        let (ds, r) := take_digits s' in (c - 48 :: ds, r)
      else ([], s)
  end.

Definition digits_value (ds : list N) : Z :=
  fold_left (λ acc d, acc * 10 + Z.of_N d)%Z ds 0%Z.

(** Integer part: a lone [0], or a digit string that starts with
    [1]..[9]. *)
Definition parse_int (s : jsstring) : option (list N * jsstring) :=
  match s with
  | [] => None
  | c :: s' =>
      if c =? 48 then Some ([0], s')
      else if Regex.isDigit c then Some (take_digits s)
      else None
  end.

(** Optional fraction: a dot must be followed by a digit. *)
Definition parse_frac (s : jsstring) : option (list N * jsstring) :=
  match s with
  | c :: s' =>
      if c =? 46 then
        match take_digits s' with
        | ([], _) => None
        | (ds, r) => Some (ds, r)
        end
      else Some ([], s)
  | [] => Some ([], s)
  end.

(** The digits of an exponent; there must be one at least. *)
Definition exponent_digits (negative : bool) (s : jsstring)
  : option (Z * jsstring) :=
  match take_digits s with
  | ([], _) => None
  | (ds, r) =>
      Some ((if negative then - digits_value ds else digits_value ds)%Z, r)
  end.

(** Optional exponent: [e] or [E], an optional sign, at least one digit. *)
Definition parse_exp (s : jsstring) : option (Z * jsstring) :=
  match s with
  | c :: s' =>
      if (c =? 101) || (c =? 69) then
        match s' with
        | sign :: s'' =>
            if sign =? 45 then exponent_digits true s''
            else if sign =? 43 then exponent_digits false s''
            else exponent_digits false s'
        | [] => exponent_digits false s'
        end
      else Some (0%Z, s)
  | [] => Some (0%Z, s)
  end.

Definition parse_number (s : jsstring) : presult value :=
  let '(negative, s1) :=
    match s with
    | c :: s' => if c =? 45 then (true, s') else (false, s)
    | [] => (false, s)
    end in
  match parse_int s1 with
  | None => Malformed
  | Some (ints, s2) =>
      match parse_frac s2 with
      | None => Malformed
      | Some (fracs, s3) =>
          match parse_exp s3 with
          | None => Malformed
          | Some (e, s4) =>
              let m := digits_value (ints ++ fracs) in
              Parsed (VNumber (if negative then - m else m)%Z
                              (e - Z.of_nat (length fracs))%Z) s4
          end
      end
  end.

Fixpoint strip_prefix (prefix s : jsstring) : option jsstring :=
  match prefix, s with
  | [], _ => Some s
  | p :: prefix', c :: s' => if c =? p then strip_prefix prefix' s' else None
  | _ :: _, [] => None
  end.

Definition parse_keyword (word : string) (v : value) (s : jsstring)
  : presult value :=
  match strip_prefix (lit word) s with
  | Some rest => Parsed v rest
  | None => Malformed
  end.

(** A later member with the same key replaces the earlier value and
    keeps its place. *)
Fixpoint set_prop (key : jsstring) (v : value) (props : list (jsstring * value))
  : list (jsstring * value) :=
  match props with
  | [] => [(key, v)]
  | (k, w) :: props' =>
      if decide (k = key) then (k, v) :: props'
      else (k, w) :: set_prop key v props'
  end.

Definition make_object (members : list (jsstring * value)) : value :=
  VObject (fold_left (λ acc kv, set_prop kv.1 kv.2 acc) members []).

Definition pmap {A B} (f : A → B) (r : presult A) : presult B :=
  match r with
  | Parsed a rest => Parsed (f a) rest
  | Malformed => Malformed
  | OutOfFuel => OutOfFuel
  end.

(** Values, array elements (read from behind the opening bracket or a
    comma) and object members (likewise). The budget bounds the nesting
    of the three functions. *)
Fixpoint parse_value (fuel : nat) (s : jsstring) : presult value :=
  match fuel with
  | O => OutOfFuel
  | S fuel' =>
      match skip_ws s with
      | [] => Malformed
      | c :: rest =>
          if c =? 34 then
            match parse_string_body rest with
            | Some (str, r) => Parsed (VString str) r
            | None => Malformed
            end
          else if c =? 91 then
            match skip_ws rest with
            | [] => Malformed
            | c2 :: rest2 =>
                if c2 =? 93 then Parsed (VArray []) rest2
                else pmap VArray (parse_elements fuel' rest)
            end
          else if c =? 123 then
            match skip_ws rest with
            | [] => Malformed
            | c2 :: rest2 =>
                if c2 =? 125 then Parsed (VObject []) rest2
                else pmap make_object (parse_members fuel' rest)
            end
          else if c =? 110 then parse_keyword "null" VNull (c :: rest)
          else if c =? 116 then parse_keyword "true" (VBool true) (c :: rest)
          else if c =? 102 then parse_keyword "false" (VBool false) (c :: rest)
          else parse_number (c :: rest)
      end
  end
with parse_elements (fuel : nat) (s : jsstring) : presult (list value) :=
  match fuel with
  | O => OutOfFuel
  | S fuel' =>
      match parse_value fuel' s with
      | Parsed v r =>
          match skip_ws r with
          | [] => Malformed
          | c :: r' =>
              if c =? 44 then pmap (cons v) (parse_elements fuel' r')
              else if c =? 93 then Parsed [v] r'
              else Malformed
          end
      | Malformed => Malformed
      | OutOfFuel => OutOfFuel
      end
  end
with parse_members (fuel : nat) (s : jsstring)
  : presult (list (jsstring * value)) :=
  match fuel with
  | O => OutOfFuel
  | S fuel' =>
      match skip_ws s with
      | [] => Malformed
      | c :: r =>
          if c =? 34 then
            match parse_string_body r with
            | None => Malformed
            | Some (key, r1) =>
                match skip_ws r1 with
                | [] => Malformed
                | c1 :: r2 =>
                    if c1 =? 58 then
                      match parse_value fuel' r2 with
                      | Parsed v r3 =>
                          match skip_ws r3 with
                          | [] => Malformed
                          | c3 :: r4 =>
                              if c3 =? 44 then
                                pmap (cons (key, v)) (parse_members fuel' r4)
                              else if c3 =? 125 then Parsed [(key, v)] r4
                              else Malformed
                          end
                      | Malformed => Malformed
                      | OutOfFuel => OutOfFuel
                      end
                    else Malformed
                end
            end
          else Malformed
      end
  end.

(** Budget that the text cannot exhaust. *)
Definition budget (text : jsstring) : nat := 2 * length text + 1.

(** [JSON.parse(text)]: one value, surrounded by optional white space;
    anything else throws a [SyntaxError]. *)
Definition parse (text : jsstring) : completion value :=
  match parse_value (budget text) text with
  | Parsed v rest =>
      match skip_ws rest with
      | [] => Normal v
      | _ :: _ => Throw (Engine JsonSyntax)
      end
  | Malformed | OutOfFuel => Throw (Engine JsonSyntax)
  end.

(** *** Serialisation of strings *)

Definition hexdigit (n : N) : N := if n <? 10 then 48 + n else 87 + n.

Definition unicode_escape (c : N) : jsstring :=
  [92; 117; hexdigit (c / 4096); hexdigit ((c / 256) mod 16);
   hexdigit ((c / 16) mod 16); hexdigit (c mod 16)].

Definition isLeadSurrogate (c : N) : bool := (55296 <=? c) && (c <=? 56319).
Definition isTrailSurrogate (c : N) : bool := (56320 <=? c) && (c <=? 57343).

Definition escape_unit (c : N) : jsstring :=
  if c =? 8 then [92; 98]
  else if c =? 9 then [92; 116]
  else if c =? 10 then [92; 110]
  else if c =? 12 then [92; 102]
  else if c =? 13 then [92; 114]
  else if c =? 34 then [92; 34]
  else if c =? 92 then [92; 92]
  else if (c <? 32) || isLeadSurrogate c || isTrailSurrogate c
  then unicode_escape c
  else [c].

(** The body of [QuoteJSONString]: a surrogate pair is copied, a lone
    surrogate is escaped. *)
Fixpoint quote_body (s : jsstring) : jsstring :=
  match s with
  | [] => []
  | c :: s' =>
      match s' with
      | d :: s'' =>
          if isLeadSurrogate c && isTrailSurrogate d
          then c :: d :: quote_body s''
          else escape_unit c ++ quote_body s'
      | [] => escape_unit c
      end
  end.

Definition quote (s : jsstring) : jsstring := [34] ++ quote_body s ++ [34].

(** [JSON.stringify] of an object whose properties are all strings. *)
Fixpoint stringify_members (members : list (string * jsstring)) : jsstring :=
  match members with
  | [] => []
  | (k, v) :: members' =>
      quote (lit k) ++ [58] ++ quote v ++
      match members' with
      | [] => []
      | _ => [44] ++ stringify_members members'
      end
  end.

Definition stringify_record (members : list (string * jsstring)) : jsstring :=
  [123] ++ stringify_members members ++ [125].

(** The members of such an object as the reader returns them, and the
    object itself. *)
Definition record_members (members : list (string * jsstring))
  : list (jsstring * value) :=
  map (λ member, (lit member.1, VString member.2)) members.

Definition record_value (members : list (string * jsstring)) : value :=
  make_object (record_members members).

End Json.

(* ================================================================== *)
(** * Rate limiter of the mail endpoint *)
(* ================================================================== *)

Module RateLimiter.

Local Open Scope Z_scope.

(** The module-level [emailAttempts] map: address to send timestamps. *)
Abbreviation ledger := (gmap (list N) (list Z)).

(** [emailAttempts.get(email) || []]: an array is always truthy, so the
    default only replaces [undefined]. *)
Definition attemptsOf (emailAttempts : ledger) (email : jsstring) : list Z :=
  default [] (emailAttempts !! email).

(** The filter [time => now - time < 3600000]. *)
Definition recent (now : Z) (attempts : list Z) : list Z :=
  filter (λ time, now - time < 3600000) attempts.

(** [isRateLimited]: the clock value read by [Date.now()] is an input,
    the ledger is threaded through. On rejection the function returns
    before [emailAttempts.set], so the ledger is the one it received. *)
Definition isRateLimited (now : Z) (email : jsstring) (emailAttempts : ledger)
  : bool * ledger :=
  let attempts := attemptsOf emailAttempts email in
  let recentAttempts := recent now attempts in
  if decide (3 ≤ length recentAttempts)%nat then (true, emailAttempts)
  else (false, <[email := recentAttempts ++ [now]]> emailAttempts).

(** Ledgers the process can hold: the map starts empty and only
    [isRateLimited] writes to it. *)
Inductive reachable : ledger → Prop :=
| reachable_init : reachable ∅
| reachable_call now email m :
    reachable m → reachable (isRateLimited now email m).2.

(** A run of calls for one address, oldest first. *)
Fixpoint calls (email : jsstring) (times : list Z) (m : ledger)
  : list bool * ledger :=
  match times with
  | [] => ([], m)
  | now :: times' =>
      let (r, m1) := isRateLimited now email m in
      let (rs, m2) := calls email times' m1 in
      (r :: rs, m2)
  end.

End RateLimiter.

(* ================================================================== *)
(** * The mail endpoint *)
(* ================================================================== *)

Module Endpoint.

Import RateLimiter.
Local Open Scope Z_scope.

(** The class [[<>]]. *)
Definition isTagChar (c : N) : bool := Regex.isChar "<" c || Regex.isChar ">" c.

(** [sanitizeInput], on a string as its signature says. *)
Definition sanitizeInput (input : jsstring) : jsstring :=
  substring 0 500 (replace_class_global isTagChar [] (trim input)).

(** The parameter type is erased at run time and [req.body] is [any]:
    on a value that is not a string the call [input.trim()] throws. *)
Definition call_sanitizeInput (input : value) : completion jsstring :=
  match input with
  | VString s => Normal (sanitizeInput s)
  | VUndefined | VNull => Throw (Engine (ReadOfNullish (lit "trim")))
  | _ => Throw (Engine (NotCallable (lit "trim")))
  end.

(** The static text of the template literal, cut at its two holes. *)
Record TemplateText : Type := {
  beforeName : jsstring;
  betweenNameAndRole : jsstring;
  afterRole : jsstring;
}.

(** [name.split(' ')[0]]. *)
Definition firstName (name : jsstring) : jsstring :=
  default (lit "undefined") (split 32 name !! 0%nat).

Definition roleText (role : jsstring) : jsstring :=
  if decide (role = lit "artist") then lit "Artist / Service Provider"
  else lit "Customer".

Definition getEmailTemplate (tpl : TemplateText) (name role : jsstring)
  : jsstring :=
  trim (beforeName tpl ++ firstName name ++ betweenNameAndRole tpl
        ++ roleText role ++ afterRole tpl).

(** [process.env]. *)
Record Env : Type := {
  SMTP_USER : option jsstring;
  SMTP_PASS : option jsstring;
  SMTP_HOST : option jsstring;
  SMTP_PORT : option jsstring;
  FROM_NAME : option jsstring;
  FROM_EMAIL : option jsstring;
  NODE_ENV : option jsstring;
}.

(** [x || fallback] on an environment variable. *)
Definition or_else (x : option jsstring) (fallback : jsstring) : jsstring :=
  match x with
  | Some s => if truthy_string s then s else fallback
  | None => fallback
  end.

(** [!x] on an environment variable. *)
Definition unset (x : option jsstring) : bool :=
  match x with
  | Some s => negb (truthy_string s)
  | None => true
  end.

Record Request : Type := {
  method : jsstring;
  origin : option jsstring;   (* [req.headers.origin] *)
  body : value;               (* [req.body] *)
}.

(** Options handed to [createTransport]; the port is the text that the
    source gives to [parseInt]. *)
Record Transport : Type := {
  host : jsstring;
  port : jsstring;
  user : jsstring;
  pass : jsstring;
}.

Record Mail : Type := {
  from : jsstring;
  to : jsstring;
  subject : jsstring;
  html : jsstring;
}.

(** The SMTP relay is an opaque service: it accepts the message or the
    promise of [sendMail] rejects. *)
Definition Relay : Type := Transport → Mail → completion unit.

Record Response : Type := {
  status : Z;
  headers : list (jsstring * jsstring);
  payload : option value;     (* [None] for [end()], the JSON body otherwise *)
}.

Definition errorBody (text : string) : value :=
  VObject [(lit "error", VString (lit text))].

Definition allowedOrigins : list jsstring :=
  [lit "https://mimora.co.in"; lit "https://www.mimora.co.in"].

Definition corsHeaders (req : Request) : list (jsstring * jsstring) :=
  let origin := or_else (origin req) [] in
  (if bool_decide (origin ∈ allowedOrigins)
   then [(lit "Access-Control-Allow-Origin", origin)] else [])
  ++ [(lit "Access-Control-Allow-Methods", lit "POST, OPTIONS");
      (lit "Access-Control-Allow-Headers", lit "Content-Type");
      (lit "Access-Control-Max-Age", lit "86400")].

(** The subject line ends with the party-popper emoji, a surrogate pair. *)
Definition subjectLine : jsstring :=
  lit "Welcome to Mimora - You're on the Waitlist! " ++ [55356; 57225]%N.

Definition sender (env : Env) : jsstring :=
  [34%N] ++ or_else (FROM_NAME env) (lit "Mimora Team") ++ [34%N] ++ lit " <"
  ++ or_else (FROM_EMAIL env) (or_else (SMTP_USER env) (lit "undefined"))
  ++ lit ">".

(** The body of the [try] block. The ledger is written by
    [isRateLimited] and keeps that write when a later step throws. *)
Definition attempt (rt : Runtime) (tpl : TemplateText) (relay : Relay)
    (env : Env) (now : Z) (req : Request) (emailAttempts : ledger)
  : completion (Z * value) * ledger :=
  match
    name ← get (body req) (lit "name");
    email ← get (body req) (lit "email");
    role ← get (body req) (lit "role");
    mret (name, email, role)
  with
  | Throw e => (Throw e, emailAttempts)
  | Normal (name, email, role) =>
      if negb (truthy name) || negb (truthy email) || negb (truthy role)
      then (Normal (400, errorBody "Missing required fields"), emailAttempts)
      else
        match
          sanitizedName ← call_sanitizeInput name;
          sanitizedEmail ← call_sanitizeInput email;
          sanitizedRole ← call_sanitizeInput role;
          mret (sanitizedName, toLowerCase rt sanitizedEmail, sanitizedRole)
        with
        | Throw e => (Throw e, emailAttempts)
        | Normal (sanitizedName, sanitizedEmail, sanitizedRole) =>
            if negb (Regex.test Regex.emailRegex sanitizedEmail)
            then (Normal (400, errorBody "Invalid email format"), emailAttempts)
            else if negb (bool_decide
                            (sanitizedRole ∈ [lit "artist"; lit "customer"]))
            then (Normal (400, errorBody "Invalid role"), emailAttempts)
            else if bool_decide (length sanitizedName < 2)%nat
                    || bool_decide (100 < length sanitizedName)%nat
            then (Normal (400, errorBody "Invalid name length"), emailAttempts)
            else
              let (limited, emailAttempts') :=
                isRateLimited now sanitizedEmail emailAttempts in
              if limited
              then (Normal (429, errorBody
                              "Too many requests. Please try again later."),
                    emailAttempts')
              else
                let transporter :=
                  {| host := or_else (SMTP_HOST env) (lit "smtp.gmail.com");
                     port := or_else (SMTP_PORT env) (lit "587");
                     user := or_else (SMTP_USER env) [];
                     pass := or_else (SMTP_PASS env) [] |} in
                let mail :=
                  {| from := sender env;
                     to := sanitizedEmail;
                     subject := subjectLine;
                     html := getEmailTemplate tpl sanitizedName sanitizedRole |} in
                match relay transporter mail with
                | Throw e => (Throw e, emailAttempts')
                | Normal _ =>
                    (Normal (200,
                             VObject [(lit "success", VBool true);
                                      (lit "message",
                                       VString (lit "Email sent successfully"))]),
                     emailAttempts')
                end
        end
  end.

(** The [catch] block: the detail is added in development mode only. A
    thrown value that is not an [Error] has no message, and an
    [undefined] property is left out of the JSON body. *)
Definition failureBody (rt : Runtime) (env : Env) (error : thrown) : value :=
  VObject
    ([(lit "error", VString (lit "Failed to send email"))]
     ++ if bool_decide (NODE_ENV env = Some (lit "development"))
        then match message_of rt error with
             | Some message => [(lit "details", VString message)]
             | None => []
             end
        else []).

(** The request handler: the response and the ledger it leaves. *)
Definition handler (rt : Runtime) (tpl : TemplateText) (relay : Relay)
    (env : Env) (now : Z) (req : Request) (emailAttempts : ledger)
  : Response * ledger :=
  let respond code content :=
    {| status := code; headers := corsHeaders req; payload := content |} in
  if bool_decide (method req = lit "OPTIONS")
  then (respond 200 None, emailAttempts)
  else if negb (bool_decide (method req = lit "POST"))
  then (respond 405 (Some (errorBody "Method not allowed")), emailAttempts)
  else if unset (SMTP_USER env) || unset (SMTP_PASS env)
  then (respond 500 (Some (errorBody "Server configuration error")),
        emailAttempts)
  else
    match attempt rt tpl relay env now req emailAttempts with
    | (Normal (code, content), emailAttempts') =>
        (respond code (Some content), emailAttempts')
    | (Throw error, emailAttempts') =>
        (respond 500 (Some (failureBody rt env error)), emailAttempts')
    end.

End Endpoint.

(* ================================================================== *)
(** * The network seen from the browser *)
(* ================================================================== *)

Module Net.

Local Open Scope Z_scope.

(** A call of [fetch]: the body is the value given to [JSON.stringify]. *)
Record FetchRequest : Type := {
  url : jsstring;
  requestMethod : jsstring;
  contentType : jsstring;
  requestBody : value;
}.

(** A response: its status and what [response.json()] settles to. *)
Record FetchResponse : Type := {
  responseStatus : Z;
  json : completion value;
}.

(** [response.ok]: the status is in the range 200 to 299. *)
Definition ok (r : FetchResponse) : bool :=
  bool_decide (200 ≤ responseStatus r ≤ 299).

(** The far side of [fetch]: it answers, or the promise rejects. *)
Definition Network : Type := FetchRequest → completion FetchResponse.

End Net.

(* ================================================================== *)
(** * The waitlist slider *)
(* ================================================================== *)

Module Waitlist.

Import Net.

(** ** Local submission cache *)

Definition WAITLIST_STORAGE_KEY : jsstring := lit "mimora_waitlist_submitted".

(** [localStorage]: either every access throws (storage disabled), or
    it holds items and a write may still be refused (quota). *)
Inductive Storage : Type :=
| Blocked (e : thrown)
| Open (items : gmap (list N) (list N)) (refusal : option thrown).

(** [localStorage.getItem(key)]; [None] is [null]. *)
Definition getItem (key : jsstring) (store : Storage)
  : completion (option jsstring) :=
  match store with
  | Blocked e => Throw e
  | Open items _ => Normal (items !! key)
  end.

(** [localStorage.setItem(key, text)]. *)
Definition setItem (key text : jsstring) (store : Storage)
  : completion unit * Storage :=
  match store with
  | Blocked e => (Throw e, store)
  | Open items (Some e) => (Throw e, store)
  | Open items None => (Normal (), Open (<[key := text]> items) None)
  end.

(** [getStoredSubmission]: the cast [as StoredWaitlistData] is erased at
    run time, the parsed value is returned as it is. *)
Definition getStoredSubmission (store : Storage) : completion value :=
  try_catch
    (raw ← getItem WAITLIST_STORAGE_KEY store;
     match raw with
     | None => Normal VNull
     | Some text => if negb (truthy_string text) then Normal VNull
                    else Json.parse text
     end)
    (λ _, Normal VNull).

(** [storeSubmission]; [submittedAt] is the text of
    [new Date().toISOString()]. *)
Definition storeSubmission (submittedAt : jsstring) (name email : jsstring)
    (store : Storage) : completion unit * Storage :=
  setItem WAITLIST_STORAGE_KEY
    (Json.stringify_record
       [("name", name); ("email", email); ("submittedAt", submittedAt)])
    store.

(** A value with the shape of [StoredWaitlistData]. *)
Definition isStoredWaitlistData (v : value) : bool :=
  match v with
  | VObject props =>
      match lookup_prop (lit "name") props,
            lookup_prop (lit "email") props,
            lookup_prop (lit "submittedAt") props with
      | Some (VString _), Some (VString _), Some (VString _) => true
      | _, _, _ => false
      end
  | _ => false
  end.

(** ** Form data and errors *)

Inductive Category : Type := artist | customer | unselected.

Module FormData.
Record t : Type := {
  name : jsstring;
  email : jsstring;
  phone : jsstring;
  category : Category;
}.
End FormData.

Module FormErrors.
Record t : Type := {
  name : option jsstring;
  email : option jsstring;
  phone : option jsstring;
  category : option jsstring;
}.

(** [Object.keys(errors).length] for an object built by [validate],
    which only ever assigns defined messages. *)
Definition keys (errors : t) : nat :=
  length (omap id [name errors; email errors; phone errors; category errors]).
End FormErrors.

(** ** CRM submitter *)

Definition HUBSPOT_PORTAL_ID : jsstring := lit "48937342".
Definition HUBSPOT_FORM_ID : jsstring :=
  lit "2b2cd336-c7dc-4726-80c6-9801ea114f17".

Definition hubspotField (field text : jsstring) : value :=
  VObject [(lit "name", VString field); (lit "value", VString text)].

Definition hubspotPayload (pageUri : jsstring) (data : FormData.t) : value :=
  VObject
    [(lit "fields",
      VArray
        [hubspotField (lit "firstname") (FormData.name data);
         hubspotField (lit "email") (FormData.email data);
         hubspotField (lit "phone") (FormData.phone data);
         hubspotField (lit "what_best_describes_you")
           (match FormData.category data with
            | artist => lit "Artist"
            | customer => lit "Customer"
            | unselected => []
            end)]);
     (lit "context",
      VObject [(lit "pageUri", VString pageUri);
               (lit "pageName", VString (lit "Waitlist Landing Page"))])].

(** The request that [submitToHubSpot] hands to [fetch]. *)
Definition hubspotRequest (pageUri : jsstring) (data : FormData.t)
  : FetchRequest :=
  let url :=
    lit "https://api.hsforms.com/submissions/v3/integration/submit/"
    ++ HUBSPOT_PORTAL_ID ++ lit "/" ++ HUBSPOT_FORM_ID in
  let payload := hubspotPayload pageUri data in
  {| url := url;
     requestMethod := lit "POST";
     contentType := lit "application/json";
     requestBody := payload |}.

(** [submitToHubSpot]; [pageUri] is [window.location.href]. *)
Definition submitToHubSpot (network : Network) (pageUri : jsstring)
    (data : FormData.t) : completion bool :=
  try_catch
    (res ← network (hubspotRequest pageUri data);
     mret (ok res))
    (λ _, Normal false).

(** ** Validation *)

Definition validate (data : FormData.t) : FormErrors.t :=
  {| FormErrors.name :=
       if negb (truthy_string (trim (FormData.name data)))
       then Some (lit "Name is required")
       else if bool_decide (length (trim (FormData.name data)) < 2)
       then Some (lit "Name must be at least 2 characters")
       else None;
     FormErrors.email :=
       if negb (truthy_string (trim (FormData.email data)))
       then Some (lit "Email is required")
       else if negb (Regex.test Regex.emailRegex (FormData.email data))
       then Some (lit "Enter a valid email address")
       else None;
     FormErrors.phone :=
       if negb (truthy_string (trim (FormData.phone data)))
       then Some (lit "Phone number is required")
       else if negb (Regex.test Regex.phoneRegex (trim (FormData.phone data)))
       then Some (lit "Enter a valid phone number")
       else None;
     FormErrors.category :=
       match FormData.category data with
       | unselected => Some (lit "Please select a category")
       | _ => None
       end |}.

(** ** The controller *)

Inductive Field : Type := name | email | phone | category.

(** The pieces of component state that the submit handler reads or
    writes. *)
Record State : Type := {
  formData : FormData.t;
  errors : FormErrors.t;
  touched : Field → bool;
  isSubmitting : bool;
  isSuccess : bool;
  alreadyJoined : value;
}.

Definition setTouched (t : Field → bool) (s : State) : State :=
  {| formData := formData s; errors := errors s; touched := t;
     isSubmitting := isSubmitting s; isSuccess := isSuccess s;
     alreadyJoined := alreadyJoined s |}.

Definition setErrors (e : FormErrors.t) (s : State) : State :=
  {| formData := formData s; errors := e; touched := touched s;
     isSubmitting := isSubmitting s; isSuccess := isSuccess s;
     alreadyJoined := alreadyJoined s |}.

Definition setIsSubmitting (b : bool) (s : State) : State :=
  {| formData := formData s; errors := errors s; touched := touched s;
     isSubmitting := b; isSuccess := isSuccess s;
     alreadyJoined := alreadyJoined s |}.

Definition setIsSuccess (b : bool) (s : State) : State :=
  {| formData := formData s; errors := errors s; touched := touched s;
     isSubmitting := isSubmitting s; isSuccess := b;
     alreadyJoined := alreadyJoined s |}.

Definition setAlreadyJoined (v : value) (s : State) : State :=
  {| formData := formData s; errors := errors s; touched := touched s;
     isSubmitting := isSubmitting s; isSuccess := isSuccess s;
     alreadyJoined := v |}.

(** What the slider shows: the branches of the conditional in
    [formContent], and the overlay flag of the form. *)
Inductive Display : Type :=
| AlreadyJoined
| Success
| Form (submitting : bool).

Definition display (s : State) : Display :=
  if truthy (alreadyJoined s) then AlreadyJoined
  else if isSuccess s then Success
  else Form (isSubmitting s).

(** The effect that runs when the slider opens. *)
Definition onOpen (store : Storage) (s : State) : completion State :=
  stored ← getStoredSubmission store;
  mret (if truthy stored then setAlreadyJoined stored s else s).

(** The browser at the time of a submit: the network, the page address
    and the clock text of [toISOString]. *)
Record Browser : Type := {
  network : Network;
  href : jsstring;
  isoNow : jsstring;
}.

(** [handleSubmit]: the completion of the returned promise, the state
    after the setters that ran, and the storage. *)
Definition handleSubmit (browser : Browser) (s : State) (store : Storage)
  : completion unit * State * Storage :=
  let s := setTouched (λ _, true) s in
  let validationErrors := validate (formData s) in
  let s := setErrors validationErrors s in
  if bool_decide (0 < FormErrors.keys validationErrors) then (Normal (), s, store)
  else
    let s := setIsSubmitting true s in
    match submitToHubSpot (network browser) (href browser) (formData s) with
    | Throw e => (Throw e, s, store)
    | Normal ok =>
        let s := setIsSubmitting false s in
        if ok then
          match storeSubmission (isoNow browser) (FormData.name (formData s))
                  (FormData.email (formData s)) store with
          | (Throw e, store') => (Throw e, s, store')
          | (Normal _, store') => (Normal (), setIsSuccess true s, store')
          end
        else
          (* even on failure the source shows success *)
          match storeSubmission (isoNow browser) (FormData.name (formData s))
                  (FormData.email (formData s)) store with
          | (Throw e, store') => (Throw e, s, store')
          | (Normal _, store') => (Normal (), setIsSuccess true s, store')
          end
    end.



(** The text that [storeSubmission] writes. *)
Definition cacheText (browser : Browser) (s : State) : jsstring :=
  Json.stringify_record
    [("name", FormData.name (formData s));
     ("email", FormData.email (formData s));
     ("submittedAt", isoNow browser)].

End Waitlist.

(* ================================================================== *)
(** * The mail service of the client *)
(* ================================================================== *)

Module EmailService.

Import Net.

Inductive Role : Type := artist | customer.

Record SendEmailParams : Type := {
  name : jsstring;
  email : jsstring;
  role : Role;
}.

Record EmailResponse : Type := {
  success : bool;
  message : value;            (* [data.message], whatever the server sent *)
  error : option jsstring;
}.

Definition paramsBody (params : SendEmailParams) : value :=
  VObject [(lit "name", VString (name params));
           (lit "email", VString (email params));
           (lit "role", VString (match role params with
                                 | artist => lit "artist"
                                 | customer => lit "customer"
                                 end))].

(** The request that [sendWelcomeEmail] hands to [fetch]. *)
Definition emailRequest (params : SendEmailParams) : FetchRequest :=
  {| url := lit "/api/send-email";
     requestMethod := lit "POST";
     contentType := lit "application/json";
     requestBody := paramsBody params |}.

(** [sendWelcomeEmail]. [new Error(x)] stores [ToString(x)] as its
    message. *)
Definition sendWelcomeEmail (rt : Runtime) (network : Network)
    (params : SendEmailParams) : completion EmailResponse :=
  try_catch
    (response ← network (emailRequest params);
     data ← json response;
     if negb (ok response) then
       reason ← get data (lit "error");
       Throw (ErrorObject
                (toString rt (if truthy reason then reason
                              else VString (lit "Failed to send email"))))
     else
       text ← get data (lit "message");
       mret {| success := true; message := text; error := None |})
    (λ caught,
       Normal {| success := false;
                 message := VUndefined;
                 error := Some (default (lit "Unknown error")
                                  (message_of rt caught)) |}).

(** The reply to a failed send: the message of what was caught. *)
Definition failed (rt : Runtime) (caught : thrown) : EmailResponse :=
  {| success := false;
     message := VUndefined;
     error := Some (default (lit "Unknown error") (message_of rt caught)) |}.

End EmailService.

(* ================================================================== *)
(** * The words of the specification *)
(* ================================================================== *)

Module Spec.

(** "Trimming": [t] is [s] without its leading and trailing white
    space. *)
Definition IsTrimOf (s t : jsstring) : Prop :=
  ∃ l r, s = l ++ t ++ r
         ∧ Forall (λ c, isWhiteSpace c = true) l
         ∧ Forall (λ c, isWhiteSpace c = true) r
         ∧ (∀ c, head t = Some c → isWhiteSpace c = false)
         ∧ (∀ c, last t = Some c → isWhiteSpace c = false).

(** "Tag-character stripping": the code units [<] (60) and [>] (62) are
    removed. *)
Definition stripTagChars (s : jsstring) : jsstring :=
  filter (λ c, c ≠ 60%N ∧ c ≠ 62%N) s.

(** "Length-truncating" to at most [n] code units. *)
Definition truncate (n : nat) (s : jsstring) : jsstring := take n s.

(** Number of tag characters of a text. *)
Definition tagChars (s : jsstring) : nat :=
  length (filter (λ c, c = 60%N ∨ c = 62%N) s).

(** Age of a recorded attempt at the time of a check. *)
Definition age (now time : Z) : Z := (now - time)%Z.

(** The request body of the endpoint example, with the role to try. *)
Definition exampleBody (role : string) : value :=
  VObject [(lit "name", VString (lit "Jo"));
           (lit "email", VString (lit "jo@x.com"));
           (lit "role", VString (lit role))].

(** The body of the success response. *)
Definition successBody : value :=
  VObject [(lit "success", VBool true);
           (lit "message", VString (lit "Email sent successfully"))].

(** A runtime to run examples on: Basic Latin lower-casing, numbers
    printed as mantissa and exponent, short exception texts. *)
Definition exampleRuntime : Runtime :=
  {| toLowerCase :=
       map (λ c, if ((65 <=? c) && (c <=? 90))%N then (c + 32)%N else c);
     numberToString := λ mantissa exponent,
       lit (pretty mantissa) ++ lit "e" ++ lit (pretty exponent);
     engineMessage := λ e,
       match e with
       | ReadOfNullish prop => lit "Cannot read property " ++ prop
       | NotCallable prop => prop ++ lit " is not a function"
       | JsonSyntax => lit "Unexpected token in JSON"
       end |}.

(** An environment with relay credentials and nothing else. *)
Definition exampleEnv : Endpoint.Env :=
  {| Endpoint.SMTP_USER := Some (lit "mailer@mimora.co.in");
     Endpoint.SMTP_PASS := Some (lit "secret");
     Endpoint.SMTP_HOST := None;
     Endpoint.SMTP_PORT := None;
     Endpoint.FROM_NAME := None;
     Endpoint.FROM_EMAIL := None;
     Endpoint.NODE_ENV := None |}.

Definition exampleTemplate : Endpoint.TemplateText :=
  {| Endpoint.beforeName := lit "<p>Hi ";
     Endpoint.betweenNameAndRole := lit ",</p><p>registered as <strong>";
     Endpoint.afterRole := lit "</strong></p>" |}.

Definition exampleRequest (method : string) (role : string) : Endpoint.Request :=
  {| Endpoint.method := lit method;
     Endpoint.origin := Some (lit "https://mimora.co.in");
     Endpoint.body := exampleBody role |}.

(** A network that answers every request with one status and body. *)
Definition answering (code : Z) (content : completion value) : Net.Network :=
  λ _, Normal {| Net.responseStatus := code; Net.json := content |}.

(** A network on which every [fetch] rejects. *)
Definition unreachable : Net.Network :=
  λ _, Throw (ErrorObject (lit "Failed to fetch")).

Definition exampleParams : EmailService.SendEmailParams :=
  {| EmailService.name := lit "Jo";
     EmailService.email := lit "jo@x.com";
     EmailService.role := EmailService.artist |}.

Definition exampleForm : Waitlist.FormData.t :=
  {| Waitlist.FormData.name := lit "Jo";
     Waitlist.FormData.email := lit "jo@x.com";
     Waitlist.FormData.phone := lit "+91 98765 43210";
     Waitlist.FormData.category := Waitlist.artist |}.

Definition emptyForm : Waitlist.FormData.t :=
  {| Waitlist.FormData.name := [];
     Waitlist.FormData.email := [];
     Waitlist.FormData.phone := [];
     Waitlist.FormData.category := Waitlist.unselected |}.

(** The slider with a filled form on display. *)
Definition exampleState : Waitlist.State :=
  {| Waitlist.formData := exampleForm;
     Waitlist.errors := Waitlist.validate exampleForm;
     Waitlist.touched := λ _, false;
     Waitlist.isSubmitting := false;
     Waitlist.isSuccess := false;
     Waitlist.alreadyJoined := VNull |}.

Definition exampleBrowser (crm : Net.Network) : Waitlist.Browser :=
  {| Waitlist.network := crm;
     Waitlist.href := lit "https://mimora.co.in/";
     Waitlist.isoNow := lit "2025-01-01T00:00:00.000Z" |}.

(** A cache that holds well-formed JSON of another shape. *)
Definition otherShapeStore : Waitlist.Storage :=
  Waitlist.Open
    {[Waitlist.WAITLIST_STORAGE_KEY := Json.stringify_record [("name", lit "Jo")]]}
    None.

(** A cache that holds text that is no JSON. *)
Definition brokenStore : Waitlist.Storage :=
  Waitlist.Open {[Waitlist.WAITLIST_STORAGE_KEY := lit "{name: Jo"]} None.

(** "Storage unavailable". *)
Definition StorageUnavailable (store : Waitlist.Storage) : Prop :=
  ∃ e, store = Waitlist.Blocked e.

(** "The stored value malformed (not valid StoredWaitlistData)": there
    is a stored text, and it does not parse to a value of that shape. *)
Definition StoredValueMalformed (store : Waitlist.Storage) : Prop :=
  ∃ items refusal text,
    store = Waitlist.Open items refusal
    ∧ items !! Waitlist.WAITLIST_STORAGE_KEY = Some text
    ∧ ∀ v, Json.parse text = Normal v → Waitlist.isStoredWaitlistData v = false.

(** "The stored value is not parseable": there is a stored text and
    [JSON.parse] throws on it. *)
Definition StoredValueUnparseable (store : Waitlist.Storage) : Prop :=
  ∃ items refusal text e,
    store = Waitlist.Open items refusal
    ∧ items !! Waitlist.WAITLIST_STORAGE_KEY = Some text
    ∧ Json.parse text = Throw e.

End Spec.

(* ================================================================== *)
(** * Runs of the rate limiter *)
(* ================================================================== *)

Module Traffic.

Import RateLimiter.
Local Open Scope Z_scope.

(** The calls of [isRateLimited] in the order the process makes them,
    each with the clock it reads and its address; the log keeps the
    verdict of each call. *)
Fixpoint serveAll (trace : list (Z * jsstring)) (m : ledger)
  : list (Z * jsstring * bool) * ledger :=
  match trace with
  | [] => ([], m)
  | (now, email) :: trace' =>
      let (limited, m1) := isRateLimited now email m in
      let (log, m2) := serveAll trace' m1 in
      ((now, email, limited) :: log, m2)
  end.

(** The times at which calls for [email] were allowed. *)
Fixpoint allowedTimes (email : jsstring) (log : list (Z * jsstring * bool))
  : list Z :=
  match log with
  | [] => []
  | (now, e, limited) :: log' =>
      if decide (e = email) then
        if limited then allowedTimes email log'
        else now :: allowedTimes email log'
      else allowedTimes email log'
  end.

(** A clock that never runs backwards, read first at [c] or later. *)
Fixpoint clockFrom (c : Z) (trace : list (Z * jsstring)) : Prop :=
  match trace with
  | [] => True
  | (now, _) :: trace' => c ≤ now ∧ clockFrom now trace'
  end.

(** The hour that ends at [t]. *)
Definition inWindow (t x : Z) : Prop := t - 3600000 < x ∧ x ≤ t.

#[export] Instance inWindow_dec (t x : Z) : Decision (inWindow t x).
Proof. unfold inWindow. apply _. Defined.

(** What the ledger knows about an address, against the history of its
    allowed calls: the stored list is the end of the history, in clock
    order and not ahead of the clock [c]; the rest of the history is an
    hour old or more; no hour of the history holds more than three. *)
Definition Tracks (email : jsstring) (m : ledger) (c : Z) (old : list Z) : Prop :=
  Forall (λ time, 3600000 ≤ c - time) old
  ∧ StronglySorted Z.le (attemptsOf m email)
  ∧ Forall (λ time, time ≤ c) (attemptsOf m email)
  ∧ ∀ t, (length (filter (inWindow t) (old ++ attemptsOf m email)) ≤ 3)%nat.

(** A burst for one address with a call for another in between, and
    one more call an hour later. *)
Definition exampleTrace : list (Z * jsstring) :=
  [(0, lit "jo@x.com"); (10, lit "jo@x.com"); (20, lit "a@b.c");
   (30, lit "jo@x.com"); (40, lit "jo@x.com"); (3600005, lit "jo@x.com")].

(** Two calls for two addresses, in the order given. *)
Definition twoCalls (first second : Z * jsstring) (m : ledger)
  : bool * bool * ledger :=
  let (r1, m1) := isRateLimited first.1 first.2 m in
  let (r2, m2) := isRateLimited second.1 second.2 m1 in
  (r1, r2, m2).

End Traffic.

(* ================================================================== *)
(** * The validations of the endpoint, and what follows them *)
(* ================================================================== *)

Module Delivery.

Import RateLimiter Endpoint.
Local Open Scope Z_scope.

(** The request gets through every check of the [try] block that comes
    before the rate limiter: the three fields are non-empty strings, the
    sanitized lower-cased address has the shape of an address, the
    sanitized role is one of the two roles, the sanitized name has 2 to
    100 code units. *)
Definition Passes (rt : Runtime) (req : Request) (name email role : jsstring)
  : Prop :=
  get (body req) (lit "name") = Normal (VString name)
  ∧ get (body req) (lit "email") = Normal (VString email)
  ∧ get (body req) (lit "role") = Normal (VString role)
  ∧ name ≠ [] ∧ email ≠ [] ∧ role ≠ []
  ∧ Regex.test Regex.emailRegex (toLowerCase rt (sanitizeInput email)) = true
  ∧ sanitizeInput role ∈ [lit "artist"; lit "customer"]
  ∧ (2 ≤ length (sanitizeInput name) ≤ 100)%nat.

(** The key under which the request is counted. *)
Definition ledgerKey (rt : Runtime) (email : jsstring) : jsstring :=
  toLowerCase rt (sanitizeInput email).

(** The transport and the message that the [try] block builds. *)
Definition transportOf (env : Env) : Transport :=
  {| host := or_else (SMTP_HOST env) (lit "smtp.gmail.com");
     port := or_else (SMTP_PORT env) (lit "587");
     user := or_else (SMTP_USER env) [];
     pass := or_else (SMTP_PASS env) [] |}.

Definition mailOf (rt : Runtime) (tpl : TemplateText) (env : Env)
    (name email role : jsstring) : Mail :=
  {| from := sender env;
     to := ledgerKey rt email;
     subject := subjectLine;
     html := getEmailTemplate tpl (sanitizeInput name) (sanitizeInput role) |}.

(** The ledger with the attempt of the request written down. *)
Definition recorded (rt : Runtime) (now : Z) (email : jsstring)
    (emailAttempts : ledger) : ledger :=
  <[ledgerKey rt email :=
      recent now (attemptsOf emailAttempts (ledgerKey rt email)) ++ [now]]>
    emailAttempts.

(** The messages of the 400 responses. *)
Definition rejections : list string :=
  ["Missing required fields"; "Invalid email format"; "Invalid role";
   "Invalid name length"].

Definition respond (req : Request) (code : Z) (content : option value)
  : Response :=
  {| status := code; headers := corsHeaders req; payload := content |}.

(** The eight ways in which the handler answers a request, each with
    the conditions under which it is taken and the ledger it leaves. *)
Inductive Answers (rt : Runtime) (tpl : TemplateText) (relay : Relay)
    (env : Env) (now : Z) (emailAttempts : ledger) (req : Request)
  : Response * ledger → Prop :=
| preflight :
    method req = lit "OPTIONS" →
    Answers rt tpl relay env now emailAttempts req
      (respond req 200 None, emailAttempts)
| wrongMethod :
    method req ≠ lit "OPTIONS" → method req ≠ lit "POST" →
    Answers rt tpl relay env now emailAttempts req
      (respond req 405 (Some (errorBody "Method not allowed")), emailAttempts)
| unconfigured :
    method req = lit "POST" →
    unset (SMTP_USER env) || unset (SMTP_PASS env) = true →
    Answers rt tpl relay env now emailAttempts req
      (respond req 500 (Some (errorBody "Server configuration error")),
       emailAttempts)
| crashed (e : thrown) :
    method req = lit "POST" →
    unset (SMTP_USER env) || unset (SMTP_PASS env) = false →
    (∀ name email role, ¬ Passes rt req name email role) →
    Answers rt tpl relay env now emailAttempts req
      (respond req 500 (Some (failureBody rt env e)), emailAttempts)
| rejected (msg : string) :
    method req = lit "POST" →
    unset (SMTP_USER env) || unset (SMTP_PASS env) = false →
    (∀ name email role, ¬ Passes rt req name email role) →
    msg ∈ rejections →
    Answers rt tpl relay env now emailAttempts req
      (respond req 400 (Some (errorBody msg)), emailAttempts)
| limited (name email role : jsstring) :
    method req = lit "POST" →
    unset (SMTP_USER env) || unset (SMTP_PASS env) = false →
    Passes rt req name email role →
    (isRateLimited now (ledgerKey rt email) emailAttempts).1 = true →
    Answers rt tpl relay env now emailAttempts req
      (respond req 429
         (Some (errorBody "Too many requests. Please try again later.")),
       emailAttempts)
| relayFailed (name email role : jsstring) (e : thrown) :
    method req = lit "POST" →
    unset (SMTP_USER env) || unset (SMTP_PASS env) = false →
    Passes rt req name email role →
    (isRateLimited now (ledgerKey rt email) emailAttempts).1 = false →
    relay (transportOf env) (mailOf rt tpl env name email role) = Throw e →
    Answers rt tpl relay env now emailAttempts req
      (respond req 500 (Some (failureBody rt env e)),
       recorded rt now email emailAttempts)
| delivered (name email role : jsstring) :
    method req = lit "POST" →
    unset (SMTP_USER env) || unset (SMTP_PASS env) = false →
    Passes rt req name email role →
    (isRateLimited now (ledgerKey rt email) emailAttempts).1 = false →
    relay (transportOf env) (mailOf rt tpl env name email role) = Normal () →
    Answers rt tpl relay env now emailAttempts req
      (respond req 200 (Some Spec.successBody),
       recorded rt now email emailAttempts).

(** The texts of all error responses. *)
Definition errorTexts : list string :=
  ["Method not allowed"; "Server configuration error"; "Failed to send email";
   "Too many requests. Please try again later."] ++ rejections.

(** A relay that is down. *)
Definition relayDown : Relay := λ _ _, Throw (ErrorObject (lit "ECONNREFUSED")).

End Delivery.

(* ================================================================== *)
(** * The form of the slider *)
(* ================================================================== *)

Module Slider.

Import JS Waitlist.

(** The initial values of the [useState] calls. [categoryOpen], which
    only shows or hides the list of options, is left out. *)
Definition blank : FormData.t :=
  {| FormData.name := []; FormData.email := []; FormData.phone := [];
     FormData.category := unselected |}.

Definition noErrors : FormErrors.t :=
  {| FormErrors.name := None; FormErrors.email := None;
     FormErrors.phone := None; FormErrors.category := None |}.

Definition initial : State :=
  {| formData := blank; errors := noErrors; touched := λ _, false;
     isSubmitting := false; isSuccess := false; alreadyJoined := VNull |}.

(** The two options of the category list. *)
Inductive Pick : Type := pickArtist | pickCustomer.

Definition picked (p : Pick) : Category :=
  match p with pickArtist => artist | pickCustomer => customer end.

(** The arguments of [handleChange(field, value)]: the inputs pass their
    text, [selectCategory] passes one of the two options. *)
Inductive Change : Type :=
| nameTo (text : jsstring)
| emailTo (text : jsstring)
| phoneTo (text : jsstring)
| categoryTo (p : Pick).

Definition fieldOf (c : Change) : Field :=
  match c with
  | nameTo _ => name
  | emailTo _ => email
  | phoneTo _ => phone
  | categoryTo _ => category
  end.

(** [{ ...data, [field]: value }]. *)
Definition assign (c : Change) (data : FormData.t) : FormData.t :=
  match c with
  | nameTo text =>
      {| FormData.name := text; FormData.email := FormData.email data;
         FormData.phone := FormData.phone data;
         FormData.category := FormData.category data |}
  | emailTo text =>
      {| FormData.name := FormData.name data; FormData.email := text;
         FormData.phone := FormData.phone data;
         FormData.category := FormData.category data |}
  | phoneTo text =>
      {| FormData.name := FormData.name data;
         FormData.email := FormData.email data; FormData.phone := text;
         FormData.category := FormData.category data |}
  | categoryTo p =>
      {| FormData.name := FormData.name data;
         FormData.email := FormData.email data;
         FormData.phone := FormData.phone data;
         FormData.category := picked p |}
  end.

(** [errors[field]]. *)
Definition errorAt (field : Field) (e : FormErrors.t) : option jsstring :=
  match field with
  | name => FormErrors.name e
  | email => FormErrors.email e
  | phone => FormErrors.phone e
  | category => FormErrors.category e
  end.

(** [{ ...errors, [field]: message }]; a message that is [undefined]
    reads like a missing one. *)
Definition withError (field : Field) (message : option jsstring)
    (e : FormErrors.t) : FormErrors.t :=
  match field with
  | name =>
      {| FormErrors.name := message; FormErrors.email := FormErrors.email e;
         FormErrors.phone := FormErrors.phone e;
         FormErrors.category := FormErrors.category e |}
  | email =>
      {| FormErrors.name := FormErrors.name e; FormErrors.email := message;
         FormErrors.phone := FormErrors.phone e;
         FormErrors.category := FormErrors.category e |}
  | phone =>
      {| FormErrors.name := FormErrors.name e;
         FormErrors.email := FormErrors.email e; FormErrors.phone := message;
         FormErrors.category := FormErrors.category e |}
  | category =>
      {| FormErrors.name := FormErrors.name e;
         FormErrors.email := FormErrors.email e;
         FormErrors.phone := FormErrors.phone e;
         FormErrors.category := message |}
  end.

Definition sameField (f g : Field) : bool :=
  match f, g with
  | name, name | email, email | phone, phone | category, category => true
  | _, _ => false
  end.

(** [{ ...touched, [field]: true }]. *)
Definition withTouched (field : Field) (t : Field → bool) : Field → bool :=
  λ f, if sameField f field then true else t f.

Definition setFormData (d : FormData.t) (s : State) : State :=
  {| formData := d; errors := errors s; touched := touched s;
     isSubmitting := isSubmitting s; isSuccess := isSuccess s;
     alreadyJoined := alreadyJoined s |}.

(** [handleChange] as the render that saw [seen] created it, called
    when the state is [s]. The updater functions passed to the setters
    receive the state of the moment; [touched] and [formData] in the
    body are those of the closure. *)
Definition handleChange (seen : State) (c : Change) (s : State) : State :=
  let s := setFormData (assign c (formData s)) s in
  if touched seen (fieldOf c)
  then
    let newData := assign c (formData seen) in
    let newErrors := validate newData in
    setErrors (withError (fieldOf c) (errorAt (fieldOf c) newErrors) (errors s)) s
  else s.

(** [handleBlur], with its closure as for [handleChange]. *)
Definition handleBlur (seen : State) (field : Field) (s : State) : State :=
  let s := setTouched (withTouched field (touched s)) s in
  let newErrors := validate (formData seen) in
  setErrors (withError field (errorAt field newErrors) (errors s)) s.

(** [selectCategory]. *)
Definition selectCategory (seen : State) (p : Pick) (s : State) : State :=
  let s := handleChange seen (categoryTo p) s in
  setTouched (withTouched category (touched s)) s.

(** The timer that the effect on [isOpen] starts when the slider
    closes; it fires after 400 ms and leaves [isSubmitting] alone. *)
Definition resetAfterClose (s : State) : State :=
  {| formData := blank; errors := noErrors; touched := λ _, false;
     isSubmitting := isSubmitting s; isSuccess := false;
     alreadyJoined := VNull |}.

(** What happens to the slider, one event at a time. Every handler is
    the one of the render on screen: [Left category] is the timer of
    the category button firing before anything else changed the state,
    and a submit runs to its end before the next event. *)
Inductive Event : Type :=
| Typed (c : Change)
| Left (field : Field)
| Picked (p : Pick)
| Submitted (browser : Browser)
| Closed
| Opened.

Definition step (σ : State * Storage) (e : Event) : State * Storage :=
  match e with
  | Typed c => (handleChange σ.1 c σ.1, σ.2)
  | Left field => (handleBlur σ.1 field σ.1, σ.2)
  | Picked p => (selectCategory σ.1 p σ.1, σ.2)
  | Submitted browser =>
      ((handleSubmit browser σ.1 σ.2).1.2, (handleSubmit browser σ.1 σ.2).2)
  | Closed => (resetAfterClose σ.1, σ.2)
  | Opened =>
      (match onOpen σ.2 σ.1 with Normal s => s | Throw _ => σ.1 end, σ.2)
  end.

Definition run (events : list Event) (σ : State * Storage) : State * Storage :=
  foldl step σ events.

(** The message under a field: [errors.field && touched.field]. *)
Definition shown (field : Field) (s : State) : option jsstring :=
  match errorAt field (errors s) with
  | Some message =>
      if truthy_string message && touched s field then Some message else None
  | None => None
  end.

(** [alreadyJoined.name.split(' ')[0]], the name in the greeting of the
    already-joined view. *)
Definition greetedName (stored : value) : completion value :=
  name ← get stored (lit "name");
  match name with
  | VString s => Normal (default VUndefined (VString <$> split 32 s !! 0%nat))
  | VUndefined | VNull => Throw (Engine (ReadOfNullish (lit "split")))
  | _ => Throw (Engine (NotCallable (lit "split")))
  end.

(** The errors held for the fields agree with the form: a touched field
    holds what [validate] says of the form as it is, an untouched field
    holds nothing. *)
Definition Consistent (s : State) : Prop :=
  ∀ field,
    errorAt field (errors s)
    = if touched s field then errorAt field (validate (formData s)) else None.

(** A cache that holds JSON without a [name]. *)
Definition namelessStore : Storage :=
  Open {[WAITLIST_STORAGE_KEY := lit "true"]} None.

(** A form that [validate] accepts, typed in field by field. *)
Definition exampleSession : list Event :=
  [Typed (nameTo (lit "Jo Doe")); Left name;
   Typed (emailTo (lit "jo@x.com")); Left email;
   Typed (phoneTo (lit "+91 98765 43210")); Left phone;
   Picked pickArtist].

End Slider.

(* ================================================================== *)
(** * The mail service in front of the endpoint *)
(* ================================================================== *)

Module Deployment.

Import JS RateLimiter Endpoint Net.

(** The request that reaches the handler when the platform routes a
    [fetch] of the client to it: the method as sent, the JSON body
    parsed back to the value that was serialized. *)
Definition requestOf (site : option jsstring) (request : FetchRequest)
  : Request :=
  {| method := requestMethod request; origin := site;
     body := requestBody request |}.

(** The handler as the far side of [fetch]: the status it set, and for
    [response.json()] the value it gave to [res.json]; a response ended
    without a body has no JSON to read. *)
Definition server (rt : Runtime) (tpl : TemplateText) (relay : Relay)
    (env : Env) (now : Z) (site : option jsstring) (emailAttempts : ledger)
  : Network :=
  λ request,
    let res :=
      (handler rt tpl relay env now (requestOf site request) emailAttempts).1 in
    Normal {| responseStatus := status res;
              json := match payload res with
                      | Some content => Normal content
                      | None => Throw (Engine JsonSyntax)
                      end |}.

End Deployment.

(* ================================================================== *)
(** * The endpoint over many requests *)
(* ================================================================== *)

Module Service.

Import JS RateLimiter Endpoint Delivery.
Local Open Scope Z_scope.

(** The requests that one process serves, in order, each with the clock
    its handler reads; the ledger lives in the module and goes from one
    request to the next. The log keeps each request with its response. *)
Fixpoint serveRequests (rt : Runtime) (tpl : TemplateText) (relay : Relay)
    (env : Env) (trace : list (Z * Request)) (emailAttempts : ledger)
  : list (Z * Request * Response) * ledger :=
  match trace with
  | [] => ([], emailAttempts)
  | (now, req) :: trace' =>
      let (res, m1) := handler rt tpl relay env now req emailAttempts in
      let (log, m2) := serveRequests rt tpl relay env trace' m1 in
      ((now, req, res) :: log, m2)
  end.

(** The address a request asks mail for, as the handler writes it in
    the [to] field and in the ledger. *)
Definition addressee (rt : Runtime) (req : Request) : option jsstring :=
  match get (body req) (lit "email") with
  | Normal (VString email) => Some (ledgerKey rt email)
  | _ => None
  end.

(** The times at which mail for [address] went out: the answers 200 to
    requests other than preflights. *)
Fixpoint sentTimes (rt : Runtime) (address : jsstring)
    (log : list (Z * Request * Response)) : list Z :=
  match log with
  | [] => []
  | (now, req, res) :: log' =>
      if bool_decide (method req ≠ lit "OPTIONS" ∧ status res = 200
                      ∧ addressee rt req = Some address)
      then now :: sentTimes rt address log'
      else sentTimes rt address log'
  end.

(** A clock that never runs backwards, read first at [c] or later. *)
Fixpoint clockOf (c : Z) (trace : list (Z * Request)) : Prop :=
  match trace with
  | [] => True
  | (now, _) :: trace' => c ≤ now ∧ clockOf now trace'
  end.

(** Five requests for one address within a minute. *)
Definition burst : list (Z * Request) :=
  [(0, Spec.exampleRequest "POST" "artist");
   (10000, Spec.exampleRequest "POST" "artist");
   (20000, Spec.exampleRequest "POST" "customer");
   (30000, Spec.exampleRequest "POST" "artist");
   (40000, Spec.exampleRequest "POST" "artist")].

End Service.

(* ================================================================== *)
(** * Facts about strings *)
(* ================================================================== *)

Module JSFacts.

Lemma trimStart_decompose (s : jsstring) :
  ∃ l, s = l ++ trimStart s
       ∧ Forall (λ c, isWhiteSpace c = true) l
       ∧ ∀ c, head (trimStart s) = Some c → isWhiteSpace c = false.
Proof.
  induction s as [|c s IH]; simpl.
  - exists []. split_and!; [done | constructor | done].
  - destruct (isWhiteSpace c) eqn:Hc.
    + destruct IH as (l & Hs & Hl & Hhd).
      exists (c :: l). split_and!; [by rewrite Hs at 1 | by constructor | done].
    + exists []. split_and!; [done | constructor |].
      intros c' [= <-]. done.
Qed.

Lemma trimStart_all_space (s : jsstring) :
  Forall (λ c, isWhiteSpace c = true) s → trimStart s = [].
Proof.
  induction 1 as [|c s Hc _ IH]; simpl; [done | by rewrite Hc].
Qed.

Lemma trimStart_skip (l s : jsstring) :
  Forall (λ c, isWhiteSpace c = true) l → trimStart (l ++ s) = trimStart s.
Proof.
  induction 1 as [|c l Hc _ IH]; simpl; [done | by rewrite Hc].
Qed.

Lemma trimStart_stop (s : jsstring) :
  (∀ c, head s = Some c → isWhiteSpace c = false) → trimStart s = s.
Proof.
  destruct s as [|c s]; simpl; [done |].
  intros H. by rewrite (H c eq_refl).
Qed.

(** The text left by [trimStart] ends like the text it was given. *)
Lemma trimStart_last (s : jsstring) (c : N) :
  last (trimStart s) = Some c → last s = Some c.
Proof.
  destruct (trimStart_decompose s) as (l & Hs & _ & _).
  intros H. rewrite Hs. destruct (trimStart s) as [|x t] eqn:E; [done |].
  by rewrite last_app, H.
Qed.

Lemma trim_is_trim (s : jsstring) : Spec.IsTrimOf s (trim s).
Proof.
  unfold trim, trimEnd.
  destruct (trimStart_decompose s) as (l & Hs & Hl & Hhd).
  destruct (trimStart_decompose (reverse (trimStart s))) as (r & Hr & Hrs & Hrh).
  set (t := trimStart (reverse (trimStart s))) in *.
  assert (Hts : trimStart s = reverse t ++ reverse r).
  { rewrite <- (reverse_involutive (trimStart s)), Hr, reverse_app. done. }
  exists l, (reverse r). split_and!.
  - by rewrite <- Hts.
  - done.
  - by apply Forall_reverse.
  - intros c Hc. apply Hhd. rewrite Hts.
    destruct (reverse t); [done |]. done.
  - intros c Hc. apply Hrh. by rewrite last_reverse in Hc.
Qed.

Lemma trim_unique (s t : jsstring) : Spec.IsTrimOf s t → trim s = t.
Proof.
  intros (l & r & -> & Hl & Hr & Hhd & Hlast).
  unfold trim, trimEnd. rewrite trimStart_skip by done.
  destruct t as [|c t].
  - simpl. rewrite (trimStart_all_space r) by done. done.
  - rewrite (trimStart_stop ((c :: t) ++ r)) by (intros c'; simpl; apply Hhd).
    rewrite reverse_app, trimStart_skip by (by apply Forall_reverse).
    rewrite trimStart_stop; [apply reverse_involutive |].
    intros c' Hc'. apply Hlast. by rewrite head_reverse in Hc'.
Qed.

Lemma replace_class_global_delete (cls : N → bool) (s : jsstring) :
  replace_class_global cls [] s = filter (λ c, cls c = false) s.
Proof.
  induction s as [|c s IH]; simpl; [done |].
  destruct (cls c) eqn:Hc.
  - rewrite filter_cons_False by congruence. done.
  - rewrite filter_cons_True by done. by rewrite IH.
Qed.

Lemma substring_from_zero (n : nat) (s : jsstring) :
  substring 0 (Z.of_nat n) s = take n s.
Proof.
  unfold substring.
  set (len := Z.of_nat (length s)).
  set (finalStart := Z.min (Z.max 0 0) len).
  set (finalEnd := Z.min (Z.max (Z.of_nat n) 0) len).
  assert (Hfrom : Z.min finalStart finalEnd = 0%Z) by lia.
  rewrite Hfrom. change (Z.to_nat 0) with 0%nat. rewrite drop_0, Z.sub_0_r.
  destruct (decide (n ≤ length s)%nat).
  - replace (Z.max finalStart finalEnd) with (Z.of_nat n) by lia.
    by rewrite Nat2Z.id.
  - replace (Z.max finalStart finalEnd) with len by lia.
    unfold len. rewrite Nat2Z.id.
    rewrite (take_ge s (length s)), (take_ge s n) by lia. done.
Qed.

Lemma split_pieces (P : N → Prop) (sep : N) (s : jsstring) :
  Forall P s → Forall (Forall P) (split sep s).
Proof.
  induction 1 as [|c s Hc Hs IH]; simpl.
  - repeat constructor.
  - destruct (c =? sep)%N.
    + constructor; [constructor | done].
    + destruct (split sep s) as [|piece pieces].
      * repeat constructor. done.
      * inversion IH; subst. constructor; [by constructor | done].
Qed.

Lemma split_first (sep : N) (s : jsstring) : is_Some (split sep s !! 0%nat).
Proof.
  destruct s as [|c s]; simpl; [by eexists |].
  destruct (c =? sep)%N; [by eexists |].
  destruct (split sep s); by eexists.
Qed.

End JSFacts.

(* ================================================================== *)
(** * Facts about the regular expressions *)
(* ================================================================== *)

Module RegexFacts.

Import Regex.

Lemma void_inv (s : jsstring) : ¬ Matches Void s.
Proof. inversion 1. Qed.

Lemma eps_inv (s : jsstring) : Matches Eps s → s = [].
Proof. by inversion 1. Qed.

Lemma class_inv (cls : N → bool) (s : jsstring) :
  Matches (Class cls) s → ∃ c, s = [c] ∧ cls c = true.
Proof. inversion 1; subst. by eexists. Qed.

Lemma seq_inv (r1 r2 : regex) (s : jsstring) :
  Matches (Seq r1 r2) s →
  ∃ s1 s2, s = s1 ++ s2 ∧ Matches r1 s1 ∧ Matches r2 s2.
Proof. inversion 1; subst. by eexists _, _. Qed.

Lemma alt_inv (r1 r2 : regex) (s : jsstring) :
  Matches (Alt r1 r2) s → Matches r1 s ∨ Matches r2 s.
Proof. inversion 1; subst; tauto. Qed.

Lemma nullable_matches (r : regex) : nullable r = true ↔ Matches r [].
Proof.
  induction r as [| |cls|r1 IH1 r2 IH2|r1 IH1 r2 IH2|r IH]; simpl.
  - split; [done | by intros ?%void_inv].
  - split; [constructor | done].
  - split; [done | by intros (c & ? & _)%class_inv].
  - rewrite andb_true_iff, IH1, IH2. split.
    + intros [H1 H2]. apply (MSeq _ _ [] [] H1 H2).
    + intros (s1 & s2 & Heq & H1 & H2)%seq_inv.
      symmetry in Heq. apply app_eq_nil in Heq as [-> ->]. done.
  - rewrite orb_true_iff, IH1, IH2. split.
    + intros [H|H]; [by apply MAltL | by apply MAltR].
    + apply alt_inv.
  - split; [constructor | done].
Qed.

(** A non-empty string of [Star r] starts with a non-empty string of
    [r]. *)
Lemma star_cons (r : regex) (c : N) (s : jsstring) :
  Matches (Star r) (c :: s) →
  ∃ s1 s2, s = s1 ++ s2 ∧ Matches r (c :: s1) ∧ Matches (Star r) s2.
Proof.
  intros H. remember (Star r) as r' eqn:Hr. remember (c :: s) as s' eqn:Hs.
  revert s Hs.
  induction H as [| | | | | |r0 s1 s2 H1 _ H2 IH2]; intros t Ht; try done.
  injection Hr as ->. destruct s1 as [|c1 s1]; simpl in Ht.
  - by apply IH2.
  - injection Ht as -> <-. by exists s1, s2.
Qed.

Lemma deriv_matches (r : regex) (c : N) (s : jsstring) :
  Matches (deriv c r) s ↔ Matches r (c :: s).
Proof.
  revert s.
  induction r as [| |cls|r1 IH1 r2 IH2|r1 IH1 r2 IH2|r IH]; intros s; simpl.
  - split; by intros ?%void_inv.
  - split; [by intros ?%void_inv | by intros ?%eps_inv].
  - destruct (cls c) eqn:Hc; split.
    + intros ->%eps_inv. by constructor.
    + intros (c' & [= <- ->] & _)%class_inv. constructor.
    + by intros ?%void_inv.
    + intros (c' & [= <- ->] & ?)%class_inv. congruence.
  - assert (Hseq : Matches (Seq (deriv c r1) r2) s →
                   Matches (Seq r1 r2) (c :: s)).
    { intros (s1 & s2 & -> & H1 & H2)%seq_inv.
      apply IH1 in H1. apply (MSeq _ _ (c :: s1) s2 H1 H2). }
    assert (Hback : Matches (Seq r1 r2) (c :: s) →
                    Matches (Seq (deriv c r1) r2) s
                    ∨ (Matches r1 [] ∧ Matches r2 (c :: s))).
    { intros (s1 & s2 & Heq & H1 & H2)%seq_inv.
      destruct s1 as [|c1 s1]; simpl in Heq.
      - right. subst. done.
      - injection Heq as <- ->. left. constructor; [by apply IH1 | done]. }
    destruct (nullable r1) eqn:Hnull; split.
    + intros [H|H]%alt_inv; [by apply Hseq |].
      apply nullable_matches in Hnull.
      apply (MSeq _ _ [] (c :: s) Hnull). by apply IH2.
    + intros [H|[_ H]]%Hback; [by apply MAltL |].
      apply MAltR. by apply IH2.
    + apply Hseq.
    + intros [H|[H _]]%Hback; [done |].
      apply nullable_matches in H. congruence.
  - split.
    + intros [H|H]%alt_inv; [apply MAltL; by apply IH1 | apply MAltR; by apply IH2].
    + intros [H|H]%alt_inv; [apply MAltL; by apply IH1 | apply MAltR; by apply IH2].
  - split.
    + intros (s1 & s2 & -> & H1 & H2)%seq_inv.
      apply IH in H1. apply (MStarApp _ (c :: s1) s2 H1 H2).
    + intros (s1 & s2 & -> & H1 & H2)%star_cons.
      constructor; [by apply IH | done].
Qed.

(** [test] decides the language of the pattern. *)
Lemma test_matches (r : regex) (s : jsstring) : test r s = true ↔ Matches r s.
Proof.
  revert r. induction s as [|c s IH]; intros r; simpl.
  - apply nullable_matches.
  - rewrite IH. apply deriv_matches.
Qed.

(** Strings of [[cls]*] and [[cls]+]. *)
Lemma star_class (cls : N → bool) (s : jsstring) :
  Matches (Star (Class cls)) s ↔ Forall (λ c, cls c = true) s.
Proof.
  split.
  - intros H. remember (Star (Class cls)) as r eqn:Hr.
    induction H as [| | | | | |r0 s1 s2 H1 _ H2 IH2]; try done.
    injection Hr as ->. apply class_inv in H1 as (c & -> & Hc).
    constructor; [done | by apply IH2].
  - induction 1 as [|c s Hc _ IH]; [constructor |].
    apply (MStarApp _ [c] s); [by constructor | done].
Qed.

Lemma plus_class (cls : N → bool) (s : jsstring) :
  Matches (plus (Class cls)) s ↔ s ≠ [] ∧ Forall (λ c, cls c = true) s.
Proof.
  unfold plus. split.
  - intros (s1 & s2 & -> & (c & -> & Hc)%class_inv & H2%star_class)%seq_inv.
    split; [done | by constructor].
  - intros [Hne Hall]. destruct Hall as [|c s Hc Hs]; [done |].
    apply (MSeq _ _ [c] s); [by constructor | by apply star_class].
Qed.

(** The "simple [local@domain.tld] shape" of the specification. *)
Lemma emailRegex_shape (s : jsstring) :
  test emailRegex s = true ↔
  ∃ local domain tld,
    s = local ++ lit "@" ++ domain ++ lit "." ++ tld
    ∧ local ≠ [] ∧ domain ≠ [] ∧ tld ≠ []
    ∧ Forall (λ c, notSpaceNorAt c = true) (local ++ domain ++ tld).
Proof.
  rewrite test_matches. unfold emailRegex. split.
  - intros (local & s1 & -> & [Hl Hal]%plus_class & H1)%seq_inv.
    apply seq_inv in H1 as (at_ & s2 & -> & (c & -> & Hc)%class_inv & H2).
    apply seq_inv in H2 as (domain & s3 & -> & [Hd Had]%plus_class & H3).
    apply seq_inv in H3 as (dot & tld & -> & (d & -> & Hdot)%class_inv
                            & [Ht Hat]%plus_class).
    apply N.eqb_eq in Hc as ->. apply N.eqb_eq in Hdot as ->.
    exists local, domain, tld. split_and!; try done.
    by rewrite !Forall_app.
  - intros (local & domain & tld & -> & Hl & Hd & Ht & Hall).
    rewrite !Forall_app in Hall. destruct Hall as (Hal & Had & Hat).
    constructor; [by apply plus_class |].
    apply (MSeq _ _ (lit "@")); [by constructor |].
    constructor; [by apply plus_class |].
    apply (MSeq _ _ (lit ".")); [by constructor |].
    by apply plus_class.
Qed.

(** The examples of the specification. *)
Example email_accepted : test emailRegex (lit "a@b.c") = true.
Proof. vm_compute. reflexivity. Qed.

Example email_rejected : test emailRegex (lit "not-an-email") = false.
Proof. vm_compute. reflexivity. Qed.

Example phone_accepted : test phoneRegex (lit "+91 98765 43210") = true.
Proof. vm_compute. reflexivity. Qed.

Example phone_rejected : test phoneRegex (lit "abc") = false.
Proof. vm_compute. reflexivity. Qed.

End RegexFacts.

(* ================================================================== *)
(** * Facts about the JSON reader *)
(* ================================================================== *)

Module JsonFacts.

Import Json.

Lemma skip_ws_length (s : jsstring) : length (skip_ws s) ≤ length s.
Proof.
  induction s as [|c s IH]; simpl; [lia |].
  destruct (isJsonSpace c); simpl; lia.
Qed.

Lemma skip_ws_cons (s rest : jsstring) (c : N) :
  skip_ws s = c :: rest → length rest < length s.
Proof.
  intros H. pose proof (skip_ws_length s) as Hlen.
  rewrite H in Hlen. simpl in Hlen. lia.
Qed.

Lemma parse_string_body_shrinks (s str r : jsstring) :
  parse_string_body s = Some (str, r) → length r < length s.
Proof.
  remember (length s) as n eqn:Hn. revert s str r Hn.
  induction n as [n IH] using lt_wf_ind. intros s str r -> H.
  destruct s as [|c rest]; simpl in H; [done |].
  destruct (c =? 34)%N.
  { injection H as <- <-. simpl. lia. }
  destruct (c =? 92)%N.
  - destruct rest as [|e rest1]; [done |].
    destruct (e =? 117)%N.
    + destruct rest1 as [|a [|b [|c' [|d rest2]]]]; try done.
      destruct (hexval a), (hexval b), (hexval c'), (hexval d); try done.
      destruct (parse_string_body rest2) as [[str' r']|] eqn:Hrec; [| done].
      injection H as <- <-.
      pose proof (IH (length rest2) ltac:(simpl; lia) rest2 str' r' eq_refl Hrec).
      simpl. lia.
    + destruct (unescape e); [| done].
      destruct (parse_string_body rest1) as [[str' r']|] eqn:Hrec; [| done].
      injection H as <- <-.
      pose proof (IH (length rest1) ltac:(simpl; lia) rest1 str' r' eq_refl Hrec).
      simpl. lia.
  - destruct (c <? 32)%N; [done |].
    destruct (parse_string_body rest) as [[str' r']|] eqn:Hrec; [| done].
    injection H as <- <-.
    pose proof (IH (length rest) ltac:(simpl; lia) rest str' r' eq_refl Hrec).
    simpl. lia.
Qed.

Lemma take_digits_length (s : jsstring) :
  length (take_digits s).2 ≤ length s.
Proof.
  induction s as [|c s IH]; simpl; [lia |].
  destruct (Regex.isDigit c); simpl; [| lia].
  destruct (take_digits s) as [ds r]. simpl in *. lia.
Qed.

Lemma take_digits_consumes (s : jsstring) (c : N) :
  Regex.isDigit c = true → length (take_digits (c :: s)).2 < length (c :: s).
Proof.
  intros H. simpl. rewrite H.
  pose proof (take_digits_length s). destruct (take_digits s). simpl in *. lia.
Qed.

Lemma parse_int_shrinks (s r : jsstring) (ds : list N) :
  parse_int s = Some (ds, r) → length r < length s.
Proof.
  destruct s as [|c s]; [done |]. unfold parse_int.
  destruct (c =? 48)%N.
  - intros [= <- <-]. simpl. lia.
  - destruct (Regex.isDigit c) eqn:Hd; [| done].
    intros H. pose proof (take_digits_consumes s c Hd) as Hlen.
    injection H as H. change (take_digits (c :: s) = (ds, r)) in H.
    rewrite H in Hlen. done.
Qed.

Lemma parse_frac_length (s r : jsstring) (ds : list N) :
  parse_frac s = Some (ds, r) → length r ≤ length s.
Proof.
  destruct s as [|c s]; simpl; [by intros [= <- <-] |].
  destruct (c =? 46)%N.
  - pose proof (take_digits_length s) as Hlen.
    destruct (take_digits s) as [[|d ds'] r']; [done |].
    intros [= <- <-]. simpl in *. lia.
  - by intros [= <- <-].
Qed.

Lemma exponent_digits_length (negative : bool) (s r : jsstring) (e : Z) :
  exponent_digits negative s = Some (e, r) → length r ≤ length s.
Proof.
  unfold exponent_digits. pose proof (take_digits_length s) as Hlen.
  destruct (take_digits s) as [[|d ds] r0]; [done |].
  intros [= _ <-]. done.
Qed.

Lemma parse_exp_length (s r : jsstring) (e : Z) :
  parse_exp s = Some (e, r) → length r ≤ length s.
Proof.
  destruct s as [|c s]; unfold parse_exp; [by intros [= <- <-] |].
  destruct ((c =? 101)%N || (c =? 69)%N); [| by intros [= <- <-]].
  destruct s as [|sign s''].
  - intros H%exponent_digits_length. simpl in *. lia.
  - destruct (sign =? 45)%N; [| destruct (sign =? 43)%N];
      intros H%exponent_digits_length; simpl in *; lia.
Qed.

Lemma parse_number_shrinks (s r : jsstring) (v : value) :
  parse_number s = Parsed v r → length r < length s.
Proof.
  unfold parse_number.
  set (split := match s with
                | c :: s' => if (c =? 45)%N then (true, s') else (false, s)
                | [] => (false, s)
                end).
  assert (Hs1 : length split.2 ≤ length s).
  { subst split. destruct s as [|c s']; simpl; [lia |].
    destruct (c =? 45)%N; simpl; lia. }
  destruct split as [negative s1]. simpl in Hs1.
  destruct (parse_int s1) as [[ints s2]|] eqn:Hint; [| done].
  destruct (parse_frac s2) as [[fracs s3]|] eqn:Hfrac; [| done].
  destruct (parse_exp s3) as [[e s4]|] eqn:Hexp; [| done].
  intros [= _ <-].
  apply parse_int_shrinks in Hint. apply parse_frac_length in Hfrac.
  apply parse_exp_length in Hexp. lia.
Qed.

Lemma strip_prefix_length (prefix s r : jsstring) :
  strip_prefix prefix s = Some r → length r + length prefix = length s.
Proof.
  revert s. induction prefix as [|p prefix IH]; intros s; simpl.
  - intros [= <-]. lia.
  - destruct s as [|c s]; [done |].
    destruct (c =? p)%N; [| done].
    intros H. apply IH in H. simpl. lia.
Qed.

Lemma parse_keyword_shrinks (word : string) (v w : value) (s r : jsstring) :
  word ≠ EmptyString →
  parse_keyword word v s = Parsed w r → length r < length s.
Proof.
  intros Hword. unfold parse_keyword.
  destruct (strip_prefix (lit word) s) as [rest|] eqn:H; [| done].
  intros [= _ <-]. apply strip_prefix_length in H.
  destruct word; [done |]. simpl in H. lia.
Qed.

Lemma pmap_parsed {A B} (f : A → B) (x : presult A) (b : B) (r : jsstring) :
  pmap f x = Parsed b r → ∃ a, x = Parsed a r.
Proof. destruct x; simpl; intros [= _ <-] || done. by eexists. Qed.

Lemma pmap_fuel {A B} (f : A → B) (x : presult A) :
  x ≠ OutOfFuel → pmap f x ≠ OutOfFuel.
Proof. by destruct x. Qed.

(** Every successful reader consumes input. *)
Lemma parse_shrinks (fuel : nat) :
  (∀ s v r, parse_value fuel s = Parsed v r → length r < length s)
  ∧ (∀ s vs r, parse_elements fuel s = Parsed vs r → length r < length s)
  ∧ (∀ s ms r, parse_members fuel s = Parsed ms r → length r < length s).
Proof.
  induction fuel as [|fuel (IHv & IHe & IHm)]; [by split_and! |].
  split_and!.
  - intros s v r. simpl.
    destruct (skip_ws s) as [|c rest] eqn:Hws; [done |].
    apply skip_ws_cons in Hws.
    destruct (c =? 34)%N.
    { destruct (parse_string_body rest) as [[str r']|] eqn:Hstr; [| done].
      intros [= _ <-]. apply parse_string_body_shrinks in Hstr. lia. }
    destruct (c =? 91)%N.
    { destruct (skip_ws rest) as [|c2 rest2] eqn:Hws2; [done |].
      apply skip_ws_cons in Hws2.
      destruct (c2 =? 93)%N; [intros [= _ <-]; lia |].
      intros [vs H]%pmap_parsed. apply IHe in H. lia. }
    destruct (c =? 123)%N.
    { destruct (skip_ws rest) as [|c2 rest2] eqn:Hws2; [done |].
      apply skip_ws_cons in Hws2.
      destruct (c2 =? 125)%N; [intros [= _ <-]; lia |].
      intros [ms H]%pmap_parsed. apply IHm in H. lia. }
    destruct (c =? 110)%N;
      [intros H%parse_keyword_shrinks; [simpl in H; lia | done] |].
    destruct (c =? 116)%N;
      [intros H%parse_keyword_shrinks; [simpl in H; lia | done] |].
    destruct (c =? 102)%N;
      [intros H%parse_keyword_shrinks; [simpl in H; lia | done] |].
    intros H%parse_number_shrinks. simpl in H. lia.
  - intros s vs r. simpl.
    destruct (parse_value fuel s) as [v r0| |] eqn:Hv; [| done | done].
    apply IHv in Hv.
    destruct (skip_ws r0) as [|c r'] eqn:Hws; [done |].
    apply skip_ws_cons in Hws.
    destruct (c =? 44)%N.
    { intros [vs' H]%pmap_parsed. apply IHe in H. lia. }
    destruct (c =? 93)%N; [| done]. intros [= _ <-]. lia.
  - intros s ms r. simpl.
    destruct (skip_ws s) as [|c r0] eqn:Hws; [done |].
    apply skip_ws_cons in Hws.
    destruct (c =? 34)%N; [| done].
    destruct (parse_string_body r0) as [[key r1]|] eqn:Hkey; [| done].
    apply parse_string_body_shrinks in Hkey.
    destruct (skip_ws r1) as [|c1 r2] eqn:Hws1; [done |].
    apply skip_ws_cons in Hws1.
    destruct (c1 =? 58)%N; [| done].
    destruct (parse_value fuel r2) as [v r3| |] eqn:Hv; [| done | done].
    apply IHv in Hv.
    destruct (skip_ws r3) as [|c3 r4] eqn:Hws3; [done |].
    apply skip_ws_cons in Hws3.
    destruct (c3 =? 44)%N.
    { intros [ms' H]%pmap_parsed. apply IHm in H. lia. }
    destruct (c3 =? 125)%N; [| done]. intros [= _ <-]. lia.
Qed.

Lemma parse_number_fuel (s : jsstring) : parse_number s ≠ OutOfFuel.
Proof.
  unfold parse_number.
  destruct (match s with
            | c :: s' => if (c =? 45)%N then (true, s') else (false, s)
            | [] => (false, s)
            end) as [negative s1].
  destruct (parse_int s1) as [[ints s2]|]; [| done].
  destruct (parse_frac s2) as [[fracs s3]|]; [| done].
  destruct (parse_exp s3) as [[e s4]|]; done.
Qed.

Lemma parse_keyword_fuel (word : string) (v : value) (s : jsstring) :
  parse_keyword word v s ≠ OutOfFuel.
Proof. unfold parse_keyword. by destruct (strip_prefix (lit word) s). Qed.

(** The budget is never exhausted: a failure of the reader is a syntax
    error of the text. *)
Lemma parse_within_budget (fuel : nat) :
  (∀ s, 2 * length s + 1 ≤ fuel → parse_value fuel s ≠ OutOfFuel)
  ∧ (∀ s, 2 * length s + 2 ≤ fuel → parse_elements fuel s ≠ OutOfFuel)
  ∧ (∀ s, 2 * length s + 2 ≤ fuel → parse_members fuel s ≠ OutOfFuel).
Proof.
  induction fuel as [|fuel (IHv & IHe & IHm)];
    [split_and!; intros; lia |].
  split_and!.
  - intros s Hfuel. simpl.
    destruct (skip_ws s) as [|c rest] eqn:Hws; [done |].
    apply skip_ws_cons in Hws.
    destruct (c =? 34)%N.
    { by destruct (parse_string_body rest) as [[str r']|]. }
    destruct (c =? 91)%N.
    { destruct (skip_ws rest) as [|c2 rest2]; [done |].
      destruct (c2 =? 93)%N; [done |]. apply pmap_fuel, IHe. lia. }
    destruct (c =? 123)%N.
    { destruct (skip_ws rest) as [|c2 rest2]; [done |].
      destruct (c2 =? 125)%N; [done |]. apply pmap_fuel, IHm. lia. }
    destruct (c =? 110)%N; [apply parse_keyword_fuel |].
    destruct (c =? 116)%N; [apply parse_keyword_fuel |].
    destruct (c =? 102)%N; [apply parse_keyword_fuel |].
    apply parse_number_fuel.
  - intros s Hfuel. simpl.
    destruct (parse_value fuel s) as [v r0| |] eqn:Hv; [| done |].
    + apply (proj1 (parse_shrinks fuel)) in Hv.
      destruct (skip_ws r0) as [|c r'] eqn:Hws; [done |].
      apply skip_ws_cons in Hws.
      destruct (c =? 44)%N; [apply pmap_fuel, IHe; lia |].
      by destruct (c =? 93)%N.
    + exfalso. revert Hv. apply IHv. lia.
  - intros s Hfuel. simpl.
    destruct (skip_ws s) as [|c r0] eqn:Hws; [done |].
    apply skip_ws_cons in Hws.
    destruct (c =? 34)%N; [| done].
    destruct (parse_string_body r0) as [[key r1]|] eqn:Hkey; [| done].
    apply parse_string_body_shrinks in Hkey.
    destruct (skip_ws r1) as [|c1 r2] eqn:Hws1; [done |].
    apply skip_ws_cons in Hws1.
    destruct (c1 =? 58)%N; [| done].
    destruct (parse_value fuel r2) as [v r3| |] eqn:Hv; [| done |].
    + apply (proj1 (parse_shrinks fuel)) in Hv.
      destruct (skip_ws r3) as [|c3 r4] eqn:Hws3; [done |].
      apply skip_ws_cons in Hws3.
      destruct (c3 =? 44)%N; [apply pmap_fuel, IHm; lia |].
      by destruct (c3 =? 125)%N.
    + exfalso. revert Hv. apply IHv. lia.
Qed.

(** [JSON.parse] throws exactly on the texts that are not one JSON
    value: its reader never stops for lack of budget. *)
Lemma parse_budget_suffices (text : jsstring) :
  parse_value (budget text) text ≠ OutOfFuel.
Proof. apply parse_within_budget. unfold budget. lia. Qed.

(** ** Reading back what [JSON.stringify] wrote *)

Lemma hexval_hexdigit (n : N) : (n < 16)%N → hexval (hexdigit n) = Some n.
Proof.
  intros H. unfold hexdigit, hexval.
  destruct (n <? 10)%N eqn:Hn.
  - apply N.ltb_lt in Hn.
    rewrite (proj2 (N.leb_le 48 (48 + n)) ltac:(lia)).
    rewrite (proj2 (N.leb_le (48 + n) 57) ltac:(lia)). simpl.
    f_equal. lia.
  - apply N.ltb_ge in Hn.
    rewrite (proj2 (N.leb_gt (87 + n) 57) ltac:(lia)).
    rewrite andb_false_r.
    rewrite (proj2 (N.leb_le 97 (87 + n)) ltac:(lia)).
    rewrite (proj2 (N.leb_le (87 + n) 102) ltac:(lia)). simpl.
    f_equal. lia.
Qed.

Lemma hex_digits_value (c : N) :
  (c < 65536)%N →
  (c / 4096 * 4096 + (c / 256) mod 16 * 256 + (c / 16) mod 16 * 16 + c mod 16
   = c)%N.
Proof.
  intros H.
  pose proof (N.Div0.div_mod c 16) as H1.
  pose proof (N.Div0.div_mod (c / 16) 16) as H2.
  pose proof (N.Div0.div_mod (c / 16 / 16) 16) as H3.
  rewrite !N.Div0.div_div in H2, H3.
  change (16 * 16)%N with 256%N in *.
  rewrite N.Div0.div_div in H3. change (256 * 16)%N with 4096%N in *.
  lia.
Qed.

Lemma read_unicode_escape (c : N) (tail : jsstring) :
  (c < 65536)%N →
  parse_string_body (unicode_escape c ++ tail) = read_after c tail.
Proof.
  intros Hc. unfold unicode_escape, read_after.
  cbn [app parse_string_body].
  change (92 =? 34)%N with false. change (92 =? 92)%N with true.
  change (117 =? 117)%N with true. cbv iota.
  assert (H1 : (c / 4096 < 16)%N) by (apply N.Div0.div_lt_upper_bound; lia).
  assert (H2 : ((c / 256) mod 16 < 16)%N) by (apply N.mod_lt; lia).
  assert (H3 : ((c / 16) mod 16 < 16)%N) by (apply N.mod_lt; lia).
  assert (H4 : (c mod 16 < 16)%N) by (apply N.mod_lt; lia).
  rewrite !hexval_hexdigit by done.
  rewrite (hex_digits_value c Hc). done.
Qed.

Lemma read_plain (c : N) (tail : jsstring) :
  (c =? 34)%N = false → (c =? 92)%N = false → (c <? 32)%N = false →
  parse_string_body (c :: tail) = read_after c tail.
Proof.
  intros H1 H2 H3. unfold read_after. cbn [parse_string_body].
  rewrite H1, H2, H3. done.
Qed.

Lemma read_escape_unit (c : N) (tail : jsstring) :
  parse_string_body (escape_unit c ++ tail) = read_after c tail.
Proof.
  unfold escape_unit.
  destruct (c =? 8)%N eqn:E8; [apply N.eqb_eq in E8 as ->; done |].
  destruct (c =? 9)%N eqn:E9; [apply N.eqb_eq in E9 as ->; done |].
  destruct (c =? 10)%N eqn:E10; [apply N.eqb_eq in E10 as ->; done |].
  destruct (c =? 12)%N eqn:E12; [apply N.eqb_eq in E12 as ->; done |].
  destruct (c =? 13)%N eqn:E13; [apply N.eqb_eq in E13 as ->; done |].
  destruct (c =? 34)%N eqn:E34; [apply N.eqb_eq in E34 as ->; done |].
  destruct (c =? 92)%N eqn:E92; [apply N.eqb_eq in E92 as ->; done |].
  destruct ((c <? 32)%N || isLeadSurrogate c || isTrailSurrogate c) eqn:Hesc.
  - apply read_unicode_escape.
    unfold isLeadSurrogate, isTrailSurrogate in Hesc.
    rewrite !orb_true_iff, !andb_true_iff, N.ltb_lt, !N.leb_le in Hesc. lia.
  - rewrite !orb_false_iff in Hesc. destruct Hesc as [[H32 _] _].
    by apply read_plain.
Qed.

Lemma read_surrogate (c : N) (tail : jsstring) :
  isLeadSurrogate c = true ∨ isTrailSurrogate c = true →
  parse_string_body (c :: tail) = read_after c tail.
Proof.
  unfold isLeadSurrogate, isTrailSurrogate.
  rewrite !andb_true_iff, !N.leb_le. intros H.
  apply read_plain; [apply N.eqb_neq | apply N.eqb_neq | apply N.ltb_ge]; lia.
Qed.

Lemma quote_body_pair (c d : N) (s : jsstring) :
  quote_body (c :: d :: s)
  = if isLeadSurrogate c && isTrailSurrogate d
    then c :: d :: quote_body s
    else escape_unit c ++ quote_body (d :: s).
Proof. reflexivity. Qed.

(** The reader undoes [QuoteJSONString]. *)
Lemma read_quote_body (s rest : jsstring) :
  parse_string_body (quote_body s ++ 34%N :: rest) = Some (s, rest).
Proof.
  remember (length s) as n eqn:Hn. revert s Hn.
  induction n as [n IH] using lt_wf_ind. intros s ->.
  destruct s as [|c [|d s'']].
  - done.
  - cbn [quote_body]. rewrite read_escape_unit. done.
  - rewrite quote_body_pair.
    destruct (isLeadSurrogate c && isTrailSurrogate d) eqn:Hpair.
    + apply andb_true_iff in Hpair as [Hc Hd].
      cbn [app]. rewrite read_surrogate by tauto. unfold read_after.
      rewrite read_surrogate by tauto. unfold read_after.
      rewrite (IH (length s'')) by (simpl; lia || done). done.
    + rewrite <- app_assoc, read_escape_unit. unfold read_after.
      rewrite (IH (length (d :: s''))) by (simpl; lia || done). done.
Qed.

Lemma read_quote (s rest : jsstring) :
  ∃ body, quote s ++ rest = 34%N :: body
          ∧ parse_string_body body = Some (s, rest).
Proof.
  exists (quote_body s ++ 34%N :: rest). split.
  - unfold quote. cbn [app]. by rewrite <- app_assoc.
  - apply read_quote_body.
Qed.

Lemma parse_value_string (fuel : nat) (body str r : jsstring) :
  parse_string_body body = Some (str, r) →
  parse_value (S fuel) (34%N :: body) = Parsed (VString str) r.
Proof. intros H. simpl. by rewrite H. Qed.

Lemma parse_members_member
    (fuel : nat) (key body r2 r3 : jsstring) (v : value) :
  parse_string_body body = Some (key, 58%N :: r2) →
  parse_value fuel r2 = Parsed v r3 →
  parse_members (S fuel) (34%N :: body)
  = match skip_ws r3 with
    | [] => Malformed
    | c3 :: r4 =>
        if (c3 =? 44)%N then pmap (cons (key, v)) (parse_members fuel r4)
        else if (c3 =? 125)%N then Parsed [(key, v)] r4
        else Malformed
    end.
Proof. intros H1 H2. simpl. rewrite H1. simpl. by rewrite H2. Qed.

Lemma stringify_members_cons (k : string) (v : jsstring)
    (members : list (string * jsstring)) (rest : jsstring) :
  stringify_members ((k, v) :: members) ++ rest
  = quote (lit k) ++ 58%N :: quote v ++
    match members with
    | [] => rest
    | _ => 44%N :: stringify_members members ++ rest
    end.
Proof.
  cbn [stringify_members]. rewrite <- !app_assoc. cbn [app].
  by destruct members.
Qed.

Lemma parse_members_stringify (members : list (string * jsstring)) :
  ∀ (fuel : nat) (rest : jsstring),
    members ≠ [] → length members < fuel →
    parse_members fuel (stringify_members members ++ 125%N :: rest)
    = Parsed (record_members members) rest.
Proof.
  induction members as [|[k v] members IH]; intros fuel rest Hne Hfuel;
    [done |].
  destruct fuel as [|[|fuel]]; [simpl in Hfuel; lia | simpl in Hfuel; lia |].
  rewrite stringify_members_cons.
  destruct (read_quote (lit k)
              (58%N :: quote v ++
               match members with
               | [] => 125%N :: rest
               | _ => 44%N :: stringify_members members ++ 125%N :: rest
               end)) as (body1 & -> & Hkey).
  destruct (read_quote v
              match members with
              | [] => 125%N :: rest
              | _ => 44%N :: stringify_members members ++ 125%N :: rest
              end) as (body2 & Hq & Hval).
  rewrite Hq in Hkey.
  rewrite (parse_members_member _ _ _ _ _ _ Hkey
             (parse_value_string fuel _ _ _ Hval)).
  destruct members as [|member members].
  - reflexivity.
  - cbn [skip_ws isJsonSpace]. change (44 =? 44)%N with true. cbv iota.
    change (isJsonSpace 44) with false. cbv iota.
    change (44 =? 44)%N with true. cbv iota.
    rewrite IH by (done || simpl in *; lia). reflexivity.
Qed.

Lemma stringify_members_length (members : list (string * jsstring)) :
  length members ≤ length (stringify_members members).
Proof.
  induction members as [|[k v] members IH]; [done |].
  cbn [stringify_members]. unfold quote. rewrite !length_app.
  destruct members; simpl in *; lia.
Qed.

(** [JSON.parse] gives back the object that [JSON.stringify] wrote. *)
Lemma parse_stringify_record (members : list (string * jsstring)) :
  parse (stringify_record members) = Normal (record_value members).
Proof.
  unfold parse.
  assert (Hrun : ∀ fuel, length members + 1 < fuel →
            parse_value fuel (stringify_record members)
            = Parsed (record_value members) []).
  { intros [|fuel] Hfuel; [lia |]. unfold stringify_record.
    destruct members as [|[k v] members]; [reflexivity |].
    cbn [app]. rewrite stringify_members_cons.
    destruct (read_quote (lit k)
                (58%N :: quote v ++
                 match members with
                 | [] => [125%N]
                 | _ => 44%N :: stringify_members members ++ [125%N]
                 end)) as (body1 & Hq & Hkey).
    pose proof (parse_members_stringify ((k, v) :: members) fuel []
                  ltac:(done) ltac:(simpl in *; lia)) as Hmembers.
    rewrite stringify_members_cons, Hq in Hmembers.
    rewrite Hq. simpl. simpl in Hmembers. rewrite Hmembers. reflexivity. }
  rewrite Hrun; [reflexivity |].
  unfold budget, stringify_record. rewrite !length_app.
  pose proof (stringify_members_length members). simpl. lia.
Qed.

End JsonFacts.

(* ================================================================== *)
(** * Sanitisation and the mail template *)
(* ================================================================== *)

Module SanitizeFacts.

Import Endpoint.

Lemma isTagChar_false (c : N) : isTagChar c = false ↔ c ≠ 60%N ∧ c ≠ 62%N.
Proof.
  unfold isTagChar, Regex.isChar. simpl.
  rewrite orb_false_iff, !N.eqb_neq. done.
Qed.

Lemma isTagChar_true (c : N) : isTagChar c = true ↔ c = 60%N ∨ c = 62%N.
Proof.
  unfold isTagChar, Regex.isChar. simpl.
  rewrite orb_true_iff, !N.eqb_eq. done.
Qed.

Lemma sanitizeInput_unfold (input : jsstring) :
  sanitizeInput input = take 500 (Spec.stripTagChars (trim input)).
Proof.
  unfold sanitizeInput, Spec.stripTagChars.
  change 500%Z with (Z.of_nat 500).
  rewrite JSFacts.substring_from_zero, JSFacts.replace_class_global_delete.
  f_equal. apply list_filter_iff. intros c. apply isTagChar_false.
Qed.

Lemma tagChars_app (a b : jsstring) :
  Spec.tagChars (a ++ b) = Spec.tagChars a + Spec.tagChars b.
Proof. unfold Spec.tagChars. by rewrite filter_app, length_app. Qed.

Lemma tagChars_none (s : jsstring) :
  Forall (λ c, c ≠ 60%N ∧ c ≠ 62%N) s → Spec.tagChars s = 0.
Proof.
  unfold Spec.tagChars.
  induction 1 as [|c s [H1 H2] _ IH]; [done |].
  rewrite filter_cons_False by (intros [?|?]; congruence). done.
Qed.

Lemma space_is_no_tag (s : jsstring) :
  Forall (λ c, isWhiteSpace c = true) s → Forall (λ c, c ≠ 60%N ∧ c ≠ 62%N) s.
Proof.
  intros H. eapply Forall_impl; [exact H |].
  intros c Hc. split; intros ->; discriminate Hc.
Qed.

(** Trimming removes white space only, so it keeps every tag character. *)
Lemma tagChars_trim (s : jsstring) : Spec.tagChars (trim s) = Spec.tagChars s.
Proof.
  destruct (JSFacts.trim_is_trim s) as (l & r & Hs & Hl & Hr & _ & _).
  rewrite Hs at 2. rewrite !tagChars_app.
  rewrite (tagChars_none l), (tagChars_none r) by (by apply space_is_no_tag).
  lia.
Qed.

Lemma sanitizeInput_clean (input : jsstring) :
  Forall (λ c, c ≠ 60%N ∧ c ≠ 62%N) (sanitizeInput input).
Proof.
  rewrite sanitizeInput_unfold. apply Forall_take.
  unfold Spec.stripTagChars. apply Forall_forall. intros c Hc.
  by apply list_elem_of_filter in Hc as [Hc _].
Qed.

Lemma firstName_clean (name : jsstring) :
  Forall (λ c, c ≠ 60%N ∧ c ≠ 62%N) name →
  Forall (λ c, c ≠ 60%N ∧ c ≠ 62%N) (firstName name).
Proof.
  intros H. unfold firstName.
  destruct (JSFacts.split_first 32 name) as [piece Hpiece].
  rewrite Hpiece. simpl.
  pose proof (JSFacts.split_pieces _ 32 name H) as Hall.
  rewrite Forall_lookup in Hall. by eapply Hall.
Qed.

Lemma roleText_clean (role : jsstring) :
  Forall (λ c, c ≠ 60%N ∧ c ≠ 62%N) (roleText role).
Proof.
  unfold roleText. destruct (decide _); apply Forall_forall;
    intros c Hc; apply isTagChar_false;
    revert c Hc; apply Forall_forall; vm_compute; repeat constructor.
Qed.

(** C6. For every input string, [sanitizeInput] returns the trimmed
    input with all [<] and [>] characters removed and the result cut to
    its first 500 code units, the three steps taken in that order. *)
Theorem sanitizeInput_trim_strip_truncate (input trimmed : jsstring) :
  Spec.IsTrimOf input trimmed →
  sanitizeInput input = Spec.truncate 500 (Spec.stripTagChars trimmed).
Proof.
  intros H. apply JSFacts.trim_unique in H as <-.
  apply sanitizeInput_unfold.
Qed.

Lemma sanitizeInput_trim_strip_truncate_witness :
  Spec.IsTrimOf (lit " <b>Jo</b> ") (lit "<b>Jo</b>")
  ∧ sanitizeInput (lit " <b>Jo</b> ")
    = Spec.truncate 500 (Spec.stripTagChars (lit "<b>Jo</b>")).
Proof.
  assert (H : Spec.IsTrimOf (lit " <b>Jo</b> ") (lit "<b>Jo</b>")).
  { exists (lit " "), (lit " ").
    split_and!; [reflexivity | repeat constructor | repeat constructor | |].
    - intros c [= <-]. reflexivity.
    - intros c [= <-]. reflexivity. }
  split; [exact H | exact (sanitizeInput_trim_strip_truncate _ _ H)].
Defined.

(** The order of the steps shows: white space uncovered by the removal
    of a tag character stays, since trimming came first. *)
Example sanitizeInput_trims_first :
  sanitizeInput (lit "< Jo") = lit " Jo".
Proof. vm_compute. reflexivity. Qed.

(** C9. The output of [sanitizeInput] holds no [<] and no [>] and at
    most 500 code units; hence the first name and the role label put
    into the mail template hold no tag character, and the rendered
    template has exactly the tag characters of its static text. *)
Theorem sanitizeInput_output_has_no_tags :
  (∀ input : jsstring,
     Forall (λ c, c ≠ 60%N ∧ c ≠ 62%N) (sanitizeInput input)
     ∧ length (sanitizeInput input) ≤ 500)
  ∧ (∀ (tpl : TemplateText) (name role : jsstring),
       Forall (λ c, c ≠ 60%N ∧ c ≠ 62%N) (firstName (sanitizeInput name))
       ∧ Forall (λ c, c ≠ 60%N ∧ c ≠ 62%N) (roleText (sanitizeInput role))
       ∧ Spec.tagChars
           (getEmailTemplate tpl (sanitizeInput name) (sanitizeInput role))
         = Spec.tagChars (beforeName tpl)
           + Spec.tagChars (betweenNameAndRole tpl)
           + Spec.tagChars (afterRole tpl)).
Proof.
  split.
  - intros input. split; [apply sanitizeInput_clean |].
    rewrite sanitizeInput_unfold, length_take. lia.
  - intros tpl name role.
    pose proof (firstName_clean _ (sanitizeInput_clean name)) as Hname.
    pose proof (roleText_clean (sanitizeInput role)) as Hrole.
    split_and!; [done | done |].
    unfold getEmailTemplate. rewrite tagChars_trim, !tagChars_app.
    rewrite (tagChars_none _ Hname), (tagChars_none _ Hrole). lia.
Qed.

End SanitizeFacts.

(* ================================================================== *)
(** * The rate limiter *)
(* ================================================================== *)

Module RateLimiterFacts.

Import RateLimiter.
Local Open Scope Z_scope.

Lemma recent_keeps_all (now : Z) (attempts : list Z) :
  Forall (λ time, Spec.age now time < 3600000) attempts →
  recent now attempts = attempts.
Proof.
  unfold recent, Spec.age.
  induction 1 as [|time l H _ IH]; [done |].
  rewrite filter_cons_True by done. by rewrite IH.
Qed.

Lemma recent_drops_all (now : Z) (attempts : list Z) :
  Forall (λ time, 3600000 ≤ Spec.age now time) attempts →
  recent now attempts = [].
Proof.
  unfold recent, Spec.age.
  induction 1 as [|time l H _ IH]; [done |].
  rewrite filter_cons_False by lia. done.
Qed.

Lemma recent_fresh (now : Z) (attempts : list Z) :
  Forall (λ time, Spec.age now time < 3600000) (recent now attempts).
Proof.
  unfold recent, Spec.age. apply Forall_forall. intros time Htime.
  by apply list_elem_of_filter in Htime as [Htime _].
Qed.

(** A filter that keeps as many entries as there are keeps them all. *)
Lemma recent_full (now : Z) (attempts : list Z) :
  (length attempts ≤ length (recent now attempts))%nat →
  recent now attempts = attempts.
Proof.
  unfold recent. induction attempts as [|time l IH]; [done |].
  destruct (decide (now - time < 3600000)) as [Hin|Hout].
  - rewrite filter_cons_True by done. simpl. intros H. f_equal. apply IH. lia.
  - rewrite filter_cons_False by done. simpl. intros H.
    pose proof (length_filter (λ time, now - time < 3600000) l). lia.
Qed.

Lemma attemptsOf_insert (email : jsstring) (l : list Z) (m : ledger) :
  attemptsOf (<[email := l]> m) email = l.
Proof. unfold attemptsOf. by rewrite lookup_insert_eq. Qed.

Lemma isRateLimited_allows (now : Z) (email : jsstring) (m : ledger) :
  (length (recent now (attemptsOf m email)) < 3)%nat →
  isRateLimited now email m
  = (false, <[email := recent now (attemptsOf m email) ++ [now]]> m).
Proof.
  intros H. unfold isRateLimited. destruct (decide _); [lia | done].
Qed.


Lemma isRateLimited_rejects (now : Z) (email : jsstring) (m : ledger) :
  (3 ≤ length (recent now (attemptsOf m email)))%nat →
  isRateLimited now email m = (true, m).
Proof.
  intros H. unfold isRateLimited. destruct (decide _); [done | lia].
Qed.

(** No reachable ledger holds more than three timestamps for an
    address. *)
Lemma reachable_at_most_three (m : ledger) :
  reachable m →
  ∀ (email : jsstring) (l : list Z), m !! email = Some l → (length l ≤ 3)%nat.
Proof.
  induction 1 as [|now email m Hm IH]; intros email' l Hl.
  - by rewrite lookup_empty in Hl.
  - unfold isRateLimited in Hl. destruct (decide _) as [Hfull|Hroom]; simpl in Hl.
    + by eapply IH.
    + destruct (decide (email = email')) as [->|Hne].
      * rewrite lookup_insert_eq in Hl. injection Hl as <-.
        rewrite length_app. simpl. lia.
      * rewrite lookup_insert_ne in Hl by done. by eapply IH.
Qed.

Lemma reachable_calls (email : jsstring) (times : list Z) (m : ledger) :
  reachable m → reachable (calls email times m).2.
Proof.
  revert m. induction times as [|now times IH]; intros m Hm; simpl; [done |].
  pose proof (reachable_call now email m Hm) as Hstep.
  destruct (isRateLimited now email m) as [r m1]. simpl in Hstep.
  specialize (IH m1 Hstep).
  destruct (calls email times m1) as [rs m2]. done.
Qed.

(** C4. After every call of [isRateLimited] for an address the list
    stored for that address is the pruned list (followed by the current
    time when the call was allowed) and holds no entry older than
    3,600,000 ms, whether the call was allowed or rejected. *)
Theorem isRateLimited_leaves_pruned_list
    (m : ledger) (now : Z) (email : jsstring) :
  reachable m →
  ∃ stored : list Z,
    (isRateLimited now email m).2 !! email = Some stored
    ∧ stored = recent now (attemptsOf m email)
               ++ (if (isRateLimited now email m).1 then [] else [now])
    ∧ Forall (λ time, Spec.age now time < 3600000) stored.
Proof.
  intros Hm.
  destruct (decide (3 ≤ length (recent now (attemptsOf m email)))%nat)
    as [Hfull|Hroom].
  - rewrite isRateLimited_rejects by done. simpl.
    unfold attemptsOf in *. destruct (m !! email) as [l|] eqn:Hl; simpl in *.
    + pose proof (reachable_at_most_three m Hm email l Hl) as Hlen.
      assert (Heq : recent now l = l) by (apply recent_full; lia).
      exists l. split_and!; [done | by rewrite app_nil_r, Heq |].
      rewrite <- Heq. apply recent_fresh.
    + simpl in Hfull. lia.
  - rewrite isRateLimited_allows by lia. simpl.
    eexists. split_and!; [apply lookup_insert_eq | done |].
    apply Forall_app. split; [apply recent_fresh |].
    constructor; [unfold Spec.age; lia | constructor].
Qed.

Lemma isRateLimited_leaves_pruned_list_witness :
  reachable (calls (lit "jo@x.com") [0; 1000; 2000] ∅).2
  ∧ ∃ stored : list Z,
      (isRateLimited 3601500 (lit "jo@x.com")
         (calls (lit "jo@x.com") [0; 1000; 2000] ∅).2).2 !! lit "jo@x.com"
      = Some stored
      ∧ stored = recent 3601500
                   (attemptsOf (calls (lit "jo@x.com") [0; 1000; 2000] ∅).2
                      (lit "jo@x.com"))
                 ++ (if (isRateLimited 3601500 (lit "jo@x.com")
                           (calls (lit "jo@x.com") [0; 1000; 2000] ∅).2).1
                     then [] else [3601500])
      ∧ Forall (λ time, Spec.age 3601500 time < 3600000) stored.
Proof.
  assert (H : reachable (calls (lit "jo@x.com") [0; 1000; 2000] ∅).2).
  { apply reachable_calls, reachable_init. }
  split; [exact H | exact (isRateLimited_leaves_pruned_list _ _ _ H)].
Defined.

(** C1. For an address without a recorded attempt inside the window,
    the first three calls within 3,600,000 ms are allowed and the fourth
    is rejected; a call made 3,700,000 ms after the recorded attempts is
    allowed again. *)
Theorem isRateLimited_three_per_window
    (email : jsstring) (m : ledger) (t1 t2 t3 t4 : Z) :
  Forall (λ time, 3600000 ≤ Spec.age t1 time) (attemptsOf m email) →
  t1 ≤ t2 → t2 ≤ t3 → t3 ≤ t4 → t4 - t1 < 3600000 →
  (calls email [t1; t2; t3; t4] m).1 = [false; false; false; true]
  ∧ (calls email [t1; t2; t3; t4; t3 + 3700000] m).1
    = [false; false; false; true; false]
  ∧ (∀ (m' : ledger) (T : Z),
       Forall (λ time, time ≤ T) (attemptsOf m' email) →
       (isRateLimited (T + 3700000) email m').1 = false).
Proof.
  intros Hold H12 H23 H34 Hwin.
  assert (Hgeneral : ∀ (m' : ledger) (T : Z),
             Forall (λ time, time ≤ T) (attemptsOf m' email) →
             (isRateLimited (T + 3700000) email m').1 = false).
  { intros m' T HT. rewrite isRateLimited_allows; [done |].
    rewrite recent_drops_all; [simpl; lia |].
    eapply Forall_impl; [exact HT |]. unfold Spec.age. intros; simpl in *; lia. }
  assert (H1 : isRateLimited t1 email m = (false, <[email := [t1]]> m)).
  { rewrite isRateLimited_allows; rewrite recent_drops_all by done;
      [done | simpl; lia]. }
  assert (H2 : isRateLimited t2 email (<[email := [t1]]> m)
               = (false, <[email := [t1; t2]]> (<[email := [t1]]> m))).
  { rewrite isRateLimited_allows; rewrite attemptsOf_insert, recent_keeps_all;
      try done; try (simpl; lia).
    all: repeat constructor; unfold Spec.age; lia. }
  assert (H3 : isRateLimited t3 email (<[email := [t1; t2]]> (<[email := [t1]]> m))
               = (false, <[email := [t1; t2; t3]]>
                           (<[email := [t1; t2]]> (<[email := [t1]]> m)))).
  { rewrite isRateLimited_allows; rewrite attemptsOf_insert, recent_keeps_all;
      try done; try (simpl; lia).
    all: repeat constructor; unfold Spec.age; lia. }
  assert (H4 : isRateLimited t4 email
                 (<[email := [t1; t2; t3]]>
                    (<[email := [t1; t2]]> (<[email := [t1]]> m)))
               = (true, <[email := [t1; t2; t3]]>
                          (<[email := [t1; t2]]> (<[email := [t1]]> m)))).
  { rewrite isRateLimited_rejects; [done |].
    rewrite attemptsOf_insert, recent_keeps_all; [simpl; lia |].
    repeat constructor; unfold Spec.age; lia. }
  split_and!; [| | exact Hgeneral].
  - simpl. rewrite H1, H2, H3, H4. done.
  - simpl. rewrite H1, H2, H3, H4.
    specialize (Hgeneral (<[email := [t1; t2; t3]]>
                            (<[email := [t1; t2]]> (<[email := [t1]]> m))) t3).
    destruct (isRateLimited (t3 + 3700000) email _) as [r m5].
    simpl in *. rewrite Hgeneral; [done |].
    rewrite attemptsOf_insert. repeat constructor; lia.
Qed.

Lemma isRateLimited_three_per_window_witness :
  Forall (λ time, 3600000 ≤ Spec.age 5000000 time)
    (attemptsOf (<[lit "jo@x.com" := [100; 200; 300]]> ∅) (lit "jo@x.com"))
  ∧ (calls (lit "jo@x.com") [5000000; 5000001; 6000000; 8599999]
       (<[lit "jo@x.com" := [100; 200; 300]]> ∅)).1
    = [false; false; false; true].
Proof.
  assert (H : Forall (λ time, 3600000 ≤ Spec.age 5000000 time)
                (attemptsOf (<[lit "jo@x.com" := [100; 200; 300]]> ∅)
                   (lit "jo@x.com"))).
  { rewrite attemptsOf_insert. repeat constructor; unfold Spec.age; lia. }
  split; [exact H |].
  refine (proj1 (isRateLimited_three_per_window (lit "jo@x.com") _
                   5000000 5000001 6000000 8599999 H _ _ _ _)); lia.
Defined.

End RateLimiterFacts.

(* ================================================================== *)
(** * The waitlist slider: validator, submitter, cache, submit handler *)
(* ================================================================== *)

Module WaitlistFacts.

Import Net Waitlist.

(** ** Validator *)

Lemma truthy_string_length (s : jsstring) :
  truthy_string s = false ↔ length s = 0.
Proof. destruct s; simpl; split; intros; congruence || lia. Qed.

Lemma validate_name_unfold (data : FormData.t) :
  FormErrors.name (validate data)
  = if bool_decide (length (trim (FormData.name data)) = 0)
    then Some (lit "Name is required")
    else if bool_decide (length (trim (FormData.name data)) < 2)
    then Some (lit "Name must be at least 2 characters")
    else None.
Proof.
  unfold validate. simpl.
  destruct (trim (FormData.name data)) as [|c [|d t]]; done.
Qed.

(** C5. A form whose trimmed name is shorter than 2 gets a name error, a
    form whose trimmed name has length 2 or more gets none, and the name
    error depends on no other field. *)
Theorem validate_name_rule (data : FormData.t) :
  (length (trim (FormData.name data)) < 2
   → is_Some (FormErrors.name (validate data)))
  ∧ (2 ≤ length (trim (FormData.name data))
     → FormErrors.name (validate data) = None)
  ∧ (∀ data' : FormData.t,
       FormData.name data' = FormData.name data →
       FormErrors.name (validate data') = FormErrors.name (validate data)).
Proof.
  split_and!.
  - intros H. rewrite validate_name_unfold.
    repeat case_bool_decide; first [lia | by eexists].
  - intros H. rewrite validate_name_unfold.
    repeat case_bool_decide; first [lia | done].
  - intros data' H. rewrite !validate_name_unfold, H. done.
Qed.

Lemma validate_name_rule_witness :
  FormErrors.name (validate Spec.exampleForm) = None
  ∧ is_Some (FormErrors.name (validate Spec.emptyForm)).
Proof.
  split.
  - apply (proj1 (proj2 (validate_name_rule _))). vm_compute. lia.
  - apply (proj1 (validate_name_rule _)). vm_compute. lia.
Defined.

(** ** CRM submitter *)

Lemma submitToHubSpot_total
    (network : Network) (pageUri : jsstring) (data : FormData.t) :
  ∃ b : bool, submitToHubSpot network pageUri data = Normal b.
Proof.
  unfold submitToHubSpot.
  destruct (network (hubspotRequest pageUri data)); simpl; by eexists.
Qed.

(** C7. [submitToHubSpot] always resolves; it resolves to [true] exactly
    when the provider answered with a status from 200 to 299, and to
    [false] on any rejection of [fetch] and on any other status. *)
Theorem submitToHubSpot_true_iff_2xx
    (network : Network) (pageUri : jsstring) (data : FormData.t) :
  ∃ b : bool,
    submitToHubSpot network pageUri data = Normal b
    ∧ (b = true ↔
       ∃ res, network (hubspotRequest pageUri data) = Normal res
              ∧ (200 ≤ responseStatus res ≤ 299)%Z)
    ∧ (∀ e, network (hubspotRequest pageUri data) = Throw e → b = false)
    ∧ (∀ res, network (hubspotRequest pageUri data) = Normal res →
              ¬ (200 ≤ responseStatus res ≤ 299)%Z → b = false).
Proof.
  unfold submitToHubSpot.
  destruct (network (hubspotRequest pageUri data)) as [res|e] eqn:Hnet; simpl.
  - exists (ok res). split_and!; [done | | done |].
    + unfold ok. rewrite bool_decide_eq_true. split.
      * intros H. by exists res.
      * intros (res' & [= <-] & H). done.
    + intros res' [= <-] H. unfold ok. by apply bool_decide_eq_false.
  - exists false. split_and!; [done | | done | done].
    split; [done |]. intros (res & Hres & _). done.
Qed.

Lemma submitToHubSpot_true_iff_2xx_witness :
  submitToHubSpot (Spec.answering 204 (Throw NotAnError))
    (lit "https://mimora.co.in/") Spec.exampleForm = Normal true
  ∧ submitToHubSpot (Spec.answering 404 (Normal VNull))
      (lit "https://mimora.co.in/") Spec.exampleForm = Normal false
  ∧ submitToHubSpot Spec.unreachable
      (lit "https://mimora.co.in/") Spec.exampleForm = Normal false.
Proof.
  split_and!.
  - destruct (submitToHubSpot_true_iff_2xx (Spec.answering 204 (Throw NotAnError))
                (lit "https://mimora.co.in/") Spec.exampleForm)
      as (b & Hb & Hiff & _).
    rewrite Hb. f_equal. apply Hiff. eexists. split; [reflexivity | simpl; lia].
  - destruct (submitToHubSpot_true_iff_2xx (Spec.answering 404 (Normal VNull))
                (lit "https://mimora.co.in/") Spec.exampleForm)
      as (b & Hb & _ & _ & Hother).
    rewrite Hb. f_equal. eapply Hother; [reflexivity | simpl; lia].
  - destruct (submitToHubSpot_true_iff_2xx Spec.unreachable
                (lit "https://mimora.co.in/") Spec.exampleForm)
      as (b & Hb & _ & Hfail & _).
    rewrite Hb. f_equal. eapply Hfail. reflexivity.
Defined.

(** ** Local submission cache *)

Lemma getStoredSubmission_total (store : Storage) :
  ∃ v, getStoredSubmission store = Normal v.
Proof.
  unfold getStoredSubmission.
  destruct store as [e|items refusal]; simpl; [by eexists |].
  destruct (items !! WAITLIST_STORAGE_KEY) as [text|]; [| by eexists].
  destruct (truthy_string text); simpl; [| by eexists].
  destruct (Json.parse text); simpl; by eexists.
Qed.

Lemma getStoredSubmission_open
    (items : gmap (list N) (list N)) (refusal : option thrown) (text : jsstring) :
  items !! WAITLIST_STORAGE_KEY = Some text → text ≠ [] →
  getStoredSubmission (Open items refusal)
  = try_catch (Json.parse text) (λ _, Normal VNull).
Proof.
  intros Htext Hne. unfold getStoredSubmission. simpl. rewrite Htext.
  destruct text; done.
Qed.

(** C8, as the code has it. [getStoredSubmission] never throws. It
    returns [null] when storage is unavailable, when nothing or the
    empty text is stored, and when the stored text is not parseable as
    JSON; a stored text that parses is returned as parsed, whatever its
    shape. *)
Theorem getStoredSubmission_swallows_read_failures (store : Storage) :
  ∃ v : value,
    getStoredSubmission store = Normal v
    ∧ (Spec.StorageUnavailable store → v = VNull)
    ∧ (Spec.StoredValueUnparseable store → v = VNull)
    ∧ (∀ items refusal,
         store = Open items refusal →
         items !! WAITLIST_STORAGE_KEY = None → v = VNull)
    ∧ (∀ items refusal text parsed,
         store = Open items refusal →
         items !! WAITLIST_STORAGE_KEY = Some text →
         Json.parse text = Normal parsed → v = parsed).
Proof.
  destruct (getStoredSubmission_total store) as [v Hv].
  exists v. split; [done |]. revert Hv. unfold getStoredSubmission.
  destruct store as [e|items refusal]; simpl.
  - intros [= <-].
    split_and!; first [done | by intros (? & ? & ? & ? & ? & _)].
  - intros Hv. split_and!.
    + intros [e He]. done.
    + intros (items' & refusal' & text & e & [= <- <-] & Htext & Hparse).
      rewrite Htext in Hv. destruct (truthy_string text); simpl in Hv.
      * rewrite Hparse in Hv. simpl in Hv. congruence.
      * congruence.
    + intros items' refusal' [= <- <-] Hnone. rewrite Hnone in Hv.
      simpl in Hv. congruence.
    + intros items' refusal' text parsed [= <- <-] Htext Hparse.
      rewrite Htext in Hv. destruct text as [|c text].
      * vm_compute in Hparse. done.
      * simpl in Hv. rewrite Hparse in Hv. simpl in Hv. congruence.
Qed.

Lemma getStoredSubmission_swallows_read_failures_witness :
  Spec.StoredValueUnparseable Spec.brokenStore
  ∧ getStoredSubmission Spec.brokenStore = Normal VNull.
Proof.
  assert (H : Spec.StoredValueUnparseable Spec.brokenStore).
  { exists {[WAITLIST_STORAGE_KEY := lit "{name: Jo"]}, None,
           (lit "{name: Jo"), (Engine JsonSyntax).
    split_and!;
      [reflexivity | apply lookup_singleton_eq | vm_compute; reflexivity]. }
  split; [exact H |].
  destruct (getStoredSubmission_swallows_read_failures Spec.brokenStore)
    as (v & Hv & _ & Hbad & _).
  rewrite Hv. f_equal. exact (Hbad H).
Defined.

(** A stored text of well-formed JSON that is no [StoredWaitlistData]
    counts as malformed in the words of C8, and is returned all the
    same: the claim as stated fails on it. *)
Lemma getStoredSubmission_returns_other_shapes :
  Spec.StoredValueMalformed Spec.otherShapeStore
  ∧ getStoredSubmission Spec.otherShapeStore
    = Normal (VObject [(lit "name", VString (lit "Jo"))])
  ∧ getStoredSubmission Spec.otherShapeStore ≠ Normal VNull.
Proof.
  assert (Hparse : Json.parse (Json.stringify_record [("name", lit "Jo")])
                   = Normal (VObject [(lit "name", VString (lit "Jo"))])).
  { vm_compute. reflexivity. }
  assert (Hget : getStoredSubmission Spec.otherShapeStore
                 = Normal (VObject [(lit "name", VString (lit "Jo"))])).
  { unfold Spec.otherShapeStore.
    rewrite (getStoredSubmission_open _ _ _ (lookup_singleton_eq _ _))
      by discriminate.
    rewrite Hparse. reflexivity. }
  split_and!.
  - eexists _, _, _. split_and!; [reflexivity | apply lookup_singleton_eq |].
    intros v Hv. rewrite Hparse in Hv. injection Hv as <-. reflexivity.
  - exact Hget.
  - rewrite Hget. discriminate.
Qed.

End WaitlistFacts.

(* ================================================================== *)
(** * The submit handler of the slider *)
(* ================================================================== *)

Module ControllerFacts.

Import Net Waitlist.

(** A form with errors goes nowhere: no request, no write. *)
Lemma handleSubmit_invalid (browser : Browser) (s : State) (store : Storage) :
  0 < FormErrors.keys (validate (formData s)) →
  handleSubmit browser s store
  = (Normal (), setErrors (validate (formData s)) (setTouched (λ _, true) s),
     store).
Proof.
  intros H. unfold handleSubmit. simpl.
  rewrite bool_decide_eq_true_2 by done. done.
Qed.

(** The write is unguarded: when storage refuses it, the promise of
    [handleSubmit] rejects before [setIsSuccess] and the success flag
    keeps its value. *)
Lemma handleSubmit_write_refused
    (browser : Browser) (s : State) (e : thrown) :
  FormErrors.keys (validate (formData s)) = 0 →
  ∃ s', handleSubmit browser s (Blocked e) = (Throw e, s', Blocked e)
        ∧ isSuccess s' = isSuccess s.
Proof.
  intros H. unfold handleSubmit. simpl.
  rewrite bool_decide_eq_false_2 by lia.
  destruct (WaitlistFacts.submitToHubSpot_total (network browser) (href browser)
              (formData s)) as [ok ->].
  destruct ok; simpl; eexists; split; reflexivity.
Qed.



(** What the cache holds after a submit is read back as a
    [StoredWaitlistData], and the next opening of the slider shows the
    already-joined view without any request. *)
Lemma reopen_after_submit (browser : Browser) (s s0 : State)
    (items : gmap (list N) (list N)) :
  getStoredSubmission
    (Open (<[WAITLIST_STORAGE_KEY := cacheText browser s]> items) None)
  = Normal (VObject [(lit "name", VString (FormData.name (formData s)));
                     (lit "email", VString (FormData.email (formData s)));
                     (lit "submittedAt", VString (isoNow browser))])
  ∧ ∃ s1,
      onOpen (Open (<[WAITLIST_STORAGE_KEY := cacheText browser s]> items) None) s0
      = Normal s1
      ∧ display s1 = AlreadyJoined.
Proof.
  assert (Hread : getStoredSubmission
                    (Open (<[WAITLIST_STORAGE_KEY := cacheText browser s]> items)
                       None)
                  = Normal (VObject
                              [(lit "name", VString (FormData.name (formData s)));
                               (lit "email", VString (FormData.email (formData s)));
                               (lit "submittedAt", VString (isoNow browser))])).
  { rewrite (WaitlistFacts.getStoredSubmission_open _ _ (cacheText browser s))
      by (apply lookup_insert_eq || done).
    unfold cacheText. rewrite JsonFacts.parse_stringify_record. reflexivity. }
  split; [exact Hread |].
  unfold onOpen. rewrite Hread. eexists. split; reflexivity.
Qed.

End ControllerFacts.

(* ================================================================== *)
(** * The request handler of the mail endpoint *)
(* ================================================================== *)

Module EndpointFacts.

Import RateLimiter Endpoint.
Local Open Scope Z_scope.

Section Gates.

Context (rt : Runtime) (tpl : TemplateText) (relay : Relay) (env : Env)
        (now : Z) (emailAttempts : ledger).

Lemma handler_options (req : Request) :
  method req = lit "OPTIONS" →
  handler rt tpl relay env now req emailAttempts
  = ({| status := 200; headers := corsHeaders req; payload := None |},
     emailAttempts).
Proof. intros H. unfold handler. by rewrite bool_decide_eq_true_2. Qed.


Lemma handler_no_credentials (req : Request) :
  method req = lit "POST" →
  unset (SMTP_USER env) || unset (SMTP_PASS env) = true →
  status (handler rt tpl relay env now req emailAttempts).1 = 500.
Proof.
  intros H1 H2. unfold handler. rewrite H1, H2. done.
Qed.

(** Behind the method and credential gates the handler is the [try]
    block with its [catch]. *)
Lemma handler_post (req : Request) :
  method req = lit "POST" →
  unset (SMTP_USER env) = false → unset (SMTP_PASS env) = false →
  handler rt tpl relay env now req emailAttempts
  = match attempt rt tpl relay env now req emailAttempts with
    | (Normal (code, content), emailAttempts') =>
        ({| status := code; headers := corsHeaders req;
            payload := Some content |}, emailAttempts')
    | (Throw error, emailAttempts') =>
        ({| status := 500; headers := corsHeaders req;
            payload := Some (failureBody rt env error) |}, emailAttempts')
    end.
Proof.
  intros H1 H2 H3. unfold handler. rewrite H1, H2, H3. done.
Qed.

Lemma attempt_fields (req : Request) (props : list (jsstring * value)) :
  body req = VObject props →
  (name ← get (body req) (lit "name");
   email ← get (body req) (lit "email");
   role ← get (body req) (lit "role");
   mret (name, email, role))
  = Normal (default VUndefined (lookup_prop (lit "name") props),
            default VUndefined (lookup_prop (lit "email") props),
            default VUndefined (lookup_prop (lit "role") props)).
Proof. intros ->. reflexivity. Qed.


(** Without a body there is nothing to destructure: the [try] block
    throws at its first statement and the [catch] block answers 500. *)
Lemma handler_without_body (req : Request) :
  method req = lit "POST" →
  unset (SMTP_USER env) = false → unset (SMTP_PASS env) = false →
  body req = VUndefined ∨ body req = VNull →
  handler rt tpl relay env now req emailAttempts
  = ({| status := 500; headers := corsHeaders req;
        payload := Some (failureBody rt env
                           (Engine (ReadOfNullish (lit "name")))) |},
     emailAttempts).
Proof.
  intros Hpost Huser Hpass Hbody. rewrite (handler_post req Hpost Huser Hpass).
  unfold attempt. destruct Hbody as [-> | ->]; reflexivity.
Qed.

(** A field that is present but no string passes the presence check
    when truthy and makes [sanitizeInput] throw: 500 again. *)
Lemma handler_field_not_a_string (req : Request) (props : list (jsstring * value)) :
  method req = lit "POST" →
  unset (SMTP_USER env) = false → unset (SMTP_PASS env) = false →
  body req = VObject props →
  lookup_prop (lit "name") props = Some (VNumber 5 0) →
  lookup_prop (lit "email") props = Some (VString (lit "jo@x.com")) →
  lookup_prop (lit "role") props = Some (VString (lit "artist")) →
  status (handler rt tpl relay env now req emailAttempts).1 = 500.
Proof.
  intros Hpost Huser Hpass Hbody Hname Hemail Hrole.
  rewrite (handler_post req Hpost Huser Hpass). unfold attempt.
  rewrite (attempt_fields req props Hbody), Hname, Hemail, Hrole. reflexivity.
Qed.

Lemma attempt_strings (req : Request) (props : list (jsstring * value))
    (name email role : jsstring) :
  body req = VObject props →
  lookup_prop (lit "name") props = Some (VString name) →
  lookup_prop (lit "email") props = Some (VString email) →
  lookup_prop (lit "role") props = Some (VString role) →
  name ≠ [] → email ≠ [] → role ≠ [] →
  attempt rt tpl relay env now req emailAttempts
  = let sanitizedName := sanitizeInput name in
    let sanitizedEmail := toLowerCase rt (sanitizeInput email) in
    let sanitizedRole := sanitizeInput role in
    if negb (Regex.test Regex.emailRegex sanitizedEmail)
    then (Normal (400, errorBody "Invalid email format"), emailAttempts)
    else if negb (bool_decide (sanitizedRole ∈ [lit "artist"; lit "customer"]))
    then (Normal (400, errorBody "Invalid role"), emailAttempts)
    else if bool_decide (length sanitizedName < 2)%nat
            || bool_decide (100 < length sanitizedName)%nat
    then (Normal (400, errorBody "Invalid name length"), emailAttempts)
    else
      let (limited, emailAttempts') :=
        isRateLimited now sanitizedEmail emailAttempts in
      if limited
      then (Normal (429, errorBody "Too many requests. Please try again later."),
            emailAttempts')
      else
        match relay
                {| host := or_else (SMTP_HOST env) (lit "smtp.gmail.com");
                   port := or_else (SMTP_PORT env) (lit "587");
                   user := or_else (SMTP_USER env) [];
                   pass := or_else (SMTP_PASS env) [] |}
                {| from := sender env;
                   to := sanitizedEmail;
                   subject := subjectLine;
                   html := getEmailTemplate tpl sanitizedName sanitizedRole |}
        with
        | Throw e => (Throw e, emailAttempts')
        | Normal _ =>
            (Normal (200,
                     VObject [(lit "success", VBool true);
                              (lit "message",
                               VString (lit "Email sent successfully"))]),
             emailAttempts')
        end.
Proof.
  intros Hbody Hname Hemail Hrole Hn He Hr. unfold attempt.
  rewrite (attempt_fields req props Hbody), Hname, Hemail, Hrole.
  destruct name, email, role; try done.
Qed.




End Gates.


End EndpointFacts.

(* ================================================================== *)
(** * The mail service of the client *)
(* ================================================================== *)

Module EmailServiceFacts.

Import Net EmailService.
#[local] Arguments lit : simpl never.

Lemma get_nullish (data : value) (key : jsstring) :
  data = VNull ∨ data = VUndefined →
  get data key = Throw (Engine (ReadOfNullish key)).
Proof. by intros [-> | ->]. Qed.

Lemma nullish_dec (data : value) :
  {data = VNull ∨ data = VUndefined} + {data ≠ VNull ∧ data ≠ VUndefined}.
Proof. destruct data; (left; tauto) || (right; done). Qed.

Lemma get_defined (data : value) (key : jsstring) :
  data ≠ VNull → data ≠ VUndefined → ∃ v, get data key = Normal v.
Proof. destruct data; intros; try done; by eexists. Qed.

(** C10, as the code has it. [sendWelcomeEmail] always resolves. On a
    2xx response whose body parses to a value other than [null] it
    resolves with [success: true] and the [message] of the body. In
    every other case it resolves with [success: false] and an error
    string: for a non-2xx response with such a body, the text of the
    body's [error] when that is truthy and ["Failed to send email"]
    otherwise, which is non-empty when the [error] is a string or
    falsy; for a body that is [null], for an unparsable body and for a
    network failure, the message of the caught exception, or
    ["Unknown error"] when the caught value is no [Error]. *)
Theorem sendWelcomeEmail_always_resolves
    (rt : Runtime) (network : Network) (params : SendEmailParams) :
  ∃ r : EmailResponse,
    sendWelcomeEmail rt network params = Normal r
    ∧ (∀ res data,
         network (emailRequest params) = Normal res →
         json res = Normal data → data ≠ VNull → data ≠ VUndefined →
         if ok res
         then success r = true ∧ error r = None
              ∧ get data (lit "message") = Normal (message r)
         else ∃ reason,
                get data (lit "error") = Normal reason
                ∧ success r = false
                ∧ error r
                  = Some (if truthy reason then toString rt reason
                          else lit "Failed to send email")
                ∧ ((∃ s, reason = VString s) ∨ truthy reason = false →
                   error r ≠ Some []))
    ∧ (∀ res data,
         network (emailRequest params) = Normal res →
         json res = Normal data → data = VNull ∨ data = VUndefined →
         r = failed rt (Engine (ReadOfNullish
                                  (if ok res then lit "message" else lit "error"))))
    ∧ (∀ res e,
         network (emailRequest params) = Normal res →
         json res = Throw e → r = failed rt e)
    ∧ (∀ e, network (emailRequest params) = Throw e → r = failed rt e).
Proof.
  unfold sendWelcomeEmail.
  destruct (network (emailRequest params)) as [res|e] eqn:Hnet; simpl.
  2:{ exists (failed rt e). split_and!; try done. by intros e' [= <-]. }
  destruct (json res) as [data|e] eqn:Hjson; simpl.
  2:{ exists (failed rt e). split_and!; try done.
      - intros res' data [= <-]. by rewrite Hjson.
      - intros res' data [= <-]. by rewrite Hjson.
      - intros res' e' [= <-]. rewrite Hjson. by intros [= <-]. }
  destruct (nullish_dec data) as [Hnull|Hdef].
  - destruct (ok res) eqn:Hok; simpl; rewrite (get_nullish _ _ Hnull); simpl;
      (eexists; split_and!; [reflexivity | | | |]).
    all: try (intros res' data' [= <-]; rewrite Hjson; intros [= <-]).
    all: try (intros res' e' [= <-]; rewrite Hjson; done).
    all: try done.
    all: try (intros; tauto).
    all: try (rewrite Hok; done).
  - assert (Hn : data ≠ VNull) by tauto.
    assert (Hu : data ≠ VUndefined) by tauto.
    destruct (ok res) eqn:Hok; simpl.
    + destruct (get_defined data (lit "message") Hn Hu) as [text Htext].
      rewrite Htext. simpl. eexists. split_and!; [reflexivity | | | |].
      * intros res' data' [= <-]. rewrite Hjson. intros [= <-] _ _.
        rewrite Hok. done.
      * intros res' data' [= <-]. rewrite Hjson. intros [= <-]. tauto.
      * intros res' e' [= <-]. by rewrite Hjson.
      * done.
    + destruct (get_defined data (lit "error") Hn Hu) as [reason Hreason].
      rewrite Hreason. simpl. eexists. split_and!; [reflexivity | | | |].
      * intros res' data' [= <-]. rewrite Hjson. intros [= <-] _ _.
        rewrite Hok. exists reason. split_and!; try done.
        -- simpl. destruct (truthy reason); done.
        -- simpl. intros [[s ->] | Hfalsy].
           ++ destruct s; simpl; discriminate.
           ++ rewrite Hfalsy. simpl. discriminate.
      * intros res' data' [= <-]. rewrite Hjson. intros [= <-]. tauto.
      * intros res' e' [= <-]. by rewrite Hjson.
      * done.
Qed.

Lemma sendWelcomeEmail_always_resolves_witness :
  ∃ r, sendWelcomeEmail Spec.exampleRuntime
         (Spec.answering 400
            (Normal (VObject [(lit "error", VString (lit "Invalid role"))])))
         Spec.exampleParams = Normal r
       ∧ success r = false
       ∧ error r = Some (lit "Invalid role").
Proof.
  destruct (sendWelcomeEmail_always_resolves Spec.exampleRuntime
              (Spec.answering 400
                 (Normal (VObject [(lit "error", VString (lit "Invalid role"))])))
              Spec.exampleParams)
    as (r & Hr & Hbody & _).
  exists r. split; [exact Hr |].
  specialize (Hbody _ _ eq_refl eq_refl).
  destruct Hbody as (reason & Hreason & Hfail & Herror & _);
    [discriminate | discriminate |].
  injection Hreason as <-. split; [exact Hfail | exact Herror].
Defined.

(** A 2xx response may carry the JSON value [null]: reading its
    [message] throws, and the call resolves with [success: false]. The
    claim that every 2xx response gives [success: true] fails here. *)
Lemma sendWelcomeEmail_null_body_fails :
  (∃ res, Spec.answering 200 (Normal VNull) (emailRequest Spec.exampleParams)
          = Normal res ∧ ok res = true)
  ∧ sendWelcomeEmail Spec.exampleRuntime (Spec.answering 200 (Normal VNull))
      Spec.exampleParams
    = Normal {| success := false;
                message := VUndefined;
                error := Some (lit "Cannot read property message") |}.
Proof. split; [by eexists | reflexivity]. Qed.

(** A non-2xx body whose [error] is an empty array is truthy and has the
    empty text: the error string of the reply is empty. *)
Lemma sendWelcomeEmail_empty_error_text :
  sendWelcomeEmail Spec.exampleRuntime
    (Spec.answering 500 (Normal (VObject [(lit "error", VArray [])])))
    Spec.exampleParams
  = Normal {| success := false; message := VUndefined; error := Some [] |}.
Proof. reflexivity. Qed.

End EmailServiceFacts.

(* ================================================================== *)
(** * The rate limiter along a run *)
(* ================================================================== *)

Module TrafficFacts.

Import RateLimiter Traffic.
Local Open Scope Z_scope.

(** On a list in clock order the filter of [isRateLimited] cuts a
    prefix: what it drops is older than everything it keeps. *)
Lemma recent_is_suffix (now : Z) (attempts : list Z) :
  StronglySorted Z.le attempts →
  ∃ dropped,
    attempts = dropped ++ recent now attempts
    ∧ Forall (λ time, 3600000 ≤ now - time) dropped.
Proof.
  induction 1 as [|time l Hl IH Hall].
  - by exists [].
  - destruct (decide (now - time < 3600000)) as [Hin|Hout].
    + exists []. split; [| constructor]. simpl.
      symmetry. apply RateLimiterFacts.recent_keeps_all.
      constructor; [done |].
      eapply Forall_impl; [exact Hall |]. unfold Spec.age. intros; simpl in *; lia.
    + destruct IH as (dropped & Heq & Hdropped).
      exists (time :: dropped). split; [| constructor; [lia | done]].
      unfold recent in *. rewrite filter_cons_False by done.
      simpl. by rewrite <- Heq.
Qed.

Lemma recent_sorted (now : Z) (attempts : list Z) :
  StronglySorted Z.le attempts → StronglySorted Z.le (recent now attempts).
Proof.
  induction 1 as [|time l Hl IH Hall]; [constructor |].
  unfold recent in *. destruct (decide (now - time < 3600000)).
  - rewrite filter_cons_True by done. constructor; [done |].
    apply Forall_forall. intros x Hx.
    apply list_elem_of_filter in Hx as [_ Hx].
    rewrite Forall_forall in Hall. by apply Hall.
  - by rewrite filter_cons_False.
Qed.

Lemma sorted_snoc (l : list Z) (x : Z) :
  StronglySorted Z.le l → Forall (λ y, y ≤ x) l → StronglySorted Z.le (l ++ [x]).
Proof.
  induction 1 as [|y l Hl IH Hall]; intros Hle; simpl.
  - repeat constructor.
  - inversion Hle; subst. constructor; [by apply IH |].
    apply Forall_app. split; [done | by constructor].
Qed.

Lemma filter_length_le (P Q : Z → Prop) `{!∀ x, Decision (P x)}
    `{!∀ x, Decision (Q x)} (l : list Z) :
  (∀ x, P x → Q x) → (length (filter P l) ≤ length (filter Q l))%nat.
Proof.
  intros HPQ. induction l as [|x l IH]; [done |].
  destruct (decide (P x)) as [HP|HP].
  - rewrite (filter_cons_True P) by done.
    rewrite (filter_cons_True Q) by auto. simpl. lia.
  - rewrite (filter_cons_False P) by done.
    destruct (decide (Q x)).
    + rewrite (filter_cons_True Q) by done. simpl. lia.
    + by rewrite (filter_cons_False Q).
Qed.

Lemma filter_none (P : Z → Prop) `{!∀ x, Decision (P x)} (l : list Z) :
  Forall (λ x, ¬ P x) l → filter P l = [].
Proof.
  induction 1 as [|x l Hx _ IH]; [done |].
  by rewrite filter_cons_False.
Qed.

Lemma tracks_later (email : jsstring) (m : ledger) (c c' : Z) (old : list Z) :
  c ≤ c' → Tracks email m c old → Tracks email m c' old.
Proof.
  intros Hc (Hold & Hsorted & Hle & Hwin). split_and!; try done.
  - eapply Forall_impl; [exact Hold |]. intros; simpl in *; lia.
  - eapply Forall_impl; [exact Hle |]. intros; simpl in *; lia.
Qed.

Lemma tracks_other (email other : jsstring) (m : ledger) (now c : Z)
    (old : list Z) :
  other ≠ email →
  Tracks email m c old → Tracks email (isRateLimited now other m).2 c old.
Proof.
  intros Hne H. unfold Tracks, attemptsOf, isRateLimited in *.
  destruct (decide _); simpl; [done |].
  by rewrite lookup_insert_ne.
Qed.

Lemma tracks_allowed (email : jsstring) (m : ledger) (now c : Z) (old : list Z) :
  c ≤ now →
  (length (recent now (attemptsOf m email)) < 3)%nat →
  Tracks email m c old →
  ∃ old',
    old' ++ attemptsOf (isRateLimited now email m).2 email
    = old ++ attemptsOf m email ++ [now]
    ∧ Tracks email (isRateLimited now email m).2 now old'.
Proof.
  intros Hc Hroom (Hold & Hsorted & Hle & Hwin).
  rewrite RateLimiterFacts.isRateLimited_allows by done. simpl.
  destruct (recent_is_suffix now _ Hsorted) as (dropped & Heq & Hdropped).
  exists (old ++ dropped). unfold Tracks.
  rewrite RateLimiterFacts.attemptsOf_insert.
  assert (Hhist : (old ++ dropped) ++ recent now (attemptsOf m email) ++ [now]
                  = old ++ attemptsOf m email ++ [now]).
  { rewrite Heq at 2. by rewrite <- !app_assoc. }
  split; [exact Hhist |]. split_and!.
  - apply Forall_app. split; [| done].
    eapply Forall_impl; [exact Hold |]. intros; simpl in *; lia.
  - apply sorted_snoc; [by apply recent_sorted |].
    apply Forall_forall. intros x Hx.
    apply list_elem_of_filter in Hx as [_ Hx].
    rewrite Forall_forall in Hle. specialize (Hle x Hx). simpl in Hle. lia.
  - apply Forall_app. split.
    + apply Forall_forall. intros x Hx.
      apply list_elem_of_filter in Hx as [_ Hx].
      rewrite Forall_forall in Hle. specialize (Hle x Hx). simpl in Hle. lia.
    + repeat constructor. lia.
  - intros t. destruct (decide (now ≤ t)) as [Hlate|Hearly].
    + rewrite !filter_app.
      rewrite (filter_none (inWindow t) old).
      2:{ eapply Forall_impl; [exact Hold |].
          unfold inWindow. intros; simpl in *; lia. }
      rewrite (filter_none (inWindow t) dropped).
      2:{ eapply Forall_impl; [exact Hdropped |].
          unfold inWindow. intros; simpl in *; lia. }
      simpl. rewrite length_app.
      pose proof (length_filter (inWindow t) (recent now (attemptsOf m email))).
      pose proof (length_filter (inWindow t) [now]). simpl in *. lia.
    + rewrite Hhist, !app_assoc, filter_app.
      rewrite (filter_none (inWindow t) [now]).
      2:{ repeat constructor. unfold inWindow. lia. }
      rewrite app_nil_r. apply Hwin.
Qed.

Lemma tracks_run (email : jsstring) (trace : list (Z * jsstring)) :
  ∀ (m : ledger) (c : Z) (old : list Z),
    clockFrom c trace → Tracks email m c old →
    ∀ t, (length (filter (inWindow t)
                    (old ++ attemptsOf m email
                     ++ allowedTimes email (serveAll trace m).1)) ≤ 3)%nat.
Proof.
  induction trace as [|[now e] trace IH]; intros m c old Hclock Htracks t.
  - simpl. rewrite app_nil_r. apply Htracks.
  - destruct Hclock as [Hc Hclock]. simpl.
    destruct (isRateLimited now e m) as [limited m1] eqn:Hcall.
    destruct (serveAll trace m1) as [log m2] eqn:Hrest. simpl.
    assert (Hm1 : m1 = (isRateLimited now e m).2) by (by rewrite Hcall).
    assert (Hlog : log = (serveAll trace m1).1) by (by rewrite Hrest).
    destruct (decide (e = email)) as [->|Hne].
    + destruct limited.
      * unfold isRateLimited in Hcall. destruct (decide _); [| done].
        injection Hcall as <-. rewrite Hlog.
        apply (IH m now old Hclock). by eapply tracks_later.
      * assert (Hroom : (length (recent now (attemptsOf m email)) < 3)%nat).
        { unfold isRateLimited in Hcall. destruct (decide _); [done | lia]. }
        destruct (tracks_allowed email m now c old Hc Hroom Htracks)
          as (old' & Hhist & Htracks').
        rewrite <- Hm1 in Hhist, Htracks'.
        specialize (IH m1 now old' Hclock Htracks' t).
        rewrite app_assoc, Hhist, <- Hlog in IH.
        by rewrite <- !app_assoc in IH.
    + rewrite Hlog.
      assert (Hsame : attemptsOf m1 email = attemptsOf m email).
      { rewrite Hm1. unfold attemptsOf, isRateLimited.
        destruct (decide _); simpl; [done |]. by rewrite lookup_insert_ne. }
      rewrite <- Hsame. apply (IH m1 now old Hclock).
      rewrite Hm1. apply tracks_other; [done |]. by eapply tracks_later.
Qed.

(** X1. Along any run of the process whose clock never runs backwards,
    no hour holds more than three allowed calls for one address. *)
Theorem at_most_three_allowed_per_hour
    (trace : list (Z * jsstring)) (c : Z) (email : jsstring) (t : Z) :
  clockFrom c trace →
  (length (filter (inWindow t) (allowedTimes email (serveAll trace ∅).1)) ≤ 3)%nat.
Proof.
  intros Hclock.
  pose proof (tracks_run email trace ∅ c [] Hclock) as H.
  unfold attemptsOf in H. rewrite lookup_empty in H. simpl in H.
  apply H. unfold Tracks, attemptsOf. rewrite lookup_empty. simpl.
  split_and!; [constructor | constructor | constructor | intros _; lia].
Qed.

Lemma at_most_three_allowed_per_hour_witness :
  clockFrom 0 exampleTrace
  ∧ (length (filter (inWindow 3600005)
               (allowedTimes (lit "jo@x.com") (serveAll exampleTrace ∅).1))
     ≤ 3)%nat.
Proof.
  assert (H : clockFrom 0 exampleTrace) by (simpl; lia).
  split; [exact H |].
  exact (at_most_three_allowed_per_hour _ 0 (lit "jo@x.com") 3600005 H).
Defined.

Lemma other_address_untouched (now : Z) (email other : jsstring) (m : ledger) :
  email ≠ other → (isRateLimited now email m).2 !! other = m !! other.
Proof.
  intros Hne. unfold isRateLimited. destruct (decide _); simpl; [done |].
  by rewrite lookup_insert_ne.
Qed.

(** X2. The limit is kept per address: calls for two different
    addresses do not see each other. Each gets the verdict it would get
    alone, and the ledger they leave does not depend on their order. *)
Theorem addresses_do_not_interfere (first second : Z * jsstring) (m : ledger) :
  first.2 ≠ second.2 →
  twoCalls first second m
  = ((isRateLimited first.1 first.2 m).1,
     (isRateLimited second.1 second.2 m).1,
     (twoCalls second first m).2)
  ∧ (twoCalls first second m).2 !! first.2
    = (isRateLimited first.1 first.2 m).2 !! first.2
  ∧ (twoCalls first second m).2 !! second.2
    = (isRateLimited second.1 second.2 m).2 !! second.2.
Proof.
  destruct first as [t1 e1], second as [t2 e2]. simpl. intros Hne.
  assert (Hafter : ∀ ta a tb b, a ≠ b →
            isRateLimited tb b (isRateLimited ta a m).2
            = ((isRateLimited tb b m).1,
               if (isRateLimited tb b m).1 then (isRateLimited ta a m).2
               else <[b := recent tb (attemptsOf m b) ++ [tb]]>
                      (isRateLimited ta a m).2)).
  { intros ta a tb b Hab.
    assert (Hsame : attemptsOf (isRateLimited ta a m).2 b = attemptsOf m b).
    { unfold attemptsOf. by rewrite other_address_untouched. }
    destruct (decide (3 ≤ length (recent tb (attemptsOf m b)))%nat).
    - rewrite (RateLimiterFacts.isRateLimited_rejects tb b m) by done.
      rewrite RateLimiterFacts.isRateLimited_rejects by (by rewrite Hsame).
      done.
    - rewrite (RateLimiterFacts.isRateLimited_allows tb b m) by lia.
      rewrite RateLimiterFacts.isRateLimited_allows by (rewrite Hsame; lia).
      by rewrite Hsame. }
  unfold twoCalls. simpl.
  pose proof (Hafter t1 e1 t2 e2 Hne) as H12.
  pose proof (Hafter t2 e2 t1 e1 (not_eq_sym Hne)) as H21.
  destruct (isRateLimited t1 e1 m) as [r1 m1] eqn:E1.
  destruct (isRateLimited t2 e2 m) as [r2 m2] eqn:E2.
  simpl in *. rewrite H12, H21. simpl.
  assert (Hm1 : m1 = if r1 then m
                     else <[e1 := recent t1 (attemptsOf m e1) ++ [t1]]> m).
  { unfold isRateLimited in E1. destruct (decide _); by injection E1 as <- <-. }
  assert (Hm2 : m2 = if r2 then m
                     else <[e2 := recent t2 (attemptsOf m e2) ++ [t2]]> m).
  { unfold isRateLimited in E2. destruct (decide _); by injection E2 as <- <-. }
  subst m1 m2. destruct r1, r2; simpl; split_and!;
    rewrite ?(lookup_insert_ne _ e2 e1) by done;
    rewrite ?lookup_insert_eq;
    rewrite ?(lookup_insert_ne _ e1 e2) by done;
    rewrite ?lookup_insert_eq;
    first [done | by rewrite insert_insert_ne].
Qed.

Lemma addresses_do_not_interfere_witness :
  twoCalls (5, lit "jo@x.com") (7, lit "a@b.c") ∅
  = (false, false, (twoCalls (7, lit "a@b.c") (5, lit "jo@x.com") ∅).2).
Proof.
  refine (proj1 (addresses_do_not_interfere (5, lit "jo@x.com") (7, lit "a@b.c")
                   ∅ _)).
  simpl. discriminate.
Defined.

Lemma reachable_serveAll (trace : list (Z * jsstring)) (m : ledger) :
  reachable m → reachable (serveAll trace m).2.
Proof.
  revert m. induction trace as [|[now email] trace IH]; intros m Hm; [done |].
  simpl. pose proof (reachable_call now email m Hm) as Hstep.
  destruct (isRateLimited now email m) as [r m1]. simpl in Hstep.
  specialize (IH m1 Hstep). by destruct (serveAll trace m1).
Qed.

(** X3. The ledger only grows: no call removes an address, and every
    list a reachable ledger holds has one, two or three timestamps. *)
Theorem ledger_entries_stay (m : ledger) :
  reachable m →
  (∀ (email : jsstring) (l : list Z),
     m !! email = Some l → (1 ≤ length l ≤ 3)%nat)
  ∧ (∀ (now : Z) (email known : jsstring),
       is_Some (m !! known) → is_Some ((isRateLimited now email m).2 !! known)).
Proof.
  intros Hm. split.
  - induction Hm as [|now email m Hm IH]; intros email' l Hl.
    + by rewrite lookup_empty in Hl.
    + unfold isRateLimited in Hl.
      destruct (decide _) as [Hfull|Hroom]; simpl in Hl; [by eapply IH |].
      destruct (decide (email = email')) as [->|Hne].
      * rewrite lookup_insert_eq in Hl. injection Hl as <-.
        rewrite length_app. simpl. lia.
      * rewrite lookup_insert_ne in Hl by done. by eapply IH.
  - intros now email known Hknown. unfold isRateLimited.
    destruct (decide _); simpl; [done |].
    destruct (decide (email = known)) as [->|Hne].
    + rewrite lookup_insert_eq. by eexists.
    + by rewrite lookup_insert_ne.
Qed.

Lemma ledger_entries_stay_witness :
  reachable (serveAll exampleTrace ∅).2
  ∧ is_Some ((isRateLimited 9000000 (lit "x@y.z") (serveAll exampleTrace ∅).2).2
             !! lit "a@b.c").
Proof.
  assert (H : reachable (serveAll exampleTrace ∅).2).
  { apply reachable_serveAll, reachable_init. }
  split; [exact H |].
  apply (proj2 (ledger_entries_stay _ H)). vm_compute. by eexists.
Defined.

End TrafficFacts.

(* ================================================================== *)
(** * More on sanitisation and the greeting *)
(* ================================================================== *)

Module SanitizeMore.

Import Endpoint.

Lemma filter_keeps_all (P : N → Prop) `{!∀ c, Decision (P c)} (s : jsstring) :
  Forall P s → filter P s = s.
Proof.
  induction 1 as [|c s Hc _ IH]; [done |].
  rewrite filter_cons_True by done. by rewrite IH.
Qed.

Lemma trim_length (s : jsstring) : length (trim s) ≤ length s.
Proof.
  destruct (JSFacts.trim_is_trim s) as (l & r & Hs & _).
  rewrite Hs at 2. rewrite !length_app. lia.
Qed.

Lemma trim_keeps (P : N → Prop) (s : jsstring) :
  Forall P s → Forall P (trim s).
Proof.
  destruct (JSFacts.trim_is_trim s) as (l & r & Hs & _).
  intros H. rewrite Hs in H. by apply Forall_app in H as [_ [H _]%Forall_app].
Qed.

(** A text that is already trimmed. *)
Lemma trim_fixed (s : jsstring) :
  trim s = s ↔
  (∀ c, head s = Some c → isWhiteSpace c = false)
  ∧ (∀ c, last s = Some c → isWhiteSpace c = false).
Proof.
  split.
  - intros Heq. destruct (JSFacts.trim_is_trim s) as (l & r & _ & _ & _ & Hh & Hl).
    rewrite Heq in Hh, Hl. done.
  - intros [Hh Hl]. apply JSFacts.trim_unique. exists [], [].
    split_and!; [by rewrite app_nil_r | constructor | constructor | done | done].
Qed.

Lemma trim_trim (s : jsstring) : trim (trim s) = trim s.
Proof.
  apply trim_fixed.
  destruct (JSFacts.trim_is_trim s) as (l & r & _ & _ & _ & Hh & Hl). done.
Qed.

Lemma trim_same_length (s : jsstring) : length (trim s) = length s → trim s = s.
Proof.
  destruct (JSFacts.trim_is_trim s) as (l & r & Hs & _).
  intros Hlen. rewrite Hs in Hlen at 2. rewrite !length_app in Hlen.
  destruct l; [| simpl in Hlen; lia]. destruct r; [| simpl in Hlen; lia].
  rewrite Hs at 2. by rewrite app_nil_r.
Qed.

(** On a clean and short text [sanitizeInput] only trims. *)
Lemma sanitizeInput_of_clean (s : jsstring) :
  Forall (λ c, c ≠ 60%N ∧ c ≠ 62%N) s → length s ≤ 500 →
  sanitizeInput s = trim s.
Proof.
  intros Hclean Hshort. rewrite SanitizeFacts.sanitizeInput_unfold.
  unfold Spec.stripTagChars.
  rewrite filter_keeps_all by (by apply trim_keeps).
  apply take_ge. pose proof (trim_length s). lia.
Qed.

(** X4. The inputs that [sanitizeInput] hands back unchanged are the
    texts without [<] and [>], of at most 500 code units, that neither
    begin nor end with white space. *)
Theorem sanitizeInput_fixed_points (s : jsstring) :
  sanitizeInput s = s ↔
  Forall (λ c, c ≠ 60%N ∧ c ≠ 62%N) s
  ∧ length s ≤ 500
  ∧ (∀ c, head s = Some c → isWhiteSpace c = false)
  ∧ (∀ c, last s = Some c → isWhiteSpace c = false).
Proof.
  split.
  - intros Heq.
    assert (Hclean : Forall (λ c, c ≠ 60%N ∧ c ≠ 62%N) s).
    { rewrite <- Heq. apply SanitizeFacts.sanitizeInput_clean. }
    assert (Hshort : length s ≤ 500).
    { rewrite <- Heq, SanitizeFacts.sanitizeInput_unfold, length_take. lia. }
    split_and!; [done | done | |];
      rewrite sanitizeInput_of_clean in Heq by done;
      apply trim_fixed in Heq; tauto.
  - intros (Hclean & Hshort & Hh & Hl).
    rewrite sanitizeInput_of_clean by done. by apply trim_fixed.
Qed.

(** X5. A second pass of [sanitizeInput] only trims what the first pass
    left, and a third pass changes nothing. *)
Theorem sanitizeInput_twice (s : jsstring) :
  sanitizeInput (sanitizeInput s) = trim (sanitizeInput s)
  ∧ sanitizeInput (sanitizeInput (sanitizeInput s))
    = sanitizeInput (sanitizeInput s).
Proof.
  assert (Hclean : Forall (λ c, c ≠ 60%N ∧ c ≠ 62%N) (sanitizeInput s))
    by apply SanitizeFacts.sanitizeInput_clean.
  assert (Hshort : length (sanitizeInput s) ≤ 500).
  { rewrite SanitizeFacts.sanitizeInput_unfold, length_take. lia. }
  assert (Hsecond : sanitizeInput (sanitizeInput s) = trim (sanitizeInput s))
    by (by apply sanitizeInput_of_clean).
  split; [done |]. rewrite Hsecond.
  rewrite sanitizeInput_of_clean.
  - apply trim_trim.
  - by apply trim_keeps.
  - pose proof (trim_length (sanitizeInput s)). lia.
Qed.

(** The first pass is not the last word: removing a tag character can
    uncover white space at the start. *)
Example sanitizeInput_not_idempotent :
  sanitizeInput (lit "< Jo") = lit " Jo"
  ∧ sanitizeInput (sanitizeInput (lit "< Jo")) = lit "Jo".
Proof. split; vm_compute; reflexivity. Qed.

Lemma split_head (sep : N) (s : jsstring) :
  ∃ piece pieces rest,
    split sep s = piece :: pieces
    ∧ s = piece ++ rest
    ∧ Forall (λ c, c ≠ sep) piece
    ∧ (rest = [] ∨ head rest = Some sep).
Proof.
  induction s as [|c s (piece & pieces & rest & Hsplit & Hs & Hpiece & Hrest)].
  - exists [], [], []. split_and!; [done | done | constructor | by left].
  - simpl. destruct (c =? sep)%N eqn:Hc.
    + apply N.eqb_eq in Hc as ->.
      exists [], (split sep s), (sep :: s).
      split_and!; [done | done | constructor | by right].
    + apply N.eqb_neq in Hc. rewrite Hsplit.
      exists (c :: piece), pieces, rest.
      split_and!; [done | by rewrite Hs at 1 | by constructor | done].
Qed.

(** X6. The first name of the greeting is the text before the first
    space of the name, the whole name when it has no space; it is empty
    exactly when the name is empty or begins with a space. *)
Theorem firstName_is_text_before_space (name : jsstring) :
  (∃ rest,
     name = firstName name ++ rest
     ∧ Forall (λ c, c ≠ 32%N) (firstName name)
     ∧ (rest = [] ∨ head rest = Some 32%N))
  ∧ (firstName name = [] ↔ name = [] ∨ head name = Some 32%N).
Proof.
  destruct (split_head 32 name)
    as (piece & pieces & rest & Hsplit & Hs & Hpiece & Hrest).
  assert (Hfirst : firstName name = piece).
  { unfold firstName. by rewrite Hsplit. }
  rewrite Hfirst. split; [by exists rest |].
  split.
  - intros ->. simpl in Hs. destruct Hrest as [-> | Hrest]; [by left |].
    right. by rewrite Hs.
  - intros [-> | Hhead].
    + by destruct piece.
    + destruct piece as [|c piece]; [done |].
      rewrite Hs in Hhead. injection Hhead as ->.
      by inversion Hpiece.
Qed.

End SanitizeMore.

(* ================================================================== *)
(** * More on the request handler *)
(* ================================================================== *)

Module EndpointMore.

Import RateLimiter Endpoint Delivery.
Local Open Scope Z_scope.

Section Handler.

Context (rt : Runtime) (tpl : TemplateText) (relay : Relay) (env : Env)
        (now : Z) (emailAttempts : ledger).

(** What the [try] block does once the request has passed its checks. *)
Lemma attempt_passed (req : Request) (name email role : jsstring) :
  Passes rt req name email role →
  attempt rt tpl relay env now req emailAttempts
  = if (isRateLimited now (ledgerKey rt email) emailAttempts).1
    then (Normal (429, errorBody "Too many requests. Please try again later."),
          emailAttempts)
    else match relay (transportOf env) (mailOf rt tpl env name email role) with
         | Throw e => (Throw e, recorded rt now email emailAttempts)
         | Normal _ =>
             (Normal (200, Spec.successBody), recorded rt now email emailAttempts)
         end.
Proof.
  intros (Hn & He & Hr & Hn0 & He0 & Hr0 & Hmail & Hrole & Hlen).
  destruct (body req) as [| | | | |items|props] eqn:Hbody; try done.
  assert (Hlookup : ∀ key s,
            get (VObject props) key = Normal (VString s) →
            lookup_prop key props = Some (VString s)).
  { intros key s H. simpl in H. by destruct (lookup_prop key props); simplify_eq. }
  rewrite (EndpointFacts.attempt_strings rt tpl relay env now emailAttempts
             req props name email role Hbody
             (Hlookup _ _ Hn) (Hlookup _ _ He) (Hlookup _ _ Hr) Hn0 He0 Hr0).
  cbv zeta. rewrite Hmail. simpl negb. cbv iota.
  rewrite bool_decide_eq_true_2 by done. simpl negb. cbv iota.
  rewrite (bool_decide_eq_false_2 (length (sanitizeInput name) < 2)%nat) by lia.
  rewrite (bool_decide_eq_false_2 (100 < length (sanitizeInput name))%nat) by lia.
  simpl orb. cbv iota.
  unfold recorded, transportOf, mailOf, ledgerKey.
  destruct (decide (3 ≤ length (recent now
                                  (attemptsOf emailAttempts
                                     (toLowerCase rt (sanitizeInput email)))))%nat).
  - rewrite RateLimiterFacts.isRateLimited_rejects by done. done.
  - rewrite RateLimiterFacts.isRateLimited_allows by lia. done.
Qed.

(** Every other request ends before the rate limiter: with an exception
    or with one of the four 400 responses, the ledger as it was. *)
Lemma attempt_stopped (req : Request) :
  (∃ name email role, Passes rt req name email role)
  ∨ ((∀ name email role, ¬ Passes rt req name email role)
     ∧ ((∃ e, attempt rt tpl relay env now req emailAttempts
              = (Throw e, emailAttempts))
        ∨ (∃ msg, msg ∈ rejections
                  ∧ attempt rt tpl relay env now req emailAttempts
                    = (Normal (400, errorBody msg), emailAttempts)))).
Proof.
  assert (Hmissing : "Missing required fields" ∈ rejections)
    by (unfold rejections; rewrite !elem_of_cons; tauto).
  destruct (body req) as [| |b|mantissa exponent|s|items|props] eqn:Hbody.
  1, 2: right; split;
    [intros ? ? ? (H & _); by rewrite Hbody in H
    | left; unfold attempt; rewrite Hbody; by eexists].
  1, 2, 3, 4: right; split;
    [intros ? ? ? (H & _); by rewrite Hbody in H
    | right; exists "Missing required fields";
      split; [done |]; unfold attempt; by rewrite Hbody].
  pose proof (EndpointFacts.attempt_fields req props Hbody) as Hfields.
  assert (Hget : ∀ key, get (body req) key
                        = Normal (default VUndefined (lookup_prop key props)))
    by (by rewrite Hbody).
  destruct (default VUndefined (lookup_prop (lit "name") props)) as [| | | |name| |]
    eqn:En;
  destruct (default VUndefined (lookup_prop (lit "email") props)) as [| | | |email| |]
    eqn:Ee;
  destruct (default VUndefined (lookup_prop (lit "role") props)) as [| | | |role| |]
    eqn:Er.
  all: try (right; split;
            [intros ? ? ? (H1 & H2 & H3 & _);
             rewrite Hget in H1, H2, H3; congruence |]).
  all: try (match goal with
            | |- _ ∨ _ =>
                unfold attempt; rewrite Hfields;
                match goal with
                | |- context [if ?c then _ else _] => destruct c eqn:Hfalsy
                end;
                [right; exists "Missing required fields"; by split
                | left; by eexists]
            end).
  destruct (decide (name = [] ∨ email = [] ∨ role = [])) as [Hempty|Hfull].
  { right. split.
    - intros ? ? ? (H1 & H2 & H3 & ? & ? & ? & _).
      rewrite Hget in H1, H2, H3.
      destruct Hempty as [-> | [-> | ->]]; congruence.
    - right. exists "Missing required fields". split; [done |].
      unfold attempt. rewrite Hfields.
      destruct Hempty as [-> | [-> | ->]]; simpl; by rewrite ?orb_true_r. }
  assert (Hlk : ∀ key s,
            default VUndefined (lookup_prop key props) = VString s →
            lookup_prop key props = Some (VString s)).
  { intros key s0 H.
    destruct (lookup_prop key props) as [v|]; simpl in H; [by subst | done]. }
  pose proof (EndpointFacts.attempt_strings rt tpl relay env now emailAttempts
                req props name email role Hbody
                (Hlk _ _ En) (Hlk _ _ Ee) (Hlk _ _ Er)
                ltac:(tauto) ltac:(tauto) ltac:(tauto)) as Hrun.
  cbv zeta in Hrun.
  assert (Honly : ∀ name' email' role',
            Passes rt req name' email' role' →
            name' = name ∧ email' = email ∧ role' = role).
  { intros ? ? ? (H1 & H2 & H3 & _). rewrite Hget in H1, H2, H3.
    split_and!; congruence. }
  destruct (Regex.test Regex.emailRegex (toLowerCase rt (sanitizeInput email)))
    eqn:Hmail.
  2:{ right. split.
      - intros ? ? ? HP. destruct (Honly _ _ _ HP) as (-> & -> & ->).
        destruct HP as (_ & _ & _ & _ & _ & _ & H & _). congruence.
      - right. exists "Invalid email format".
        split; [unfold rejections; rewrite !elem_of_cons; tauto | exact Hrun]. }
  destruct (bool_decide (sanitizeInput role ∈ [lit "artist"; lit "customer"]))
    eqn:Hrole.
  2:{ right. split.
      - intros ? ? ? HP. destruct (Honly _ _ _ HP) as (-> & -> & ->).
        destruct HP as (_ & _ & _ & _ & _ & _ & _ & H & _).
        by apply bool_decide_eq_false in Hrole.
      - right. exists "Invalid role".
        split; [unfold rejections; rewrite !elem_of_cons; tauto | exact Hrun]. }
  destruct (bool_decide (length (sanitizeInput name) < 2)%nat
            || bool_decide (100 < length (sanitizeInput name))%nat) eqn:Hlen.
  { right. split.
    - intros ? ? ? HP. destruct (Honly _ _ _ HP) as (-> & -> & ->).
      destruct HP as (_ & _ & _ & _ & _ & _ & _ & _ & H).
      apply orb_true_iff in Hlen as [H'%bool_decide_eq_true | H'%bool_decide_eq_true];
        lia.
    - right. exists "Invalid name length".
      split; [unfold rejections; rewrite !elem_of_cons; tauto | exact Hrun]. }
  left. exists name, email, role. unfold Passes. rewrite !Hget, En, Ee, Er.
  apply bool_decide_eq_true in Hrole.
  apply orb_false_iff in Hlen as [H2%bool_decide_eq_false H100%bool_decide_eq_false].
  split_and!; try done; try tauto; lia.
Qed.

(** The cases of the handler. *)
Lemma handler_table (req : Request) :
  Answers rt tpl relay env now emailAttempts req
    (handler rt tpl relay env now req emailAttempts).
Proof.
  unfold handler. fold (respond req).
  destruct (bool_decide (method req = lit "OPTIONS")) eqn:Hopt.
  { apply bool_decide_eq_true in Hopt. by apply preflight. }
  apply bool_decide_eq_false in Hopt.
  destruct (bool_decide (method req = lit "POST")) eqn:Hpost; simpl negb; cbv iota.
  2:{ apply bool_decide_eq_false in Hpost. by apply wrongMethod. }
  apply bool_decide_eq_true in Hpost.
  destruct (unset (SMTP_USER env) || unset (SMTP_PASS env)) eqn:Hcreds.
  { by apply unconfigured. }
  destruct (attempt_stopped req)
    as [(name & email & role & HP) | [Hno [[e He] | (msg & Hmsg & Hrej)]]].
  - rewrite (attempt_passed req name email role HP).
    destruct (isRateLimited now (ledgerKey rt email) emailAttempts).1 eqn:Hlim.
    + by eapply limited.
    + destruct (relay (transportOf env) (mailOf rt tpl env name email role))
        as [[]|e] eqn:Hrelay.
      * by eapply delivered.
      * by eapply relayFailed.
  - rewrite He. by apply crashed.
  - rewrite Hrej. by apply rejected.
Qed.


Lemma Passes_unique (req : Request) (name email role name' email' role' : jsstring) :
  Passes rt req name email role → Passes rt req name' email' role' →
  name' = name ∧ email' = email ∧ role' = role.
Proof.
  intros (H1 & H2 & H3 & _) (H1' & H2' & H3' & _).
  split_and!; congruence.
Qed.

(** X8. The response allows an origin exactly when the request came
    from one of the two origins of the site, and then it allows that
    origin only; this holds for every response, errors included. *)
Theorem handler_allows_only_site_origins (req : Request) (o : jsstring) :
  (lit "Access-Control-Allow-Origin", o)
    ∈ headers (handler rt tpl relay env now req emailAttempts).1
  ↔ origin req = Some o
    ∧ (o = lit "https://mimora.co.in" ∨ o = lit "https://www.mimora.co.in").
Proof.
  assert (Hheaders : headers (handler rt tpl relay env now req emailAttempts).1
                     = corsHeaders req)
    by (by destruct (handler_table req)).
  rewrite Hheaders. unfold corsHeaders, allowedOrigins.
  assert (Hrest : ∀ other value : jsstring,
            other ≠ lit "Access-Control-Allow-Origin" →
            (lit "Access-Control-Allow-Origin", o) ≠ (other, value))
    by (intros other value Hother [= H _]; by apply Hother).
  assert (Hsource : ∀ site, or_else (origin req) [] = site → site ≠ [] →
                            origin req = Some site).
  { intros site Hsite Hne. unfold or_else in Hsite.
    destruct (origin req) as [s|]; [| congruence].
    destruct (truthy_string s); congruence. }
  split.
  - intros [Hin | H]%elem_of_app.
    2:{ rewrite !elem_of_cons, elem_of_nil in H.
        destruct H as [H | [H | [H | []]]];
          exfalso; revert H; apply Hrest; by vm_compute. }
    case_bool_decide as Hallowed; [| by apply elem_of_nil in Hin].
    apply list_elem_of_singleton in Hin as [= ->].
    rewrite !elem_of_cons, elem_of_nil in Hallowed.
    split; [| tauto].
    apply Hsource; [done |].
    destruct Hallowed as [-> | [-> | []]]; by vm_compute.
  - intros [Horigin Hsite]. apply elem_of_app. left.
    assert (Hor : or_else (origin req) [] = o).
    { rewrite Horigin. destruct Hsite as [-> | ->]; by vm_compute. }
    rewrite Hor. rewrite bool_decide_eq_true_2.
    + by apply list_elem_of_singleton.
    + rewrite !elem_of_cons. tauto.
Qed.

(** X9. A 200 answer to anything but a preflight means that the message
    went out: the three fields were well-formed strings that passed
    every check, the address was under its limit, the relay accepted
    the message built from the sanitized fields, the body is the fixed
    success body and the attempt is on the ledger. *)
Theorem handler_ok_means_delivered (req : Request) :
  method req ≠ lit "OPTIONS" →
  status (handler rt tpl relay env now req emailAttempts).1 = 200 →
  ∃ name email role,
    Passes rt req name email role
    ∧ (isRateLimited now (ledgerKey rt email) emailAttempts).1 = false
    ∧ relay (transportOf env) (mailOf rt tpl env name email role) = Normal ()
    ∧ handler rt tpl relay env now req emailAttempts
      = (respond req 200 (Some Spec.successBody),
         recorded rt now email emailAttempts).
Proof.
  intros Hmethod.
  destruct (handler_table req); simpl; intros Hstatus; try done.
  by exists name, email, role.
Qed.

(** X10. Only a request that reaches the relay is counted: a request
    answered with 400, 405 or 429, a preflight, and a request stopped
    by the configuration check or by an exception before the limiter
    leave the ledger as it was; every other request passed all checks
    and leaves the ledger with its attempt added. *)
Theorem handler_counts_only_relayed_requests (req : Request) :
  let result := handler rt tpl relay env now req emailAttempts in
  (status result.1 ∈ [400; 405; 429] → result.2 = emailAttempts)
  ∧ (result.2 = emailAttempts
     ∨ ∃ name email role,
         Passes rt req name email role
         ∧ (isRateLimited now (ledgerKey rt email) emailAttempts).1 = false
         ∧ (status result.1 = 200 ∨ status result.1 = 500)
         ∧ result.2 = recorded rt now email emailAttempts).
Proof.
  cbv zeta.
  destruct (handler_table req); simpl; rewrite !elem_of_cons, elem_of_nil.
  1, 2, 3, 4, 5, 6: by (split; [done | left]).
  - split; [intros [|[|[|[]]]]; done |].
    right. exists name, email, role. split_and!; try done. by right.
  - split; [intros [|[|[|[]]]]; done |].
    right. exists name, email, role. split_and!; try done. by left.
Qed.

(** X11. A delivery that fails is counted all the same: when a request
    passes every check and the relay throws, the answer is 500 and the
    address has one more recent attempt on the ledger than before. *)
Theorem handler_counts_failed_delivery (req : Request)
    (name email role : jsstring) (e : thrown) :
  method req = lit "POST" →
  unset (SMTP_USER env) || unset (SMTP_PASS env) = false →
  Passes rt req name email role →
  (length (recent now (attemptsOf emailAttempts (ledgerKey rt email))) < 3)%nat →
  relay (transportOf env) (mailOf rt tpl env name email role) = Throw e →
  let result := handler rt tpl relay env now req emailAttempts in
  result.1 = respond req 500 (Some (failureBody rt env e))
  ∧ length (recent now (attemptsOf result.2 (ledgerKey rt email)))
    = S (length (recent now (attemptsOf emailAttempts (ledgerKey rt email)))).
Proof.
  intros Hpost Hcreds HP Hroom Hrelay. cbv zeta.
  assert (Hunder : (isRateLimited now (ledgerKey rt email) emailAttempts).1
                   = false)
    by (by rewrite RateLimiterFacts.isRateLimited_allows).
  destruct (handler_table req) as
    [Hm|Hm Hm'|Hm Hc|e' Hm Hc Hno|msg Hm Hc Hno Hmsg
    |name' email' role' Hm Hc HP' Hlim
    |name' email' role' e' Hm Hc HP' Hlim Hrelay'
    |name' email' role' Hm Hc HP' Hlim Hrelay'];
    try (destruct (Passes_unique req _ _ _ _ _ _ HP HP') as (-> & -> & ->));
    try congruence.
  - rewrite Hpost in Hm. by vm_compute in Hm.
  - by destruct (Hno _ _ _ HP).
  - by destruct (Hno _ _ _ HP).
  - simpl. split; [congruence |].
    unfold recorded. rewrite RateLimiterFacts.attemptsOf_insert.
    unfold recent at 1. rewrite filter_app. fold (recent now).
    rewrite filter_cons_True by lia. rewrite filter_nil.
    rewrite length_app. simpl.
    fold (recent now (recent now (attemptsOf emailAttempts (ledgerKey rt email)))).
    rewrite (RateLimiterFacts.recent_keeps_all now (recent now _))
      by apply RateLimiterFacts.recent_fresh.
    lia.
Qed.

(** X12. Outside development mode no response carries anything taken
    from the request or from an exception: the body is absent, the
    fixed success body, or an object whose only field is one of eight
    fixed error texts. *)
Theorem handler_bodies_are_fixed (req : Request) :
  NODE_ENV env ≠ Some (lit "development") →
  let content := payload (handler rt tpl relay env now req emailAttempts).1 in
  content = None
  ∨ content = Some Spec.successBody
  ∨ ∃ msg, msg ∈ errorTexts ∧ content = Some (errorBody msg).
Proof.
  intros Hmode. cbv zeta.
  assert (Hfailure : ∀ e, failureBody rt env e = errorBody "Failed to send email").
  { intros e. unfold failureBody, errorBody.
    rewrite bool_decide_eq_false_2 by done. by rewrite app_nil_r. }
  assert (Htexts : ∀ msg, msg ∈ rejections → msg ∈ errorTexts)
    by (intros msg H; unfold errorTexts; apply elem_of_app; by right).
  destruct (handler_table req); simpl; rewrite ?Hfailure.
  1: by left.
  7: by (right; left).
  all: right; right; eexists; split; [| reflexivity]; try by apply Htexts.
  all: unfold errorTexts; rewrite elem_of_app, !elem_of_cons; tauto.
Qed.

End Handler.

(** The example request passes every check of the handler. *)
Lemma example_passes :
  Passes Spec.exampleRuntime (Spec.exampleRequest "POST" "artist")
    (lit "Jo") (lit "jo@x.com") (lit "artist").
Proof.
  unfold Passes. split_and!; try by vm_compute.
  - apply elem_of_cons. left. by vm_compute.
  - vm_compute. lia.
Defined.

Lemma handler_ok_means_delivered_witness :
  method (Spec.exampleRequest "POST" "artist") ≠ lit "OPTIONS"
  ∧ status (handler Spec.exampleRuntime Spec.exampleTemplate (λ _ _, Normal ())
              Spec.exampleEnv 1700000000000
              (Spec.exampleRequest "POST" "artist") ∅).1 = 200
  ∧ ∃ name email role,
      Passes Spec.exampleRuntime (Spec.exampleRequest "POST" "artist")
        name email role
      ∧ (isRateLimited 1700000000000 (ledgerKey Spec.exampleRuntime email) ∅).1
        = false
      ∧ (λ _ _, Normal ()) (transportOf Spec.exampleEnv)
          (mailOf Spec.exampleRuntime Spec.exampleTemplate Spec.exampleEnv
             name email role) = Normal ()
      ∧ handler Spec.exampleRuntime Spec.exampleTemplate (λ _ _, Normal ())
          Spec.exampleEnv 1700000000000 (Spec.exampleRequest "POST" "artist") ∅
        = (respond (Spec.exampleRequest "POST" "artist") 200
             (Some Spec.successBody),
           recorded Spec.exampleRuntime 1700000000000 email ∅).
Proof.
  assert (Hmethod : method (Spec.exampleRequest "POST" "artist") ≠ lit "OPTIONS")
    by (by vm_compute).
  assert (Hstatus :
            status (handler Spec.exampleRuntime Spec.exampleTemplate
                      (λ _ _, Normal ()) Spec.exampleEnv 1700000000000
                      (Spec.exampleRequest "POST" "artist") ∅).1 = 200)
    by (by vm_compute).
  split; [exact Hmethod |]. split; [exact Hstatus |].
  exact (handler_ok_means_delivered Spec.exampleRuntime Spec.exampleTemplate
           (λ _ _, Normal ()) Spec.exampleEnv 1700000000000 ∅
           (Spec.exampleRequest "POST" "artist") Hmethod Hstatus).
Defined.

Lemma handler_counts_failed_delivery_witness :
  (handler Spec.exampleRuntime Spec.exampleTemplate relayDown Spec.exampleEnv
     1700000000000 (Spec.exampleRequest "POST" "artist") ∅).1
  = respond (Spec.exampleRequest "POST" "artist") 500
      (Some (failureBody Spec.exampleRuntime Spec.exampleEnv
               (ErrorObject (lit "ECONNREFUSED"))))
  ∧ length (recent 1700000000000
              (attemptsOf
                 (handler Spec.exampleRuntime Spec.exampleTemplate relayDown
                    Spec.exampleEnv 1700000000000
                    (Spec.exampleRequest "POST" "artist") ∅).2
                 (ledgerKey Spec.exampleRuntime (lit "jo@x.com"))))
    = S (length (recent 1700000000000
                   (attemptsOf ∅ (ledgerKey Spec.exampleRuntime (lit "jo@x.com"))))).
Proof.
  apply (handler_counts_failed_delivery Spec.exampleRuntime Spec.exampleTemplate
           relayDown Spec.exampleEnv 1700000000000 ∅
           (Spec.exampleRequest "POST" "artist")
           (lit "Jo") (lit "jo@x.com") (lit "artist")
           (ErrorObject (lit "ECONNREFUSED"))).
  - reflexivity.
  - reflexivity.
  - exact example_passes.
  - vm_compute. lia.
  - reflexivity.
Defined.

Lemma handler_bodies_are_fixed_witness :
  NODE_ENV Spec.exampleEnv ≠ Some (lit "development")
  ∧ (payload (handler Spec.exampleRuntime Spec.exampleTemplate relayDown
                Spec.exampleEnv 1700000000000
                (Spec.exampleRequest "POST" "artist") ∅).1 = None
     ∨ payload (handler Spec.exampleRuntime Spec.exampleTemplate relayDown
                  Spec.exampleEnv 1700000000000
                  (Spec.exampleRequest "POST" "artist") ∅).1
       = Some Spec.successBody
     ∨ ∃ msg, msg ∈ errorTexts
              ∧ payload (handler Spec.exampleRuntime Spec.exampleTemplate
                           relayDown Spec.exampleEnv 1700000000000
                           (Spec.exampleRequest "POST" "artist") ∅).1
                = Some (errorBody msg)).
Proof.
  assert (Hmode : NODE_ENV Spec.exampleEnv ≠ Some (lit "development"))
    by (by vm_compute).
  split; [exact Hmode |].
  exact (handler_bodies_are_fixed Spec.exampleRuntime Spec.exampleTemplate
           relayDown Spec.exampleEnv 1700000000000 ∅
           (Spec.exampleRequest "POST" "artist") Hmode).
Defined.

Lemma handler_counts_only_relayed_requests_witness :
  (status (handler Spec.exampleRuntime Spec.exampleTemplate relayDown
             Spec.exampleEnv 1700000000000
             (Spec.exampleRequest "POST" "manager") ∅).1 ∈ [400; 405; 429] →
   (handler Spec.exampleRuntime Spec.exampleTemplate relayDown
      Spec.exampleEnv 1700000000000
      (Spec.exampleRequest "POST" "manager") ∅).2 = ∅)
  ∧ status (handler Spec.exampleRuntime Spec.exampleTemplate relayDown
              Spec.exampleEnv 1700000000000
              (Spec.exampleRequest "POST" "manager") ∅).1 = 400.
Proof.
  split; [| by vm_compute].
  exact (proj1 (handler_counts_only_relayed_requests Spec.exampleRuntime
                  Spec.exampleTemplate relayDown Spec.exampleEnv 1700000000000
                  ∅ (Spec.exampleRequest "POST" "manager"))).
Defined.

End EndpointMore.

(* ================================================================== *)
(** * More on the validator and the cache of the slider *)
(* ================================================================== *)

Module WaitlistMore.

Import JS Regex Waitlist.

(** A text whose trim is empty is made of white space, and conversely. *)
Lemma trim_empty (s : jsstring) :
  trim s = [] ↔ Forall (λ c, isWhiteSpace c = true) s.
Proof.
  split.
  - intros Hempty.
    destruct (JSFacts.trim_is_trim s) as (l & r & Hs & Hl & Hr & _).
    rewrite Hempty in Hs. rewrite Hs. simpl. by apply Forall_app.
  - intros Hall. apply JSFacts.trim_unique.
    exists s, []. rewrite app_nil_r. split_and!; done.
Qed.

Lemma power_class (cls : N → bool) (n : nat) (s : jsstring) :
  Matches (power (Class cls) n) s
  ↔ length s = n ∧ Forall (λ c, cls c = true) s.
Proof.
  revert s. induction n as [|n IH]; intros s; simpl.
  - split.
    + intros ->%RegexFacts.eps_inv. done.
    + intros [Hlen _]. destruct s; [constructor | done].
  - split.
    + intros (s1 & s2 & -> & (c & -> & Hc)%RegexFacts.class_inv
              & [Hlen Hall]%IH)%RegexFacts.seq_inv.
      simpl. split; [by rewrite Hlen | by constructor].
    + intros [Hlen Hall]. destruct s as [|c s]; [done |].
      apply Forall_cons in Hall as [Hc Hall].
      apply (MSeq _ _ [c] s); [by constructor |].
      apply IH. split; [| done]. simpl in Hlen. lia.
Qed.

Lemma power_opt_class (cls : N → bool) (n : nat) (s : jsstring) :
  Matches (power (opt (Class cls)) n) s
  ↔ length s ≤ n ∧ Forall (λ c, cls c = true) s.
Proof.
  revert s. induction n as [|n IH]; intros s; simpl.
  - split.
    + intros ->%RegexFacts.eps_inv. done.
    + intros [Hlen _]. destruct s; [constructor | simpl in Hlen; lia].
  - split.
    + intros (s1 & s2 & -> & Hfirst & [Hlen Hall]%IH)%RegexFacts.seq_inv.
      apply RegexFacts.alt_inv in Hfirst
        as [->%RegexFacts.eps_inv | (c & -> & Hc)%RegexFacts.class_inv].
      * simpl. split; [lia | done].
      * simpl. split; [lia | by constructor].
    + intros [Hlen Hall]. destruct s as [|c s].
      * apply (MSeq _ _ [] []); [apply MAltL; constructor |].
        apply IH. split; [simpl; lia | done].
      * apply Forall_cons in Hall as [Hc Hall].
        apply (MSeq _ _ [c] s); [apply MAltR; by constructor |].
        apply IH. split; [| done]. simpl in Hlen. lia.
Qed.

(** [cls{lo,hi}]. *)
Lemma repeat_range_class (cls : N → bool) (lo hi : nat) (s : jsstring) :
  lo ≤ hi →
  Matches (repeat_range (Class cls) lo hi) s
  ↔ lo ≤ length s ≤ hi ∧ Forall (λ c, cls c = true) s.
Proof.
  intros Hrange. unfold repeat_range. split.
  - intros (s1 & s2 & -> & [Hlen1 Hall1]%power_class
            & [Hlen2 Hall2]%power_opt_class)%RegexFacts.seq_inv.
    rewrite length_app. split; [lia | by apply Forall_app].
  - intros [Hlen Hall]. rewrite <- (take_drop lo s).
    rewrite <- (take_drop lo s) in Hall. apply Forall_app in Hall as [H1 H2].
    constructor.
    + apply power_class. split; [| done]. rewrite length_take. lia.
    + apply power_opt_class. split; [| done]. rewrite length_drop. lia.
Qed.

Lemma phoneRegex_shape (s : jsstring) :
  test phoneRegex s = true ↔
  ∃ sign rest,
    s = sign ++ rest
    ∧ (sign = [] ∨ sign = lit "+")
    ∧ 7 ≤ length rest ≤ 15
    ∧ Forall (λ c, phoneClass c = true) rest.
Proof.
  rewrite RegexFacts.test_matches. unfold phoneRegex. split.
  - intros (sign & rest & -> & Hsign & Hrest)%RegexFacts.seq_inv.
    apply repeat_range_class in Hrest as [Hlen Hall]; [| lia].
    exists sign, rest. split_and!; try done; try lia.
    apply RegexFacts.alt_inv in Hsign
      as [->%RegexFacts.eps_inv | (c & -> & Hc)%RegexFacts.class_inv].
    + by left.
    + right. apply N.eqb_eq in Hc as ->. done.
  - intros (sign & rest & -> & Hsign & Hlen & Hall).
    constructor.
    + destruct Hsign as [-> | ->].
      * apply MAltL. constructor.
      * apply MAltR. by constructor.
    + apply repeat_range_class; [lia | done].
Qed.

(** X13. The email rule of [validate]. The address passes exactly when
    it reads [local@domain.tld] with three non-empty parts free of white
    space and of [@]; it is tested as typed, not trimmed, so white space
    anywhere, also at an end, is an error; the "required" message is for
    an address of white space only. *)
Theorem validate_email_rule (data : FormData.t) :
  (FormErrors.email (validate data) = None ↔
   ∃ local domain tld,
     FormData.email data = local ++ lit "@" ++ domain ++ lit "." ++ tld
     ∧ local ≠ [] ∧ domain ≠ [] ∧ tld ≠ []
     ∧ Forall (λ c, notSpaceNorAt c = true) (local ++ domain ++ tld))
  ∧ (FormErrors.email (validate data) = Some (lit "Email is required") ↔
     Forall (λ c, isWhiteSpace c = true) (FormData.email data))
  ∧ (∀ c, c ∈ FormData.email data → isWhiteSpace c = true →
          is_Some (FormErrors.email (validate data))).
Proof.
  assert (Hunfold : FormErrors.email (validate data)
            = if negb (truthy_string (trim (FormData.email data)))
              then Some (lit "Email is required")
              else if negb (test emailRegex (FormData.email data))
              then Some (lit "Enter a valid email address")
              else None) by done.
  assert (Hshape : test emailRegex (FormData.email data) = true →
                   ¬ Forall (λ c, isWhiteSpace c = true) (FormData.email data)).
  { intros (local & domain & tld & -> & Hl & _ & _ & Hall)%RegexFacts.emailRegex_shape
           Hwhite.
    destruct local as [|c local]; [done |].
    apply Forall_cons in Hall as [Hc _]. apply Forall_cons in Hwhite as [Hw _].
    unfold notSpaceNorAt in Hc. rewrite Hw in Hc. done. }
  assert (Hblank : truthy_string (trim (FormData.email data)) = false
                   ↔ Forall (λ c, isWhiteSpace c = true) (FormData.email data)).
  { rewrite <- trim_empty. by destruct (trim (FormData.email data)). }
  rewrite Hunfold, <- RegexFacts.emailRegex_shape. split_and!.
  - destruct (truthy_string (trim (FormData.email data))) eqn:Htrim; simpl.
    + destruct (test emailRegex (FormData.email data)); simpl; split; done.
    + split; [done |]. intros Htest. destruct (Hshape Htest). by apply Hblank.
  - destruct (truthy_string (trim (FormData.email data))) eqn:Htrim; simpl.
    + split.
      * destruct (test emailRegex (FormData.email data)); simpl;
          first [done | intros [= H]; by vm_compute in H].
      * intros Hwhite%Hblank. done.
    + split; [intros _; by apply Hblank | done].
  - intros c Hin Hc.
    destruct (truthy_string (trim (FormData.email data))); simpl; [| by eexists].
    destruct (test emailRegex (FormData.email data)) eqn:Htest; simpl;
      [| by eexists].
    apply RegexFacts.emailRegex_shape in Htest
      as (local & domain & tld & Heq & _ & _ & _ & Hall).
    rewrite Heq in Hin. rewrite !Forall_app in Hall.
    destruct Hall as (Hl & Hd & Ht). rewrite Forall_forall in Hl, Hd, Ht.
    rewrite !elem_of_app in Hin.
    assert (Hno : notSpaceNorAt c = true).
    { destruct Hin as [Hin | [Hin | [Hin | [Hin | Hin]]]];
        [by apply Hl | | by apply Hd | | by apply Ht].
      - apply list_elem_of_singleton in Hin as ->. by vm_compute in Hc.
      - apply list_elem_of_singleton in Hin as ->. by vm_compute in Hc. }
    unfold notSpaceNorAt in Hno. rewrite Hc in Hno. done.
Qed.

(** X14. The phone rule of [validate]. The number passes exactly when,
    once trimmed, it is an optional [+] followed by 7 to 15 code units
    that are each a digit, white space, a hyphen or a parenthesis; the
    "required" message is for a number of white space only. *)
Theorem validate_phone_rule (data : FormData.t) :
  (FormErrors.phone (validate data) = None ↔
   ∃ sign rest,
     trim (FormData.phone data) = sign ++ rest
     ∧ (sign = [] ∨ sign = lit "+")
     ∧ 7 ≤ length rest ≤ 15
     ∧ Forall (λ c, isDigit c = true ∨ isWhiteSpace c = true
                    ∨ c = 45%N ∨ c = 40%N ∨ c = 41%N) rest)
  ∧ (FormErrors.phone (validate data) = Some (lit "Phone number is required") ↔
     Forall (λ c, isWhiteSpace c = true) (FormData.phone data)).
Proof.
  assert (Hunfold : FormErrors.phone (validate data)
            = if negb (truthy_string (trim (FormData.phone data)))
              then Some (lit "Phone number is required")
              else if negb (test phoneRegex (trim (FormData.phone data)))
              then Some (lit "Enter a valid phone number")
              else None) by done.
  assert (Hclass : ∀ c, phoneClass c = true
                        ↔ isDigit c = true ∨ isWhiteSpace c = true
                          ∨ c = 45%N ∨ c = 40%N ∨ c = 41%N).
  { intros c. unfold phoneClass.
    change (isChar "-" c) with (c =? 45)%N.
    change (isChar "(" c) with (c =? 40)%N.
    change (isChar ")" c) with (c =? 41)%N.
    rewrite !orb_true_iff, !N.eqb_eq. tauto. }
  assert (Hshape : test phoneRegex (trim (FormData.phone data)) = true ↔
            ∃ sign rest,
              trim (FormData.phone data) = sign ++ rest
              ∧ (sign = [] ∨ sign = lit "+")
              ∧ 7 ≤ length rest ≤ 15
              ∧ Forall (λ c, isDigit c = true ∨ isWhiteSpace c = true
                             ∨ c = 45%N ∨ c = 40%N ∨ c = 41%N) rest).
  { rewrite phoneRegex_shape.
    split; intros (sign & rest & H1 & H2 & H3 & H4); exists sign, rest;
      split_and!; try done; try lia;
      eapply Forall_impl; [exact H4 | | exact H4 |]; intros c; apply Hclass. }
  rewrite Hunfold, <- Hshape, <- trim_empty.
  assert (Hnone : test phoneRegex [] = false) by (by vm_compute).
  destruct (trim (FormData.phone data)) as [|c t] eqn:Htrim.
  - rewrite Hnone. cbn [negb truthy_string]. done.
  - destruct (test phoneRegex (c :: t)); cbn [negb truthy_string].
    + done.
    + split; [done |].
      split; first [done | intros [= H]; by vm_compute in H].
Qed.

End WaitlistMore.

(* ================================================================== *)
(** * Facts about the form of the slider *)
(* ================================================================== *)

Module SliderFacts.

Import JS Waitlist Slider.

(** Every message of [validate] is a non-empty text. *)
Lemma validate_messages_truthy (data : FormData.t) (field : Field)
    (message : jsstring) :
  errorAt field (validate data) = Some message → truthy_string message = true.
Proof.
  destruct field; unfold validate; cbn [errorAt FormErrors.name FormErrors.email
    FormErrors.phone FormErrors.category];
    repeat match goal with
           | |- context [if ?c then _ else _] => destruct c
           | |- context [match ?c with artist => _ | _ => _ end] => destruct c
           end;
    intros [= <-]; done.
Qed.

(** Each rule of [validate] reads its own field only. *)
Lemma validate_reads_own_field (c : Change) (data : FormData.t) (field : Field) :
  sameField field (fieldOf c) = false →
  errorAt field (validate (assign c data)) = errorAt field (validate data).
Proof. destruct c, field; done. Qed.

Lemma validate_of_assigned (c : Change) (data data' : FormData.t) :
  errorAt (fieldOf c) (validate (assign c data))
  = errorAt (fieldOf c) (validate (assign c data')).
Proof. destruct c; done. Qed.

Lemma validate_picked (p : Pick) (data : FormData.t) :
  errorAt category (validate (assign (categoryTo p) data)) = None.
Proof. by destruct p. Qed.

Lemma errorAt_withError (field field' : Field) (message : option jsstring)
    (e : FormErrors.t) :
  errorAt field (withError field' message e)
  = if sameField field field' then message else errorAt field e.
Proof. destruct field, field'; done. Qed.

Lemma sameField_refl (field : Field) : sameField field field = true.
Proof. by destruct field. Qed.

(** The state that [handleSubmit] leaves: every field touched, the
    errors of the form as it is, the form itself as it was. *)
Lemma handleSubmit_state (browser : Browser) (s : State) (store : Storage) :
  let s' := (handleSubmit browser s store).1.2 in
  formData s' = formData s
  ∧ errors s' = validate (formData s)
  ∧ touched s' = (λ _, true).
Proof.
  cbv zeta. unfold handleSubmit. cbn [setTouched setErrors formData].
  destruct (bool_decide _); [done |].
  cbn [setIsSubmitting formData].
  destruct (submitToHubSpot _ _ _) as [[]|e]; [| | done];
    cbn [setIsSubmitting formData FormData.name FormData.email];
    destruct (storeSubmission _ _ _ _) as [[[]|e] store']; done.
Qed.

Lemma onOpen_state (store : Storage) (s : State) :
  ∃ s', onOpen store s = Normal s'
        ∧ formData s' = formData s ∧ errors s' = errors s
        ∧ touched s' = touched s.
Proof.
  unfold onOpen.
  destruct (WaitlistFacts.getStoredSubmission_total store) as [v ->].
  simpl. destruct (truthy v); by eexists.
Qed.

Lemma step_consistent (σ : State * Storage) (e : Event) :
  Consistent σ.1 → Consistent (step σ e).1.
Proof.
  destruct σ as [s store]. cbn [fst snd]. intros H field.
  destruct e as [c|blurred|p|browser| |]; cbn [step fst snd].
  - unfold handleChange.
    destruct (touched s (fieldOf c)) eqn:Htouched;
      cbn [setFormData setErrors errors touched formData].
    + rewrite errorAt_withError.
      destruct (sameField field (fieldOf c)) eqn:Hsame.
      * assert (field = fieldOf c) as -> by (by destruct field, c).
        by rewrite Htouched.
      * rewrite validate_reads_own_field by done. apply H.
    + destruct (sameField field (fieldOf c)) eqn:Hsame.
      * assert (field = fieldOf c) as -> by (by destruct field, c).
        rewrite Htouched. rewrite H, Htouched. done.
      * rewrite validate_reads_own_field by done. apply H.
  - unfold handleBlur. cbn [setTouched setErrors errors touched formData].
    rewrite errorAt_withError. unfold withTouched.
    destruct (sameField field blurred) eqn:Hsame; [| apply H].
    by assert (field = blurred) as -> by (by destruct field, blurred).
  - unfold selectCategory, handleChange. cbn [fieldOf].
    destruct (touched s category) eqn:Htouched;
      cbn [setFormData setErrors setTouched errors touched formData];
      unfold withTouched.
    + rewrite errorAt_withError.
      destruct (sameField field category) eqn:Hsame.
      * assert (field = category) as -> by (by destruct field).
        by rewrite !validate_picked.
      * rewrite (validate_reads_own_field (categoryTo p)) by done. apply H.
    + destruct (sameField field category) eqn:Hsame.
      * assert (field = category) as -> by (by destruct field).
        rewrite validate_picked, H, Htouched. done.
      * rewrite (validate_reads_own_field (categoryTo p)) by done. apply H.
  - destruct (handleSubmit_state browser s store) as (Hdata & Herrors & Htouched).
    by rewrite Hdata, Herrors, Htouched.
  - by destruct field.
  - destruct (onOpen_state store s) as (s' & -> & Hdata & Herrors & Htouched).
    rewrite Hdata, Herrors, Htouched. apply H.
Qed.

Lemma run_consistent (events : list Event) (σ : State * Storage) :
  Consistent σ.1 → Consistent (run events σ).1.
Proof.
  revert σ. induction events as [|e events IH]; intros σ H; [done |].
  apply IH. by apply step_consistent.
Qed.

(** X15. While every handler runs on the state it was rendered for,
    and events are handled one at a time, the message shown under a
    field is the verdict of [validate] on the
    form as it is, once the field has been touched, and nothing before:
    no stale message stays, no field is marked before the user left it
    or submitted. *)
Theorem shown_errors_follow_the_form (events : list Event) (store : Storage)
    (field : Field) :
  let s := (run events (initial, store)).1 in
  shown field s
  = if touched s field then errorAt field (validate (formData s)) else None.
Proof.
  cbv zeta.
  pose proof (run_consistent events (initial, store)) as H.
  specialize (H ltac:(by intros [])). specialize (H field).
  unfold shown. rewrite H.
  destruct (touched (run events (initial, store)).1 field); [| done].
  destruct (errorAt field (validate (formData (run events (initial, store)).1)))
    as [message|] eqn:Hmessage; [| done].
  by rewrite (validate_messages_truthy _ _ _ Hmessage).
Qed.

(** X16. The timer of the category button validates the form of the
    render in which the button lost focus. When an option is picked
    before the timer fires, as happens when the option is clicked, the
    timer still reports a missing category: the message shows although
    the category is set and [validate] has no complaint about it. *)
Theorem late_category_timer_reports_missing_category (s : State) (p : Pick) :
  FormData.category (formData s) = unselected →
  let s' := handleBlur s category (selectCategory s p s) in
  FormData.category (formData s') = picked p
  ∧ errorAt category (validate (formData s')) = None
  ∧ shown category s' = Some (lit "Please select a category").
Proof.
  intros Hunselected. cbv zeta.
  unfold handleBlur, selectCategory, handleChange. cbn [fieldOf].
  destruct (touched s category);
    cbn [setFormData setErrors setTouched errors touched formData];
    unfold shown; cbn [setErrors errors touched];
    rewrite errorAt_withError; cbn [sameField];
    unfold validate at 2; cbn [errorAt FormErrors.category];
    rewrite Hunselected; unfold withTouched; cbn [sameField];
    (split_and!; [by destruct p | by destruct p | done]).
Qed.

Lemma late_category_timer_reports_missing_category_witness :
  FormData.category (formData initial) = unselected
  ∧ shown category (handleBlur initial category
                      (selectCategory initial pickArtist initial))
    = Some (lit "Please select a category").
Proof.
  split; [reflexivity |].
  apply (late_category_timer_reports_missing_category initial pickArtist).
  reflexivity.
Defined.

(** The greeting reads the cached value as it is. *)
Lemma greetedName_of_string (stored : value) (text : jsstring) :
  get stored (lit "name") = Normal (VString text) →
  ∃ first rest,
    greetedName stored = Normal (VString first)
    ∧ text = first ++ rest
    ∧ Forall (λ c, c ≠ 32%N) first
    ∧ (rest = [] ∨ head rest = Some 32%N).
Proof.
  intros Hname. unfold greetedName. rewrite Hname. simpl.
  destruct (SanitizeMore.split_head 32 text)
    as (piece & pieces & rest & Hsplit & Htext & Hpiece & Hrest).
  exists piece, rest. rewrite Hsplit. done.
Qed.

(** X17. Submit, close, open again: after a submit of a form that
    [validate] accepts, with storage taking the write, the next opening
    shows the already-joined view over an emptied form, greeting with
    the text of the submitted name up to its first space and with the
    submitted email, both as typed. *)
Theorem reopened_slider_greets_submitter (browser : Browser) (s : State)
    (items : gmap (list N) (list N)) :
  FormErrors.keys (validate (formData s)) = 0 →
  let s' := (run [Submitted browser; Closed; Opened] (s, Open items None)).1 in
  display s' = AlreadyJoined
  ∧ formData s' = blank
  ∧ get (alreadyJoined s') (lit "email")
    = Normal (VString (FormData.email (formData s)))
  ∧ ∃ first rest,
      greetedName (alreadyJoined s') = Normal (VString first)
      ∧ FormData.name (formData s) = first ++ rest
      ∧ Forall (λ c, c ≠ 32%N) first
      ∧ (rest = [] ∨ head rest = Some 32%N).
Proof.
  intros Hvalid. cbv zeta.
  assert (Hsubmit : ∃ s1,
            handleSubmit browser s (Open items None)
            = (Normal (), s1,
               Open (<[WAITLIST_STORAGE_KEY := cacheText browser s]> items) None)).
  { unfold handleSubmit. cbn [setTouched setErrors setIsSubmitting formData].
    rewrite bool_decide_eq_false_2 by lia.
    destruct (WaitlistFacts.submitToHubSpot_total (network browser)
                (href browser) (formData s)) as [ok ->].
    destruct ok; by eexists. }
  destruct Hsubmit as [s1 Hsubmit].
  unfold run. cbn [foldl step fst snd]. rewrite Hsubmit. cbn [fst snd].
  destruct (ControllerFacts.reopen_after_submit browser s (resetAfterClose s1)
              items) as [Hread _].
  unfold onOpen. rewrite Hread. simpl mbind. cbn [truthy].
  set (stored := VObject _).
  assert (Hname : get stored (lit "name")
                  = Normal (VString (FormData.name (formData s)))) by done.
  split_and!; [done | done | done |].
  apply greetedName_of_string. exact Hname.
Qed.

Lemma reopened_slider_greets_submitter_witness :
  FormErrors.keys (validate (formData Spec.exampleState)) = 0
  ∧ display (run [Submitted (Spec.exampleBrowser Spec.unreachable); Closed; Opened]
               (Spec.exampleState, Open ∅ None)).1 = AlreadyJoined.
Proof.
  split; [by vm_compute |].
  apply (reopened_slider_greets_submitter (Spec.exampleBrowser Spec.unreachable)
           Spec.exampleState ∅).
  by vm_compute.
Defined.

(** X18. The already-joined view trusts the cache. Whatever truthy value
    the cache parses to is taken as a submission; the name of the
    greeting is computed exactly when that value has a string [name],
    and otherwise the expression throws while rendering. *)
Theorem greeting_needs_a_string_name (store : Storage) (s : State) (stored : value) :
  getStoredSubmission store = Normal stored → truthy stored = true →
  ∃ s', onOpen store s = Normal s'
        ∧ display s' = AlreadyJoined
        ∧ ((∃ first, greetedName (alreadyJoined s') = Normal first)
           ↔ ∃ text, get stored (lit "name") = Normal (VString text)).
Proof.
  intros Hread Htruthy. exists (setAlreadyJoined stored s).
  split; [unfold onOpen; rewrite Hread; simpl; by rewrite Htruthy |].
  unfold display. cbn [setAlreadyJoined alreadyJoined]. rewrite Htruthy.
  split; [reflexivity |]. split.
  - intros [first Hfirst]. unfold greetedName in Hfirst.
    destruct (get stored (lit "name")) as [[| | | |text| |]|e]; try done.
    by exists text.
  - intros [text Htext].
    destruct (greetedName_of_string stored text Htext) as (first & _ & H & _).
    by eexists.
Qed.

Lemma greeting_needs_a_string_name_witness :
  ∃ s', onOpen namelessStore initial = Normal s'
        ∧ display s' = AlreadyJoined
        ∧ ((∃ first, greetedName (alreadyJoined s') = Normal first)
           ↔ ∃ text, get (VBool true) (lit "name") = Normal (VString text)).
Proof.
  apply (greeting_needs_a_string_name namelessStore initial (VBool true)).
  - by vm_compute.
  - reflexivity.
Defined.

(** X19. What [storeSubmission] writes, [getStoredSubmission] reads
    back: for every name, email and clock text, also with quotes,
    backslashes or control characters in them, a write that storage
    takes replaces whatever the key held and is read as the record of
    these three strings; a write that storage refuses changes nothing. *)
Theorem stored_submission_is_read_back (submittedAt name email : jsstring)
    (store : Storage) :
  match storeSubmission submittedAt name email store with
  | (Normal _, store') =>
      getStoredSubmission store'
      = Normal (VObject [(lit "name", VString name);
                         (lit "email", VString email);
                         (lit "submittedAt", VString submittedAt)])
      ∧ ∃ items, store = Open items None
  | (Throw _, store') => store' = store
  end.
Proof.
  unfold storeSubmission.
  destruct store as [e|items [e|]]; cbn [setItem]; [done | done |].
  split; [| by eexists].
  set (text := Json.stringify_record _).
  assert (Hne : text ≠ []) by done.
  rewrite (WaitlistFacts.getStoredSubmission_open _ _ text)
    by (apply lookup_insert_eq || done).
  unfold text. rewrite JsonFacts.parse_stringify_record. reflexivity.
Qed.

(** X22. What a submit can and cannot do. It never leaves the form in
    the submitting state, because [submitToHubSpot] never rejects; it
    turns the success flag on only after the cache took the record of a
    form that [validate] accepts; and it touches the cache in no other
    case. *)
Theorem handleSubmit_succeeds_only_after_caching
    (browser : Browser) (s : State) (store : Storage) :
  let result := handleSubmit browser s store in
  (isSubmitting s = false → isSubmitting result.1.2 = false)
  ∧ (isSuccess result.1.2 = true →
     isSuccess s = true
     ∨ (FormErrors.keys (validate (formData s)) = 0
        ∧ ∃ items,
            store = Open items None
            ∧ result.2
              = Open (<[WAITLIST_STORAGE_KEY := cacheText browser s]> items) None))
  ∧ (result.2 = store
     ∨ (FormErrors.keys (validate (formData s)) = 0
        ∧ isSuccess result.1.2 = true)).
Proof.
  cbv zeta. unfold handleSubmit.
  cbn [setTouched setErrors setIsSubmitting formData].
  case_bool_decide as Hkeys.
  { cbn. split_and!; [done | by left | by left]. }
  assert (Hvalid : FormErrors.keys (validate (formData s)) = 0) by lia.
  destruct (WaitlistFacts.submitToHubSpot_total (network browser)
              (href browser) (formData s)) as [ok ->].
  unfold storeSubmission, cacheText.
  destruct ok, store as [e|items [e|]]; cbn;
    (split_and!; [done | | ]); first [by left | right; split; [done |]];
    first [done | by eexists].
Qed.

Lemma handleSubmit_succeeds_only_after_caching_witness :
  isSubmitting Spec.exampleState = false
  ∧ isSubmitting (handleSubmit (Spec.exampleBrowser Spec.unreachable)
                    Spec.exampleState (Blocked NotAnError)).1.2 = false.
Proof.
  split; [reflexivity |].
  apply (handleSubmit_succeeds_only_after_caching
           (Spec.exampleBrowser Spec.unreachable) Spec.exampleState
           (Blocked NotAnError)).
  reflexivity.
Defined.

End SliderFacts.

(* ================================================================== *)
(** * Facts about the mail service in front of the endpoint *)
(* ================================================================== *)

Module DeploymentFacts.

Import JS RateLimiter Endpoint Net EmailService Delivery Deployment.

Local Open Scope Z_scope.

Lemma errorTexts_truthy (msg : string) :
  msg ∈ errorTexts → truthy (VString (lit msg)) = true.
Proof.
  unfold errorTexts, rejections. rewrite elem_of_app, !elem_of_cons, !elem_of_nil.
  intros [[-> | [-> | [-> | [-> | []]]]] | [-> | [-> | [-> | [-> | []]]]]]; done.
Qed.

(** The client on an error response of the handler. *)
Lemma client_on_failure (rt : Runtime) (network : Network)
    (params : SendEmailParams) (code : Z) (content : value) (msg : string) :
  network (emailRequest params)
  = Normal {| responseStatus := code; json := Normal content |} →
  ¬ (200 ≤ code ≤ 299)%Z →
  get content (lit "error") = Normal (VString (lit msg)) →
  msg ∈ errorTexts →
  sendWelcomeEmail rt network params
  = Normal {| success := false; message := VUndefined;
              error := Some (lit msg) |}.
Proof.
  intros Hnet Hcode Hget Hmsg. unfold sendWelcomeEmail. rewrite Hnet.
  cbn [mbind completion_bind json]. unfold ok. cbn [responseStatus].
  rewrite bool_decide_eq_false_2 by done. cbn [negb]. rewrite Hget.
  cbn [mbind completion_bind]. by rewrite (errorTexts_truthy msg Hmsg).
Qed.

Lemma client_on_success (rt : Runtime) (network : Network)
    (params : SendEmailParams) :
  network (emailRequest params)
  = Normal {| responseStatus := 200; json := Normal Spec.successBody |} →
  sendWelcomeEmail rt network params
  = Normal {| success := true;
              message := VString (lit "Email sent successfully");
              error := None |}.
Proof. intros Hnet. unfold sendWelcomeEmail. rewrite Hnet. done. Qed.

(** X20. The client in front of this handler. [sendWelcomeEmail] reports
    success exactly when the handler answered 200, then with the
    handler's message; every failure it reports carries one of the
    handler's fixed error texts, in development mode too, where the
    [details] of the handler are not read. *)
Theorem sendWelcomeEmail_reports_handler_verdict
    (rt : Runtime) (tpl : TemplateText) (relay : Relay) (env : Env) (now : Z)
    (site : option jsstring) (emailAttempts : ledger) (params : SendEmailParams) :
  ∃ reply,
    sendWelcomeEmail rt (server rt tpl relay env now site emailAttempts) params
    = Normal reply
    ∧ (success reply = true
       ↔ status (handler rt tpl relay env now
                   (requestOf site (emailRequest params)) emailAttempts).1 = 200)
    ∧ (success reply = true →
       message reply = VString (lit "Email sent successfully")
       ∧ error reply = None)
    ∧ (success reply = false →
       ∃ msg, msg ∈ errorTexts ∧ error reply = Some (lit msg)).
Proof.
  set (req := requestOf site (emailRequest params)).
  assert (Hpost : method req = lit "POST") by done.
  assert (Htexts : ∀ msg, msg ∈ rejections → msg ∈ errorTexts)
    by (intros msg H; unfold errorTexts; apply elem_of_app; by right).
  assert (Hfixed : ∀ msg,
            msg ∈ ["Method not allowed"; "Server configuration error";
                   "Failed to send email";
                   "Too many requests. Please try again later."] →
            msg ∈ errorTexts)
    by (intros msg H; unfold errorTexts; apply elem_of_app; by left).
  assert (Hserver : ∀ code content m,
            handler rt tpl relay env now req emailAttempts
            = (respond req code (Some content), m) →
            server rt tpl relay env now site emailAttempts (emailRequest params)
            = Normal {| responseStatus := code; json := Normal content |}).
  { intros code content m H. unfold server. fold req. by rewrite H. }
  assert (Hfailure : ∀ code content m msg,
            handler rt tpl relay env now req emailAttempts
            = (respond req code (Some content), m) →
            ¬ (200 ≤ code ≤ 299)%Z → code ≠ 200 →
            get content (lit "error") = Normal (VString (lit msg)) →
            msg ∈ errorTexts →
            ∃ reply,
              sendWelcomeEmail rt (server rt tpl relay env now site emailAttempts)
                params = Normal reply
              ∧ (success reply = true
                 ↔ status (handler rt tpl relay env now req emailAttempts).1 = 200)
              ∧ (success reply = true →
                 message reply = VString (lit "Email sent successfully")
                 ∧ error reply = None)
              ∧ (success reply = false →
                 ∃ msg, msg ∈ errorTexts ∧ error reply = Some (lit msg))).
  { intros code content m msg H Hcode Hne Hget Hmsg.
    rewrite (client_on_failure rt _ params code content msg
               (Hserver _ _ _ H) Hcode Hget Hmsg).
    eexists. split; [reflexivity |]. rewrite H. cbn.
    split_and!; [done | done |]. intros _. by exists msg. }
  pose proof (EndpointMore.handler_table rt tpl relay env now emailAttempts req)
    as Htable.
  revert Htable.
  generalize (eq_refl (handler rt tpl relay env now req emailAttempts)).
  generalize (handler rt tpl relay env now req emailAttempts) at 2 3.
  intros out Hout Htable.
  destruct Htable as
    [Hm|Hm Hm'|Hm Hc|e Hm Hc Hno|msg Hm Hc Hno Hmsg
    |name email role Hm Hc HP Hlim
    |name email role e Hm Hc HP Hlim Hrelay
    |name email role Hm Hc HP Hlim Hrelay].
  - rewrite Hpost in Hm. by vm_compute in Hm.
  - done.
  - apply (Hfailure _ _ _ "Server configuration error" Hout);
      [lia | done | done |]. apply Hfixed. set_solver.
  - apply (Hfailure _ _ _ "Failed to send email" Hout);
      [lia | done | done |]. apply Hfixed. set_solver.
  - apply (Hfailure _ _ _ msg Hout); [lia | done | done | by apply Htexts].
  - apply (Hfailure _ _ _ "Too many requests. Please try again later." Hout);
      [lia | done | done |]. apply Hfixed. set_solver.
  - apply (Hfailure _ _ _ "Failed to send email" Hout);
      [lia | done | done |]. apply Hfixed. set_solver.
  - rewrite (client_on_success rt _ params (Hserver _ _ _ Hout)).
    eexists. split; [reflexivity |]. rewrite Hout. cbn.
    split_and!; done.
Qed.

End DeploymentFacts.

(* ================================================================== *)
(** * Facts about the endpoint over many requests *)
(* ================================================================== *)

Module ServiceFacts.

Import JS RateLimiter Endpoint Traffic Delivery Service TrafficFacts.
Local Open Scope Z_scope.

Lemma filter_without (P : Z → Prop) `{!∀ x, Decision (P x)} (a b : list Z) (x : Z) :
  (length (filter P (a ++ b)) ≤ length (filter P (a ++ [x] ++ b)))%nat.
Proof.
  rewrite !filter_app, !length_app. lia.
Qed.

Lemma recorded_is_call (rt : Runtime) (now : Z) (email : jsstring) (m : ledger) :
  (isRateLimited now (ledgerKey rt email) m).1 = false →
  recorded rt now email m = (isRateLimited now (ledgerKey rt email) m).2
  ∧ (length (recent now (attemptsOf m (ledgerKey rt email))) < 3)%nat.
Proof.
  unfold isRateLimited, recorded. destruct (decide _); [done |].
  intros _. split; [done | lia].
Qed.

Lemma addressee_of_passed (rt : Runtime) (req : Request)
    (name email role : jsstring) :
  Passes rt req name email role → addressee rt req = Some (ledgerKey rt email).
Proof. intros (_ & H & _). unfold addressee. by rewrite H. Qed.

Section Run.

Context (rt : Runtime) (tpl : TemplateText) (relay : Relay) (env : Env).
Context (address : jsstring).

(** The invariant of the limiter along the requests of the handler. *)
Lemma tracks_requests (trace : list (Z * Request)) :
  ∀ (m : ledger) (c : Z) (old : list Z),
    clockOf c trace → Tracks address m c old →
    ∀ t, (length (filter (inWindow t)
                    (old ++ attemptsOf m address
                     ++ sentTimes rt address
                          (serveRequests rt tpl relay env trace m).1)) ≤ 3)%nat.
Proof.
  induction trace as [|[now req] trace IH]; intros m c old Hclock Htracks t.
  - simpl. rewrite app_nil_r. apply Htracks.
  - destruct Hclock as [Hc Hclock]. cbn [serveRequests].
    pose proof (EndpointMore.handler_table rt tpl relay env now m req) as Htable.
    destruct (handler rt tpl relay env now req m) as [res m1] eqn:Hrun.
    destruct (serveRequests rt tpl relay env trace m1) as [log m2] eqn:Hrest.
    cbn [fst sentTimes].
    assert (Hlog : log = (serveRequests rt tpl relay env trace m1).1)
      by (by rewrite Hrest).
    assert (Hquiet : m1 = m →
              (method req = lit "OPTIONS" ∨ status res ≠ 200) →
              (length (filter (inWindow t)
                         (old ++ attemptsOf m address
                          ++ (if bool_decide (method req ≠ lit "OPTIONS"
                                              ∧ status res = 200%Z
                                              ∧ addressee rt req = Some address)
                              then now :: sentTimes rt address log
                              else sentTimes rt address log))) ≤ 3)%nat).
    { intros -> Hnot. rewrite bool_decide_eq_false_2 by tauto.
      rewrite Hlog. apply (IH m now old Hclock). by eapply tracks_later. }
    inversion Htable as
      [Hm Heq|Hm Hm' Heq|Hm Hcr Heq|e Hm Hcr Hno Heq|msg Hm Hcr Hno Hmsg Heq
      |name email role Hm Hcr HP Hlim Heq
      |name email role e Hm Hcr HP Hlim Hrelay Heq
      |name email role Hm Hcr HP Hlim Hrelay Heq];
      subst res m1.
    1: by (apply Hquiet; [done | left]).
    1, 2, 3, 5: by (apply Hquiet; [done | right]).
    1: { apply Hquiet; [done | right]. cbn.
         unfold rejections in Hmsg. done. }
    + (* the relay failed: the attempt is counted, no mail went out *)
      destruct (recorded_is_call rt now email m Hlim) as [Hrec Hroom].
      rewrite bool_decide_eq_false_2 by (cbn; intros (_ & ? & _); done).
      rewrite Hlog.
      destruct (decide (ledgerKey rt email = address)) as [Hkey|Hkey].
      * rewrite Hkey in Hrec, Hroom.
        destruct (tracks_allowed address m now c old Hc Hroom Htracks)
          as (old' & Hhist & Htracks').
        rewrite <- Hrec in Hhist, Htracks'.
        specialize (IH _ now old' Hclock Htracks' t).
        rewrite app_assoc, Hhist in IH. rewrite <- !app_assoc in IH.
        etrans; [| exact IH].
        rewrite !(app_assoc old). apply filter_without.
      * assert (Hsame : attemptsOf (recorded rt now email m) address
                        = attemptsOf m address).
        { unfold attemptsOf, recorded. by rewrite lookup_insert_ne. }
        rewrite <- Hsame. apply (IH _ now old Hclock).
        rewrite Hrec. apply tracks_other; [done |]. by eapply tracks_later.
    + (* delivered *)
      destruct (recorded_is_call rt now email m Hlim) as [Hrec Hroom].
      rewrite (addressee_of_passed rt req name email role HP).
      rewrite Hlog.
      destruct (decide (ledgerKey rt email = address)) as [Hkey|Hkey].
      * rewrite bool_decide_eq_true_2.
        2:{ split_and!; [| done | by rewrite Hkey].
            rewrite Hm. by vm_compute. }
        rewrite Hkey in Hrec, Hroom.
        destruct (tracks_allowed address m now c old Hc Hroom Htracks)
          as (old' & Hhist & Htracks').
        rewrite <- Hrec in Hhist, Htracks'.
        specialize (IH _ now old' Hclock Htracks' t).
        rewrite app_assoc, Hhist in IH. by rewrite <- !app_assoc in IH.
      * rewrite bool_decide_eq_false_2
          by (intros (_ & _ & [= H]); by apply Hkey).
        assert (Hsame : attemptsOf (recorded rt now email m) address
                        = attemptsOf m address).
        { unfold attemptsOf, recorded. by rewrite lookup_insert_ne. }
        rewrite <- Hsame. apply (IH _ now old Hclock).
        rewrite Hrec. apply tracks_other; [done |]. by eapply tracks_later.
Qed.

(** X21. The limit holds for the endpoint as a whole. Along any run of
    requests served by one process, started with the empty ledger and
    read against a clock that never runs backwards, no address gets
    more than three mails within any hour, whatever the requests and
    whatever the relay does. *)
Theorem at_most_three_mails_per_hour (trace : list (Z * Request)) (c t : Z) :
  clockOf c trace →
  (length (filter (inWindow t)
             (sentTimes rt address (serveRequests rt tpl relay env trace ∅).1))
   ≤ 3)%nat.
Proof.
  intros Hclock.
  pose proof (tracks_requests trace ∅ c [] Hclock) as H.
  unfold attemptsOf in H. rewrite lookup_empty in H. simpl in H.
  apply H. unfold Tracks, attemptsOf. rewrite lookup_empty. simpl.
  split_and!; [constructor | constructor | constructor | intros _; lia].
Qed.

End Run.

Lemma at_most_three_mails_per_hour_witness :
  clockOf 0 burst
  ∧ (length (filter (inWindow 40000)
               (sentTimes Spec.exampleRuntime (lit "jo@x.com")
                  (serveRequests Spec.exampleRuntime Spec.exampleTemplate
                     (λ _ _, Normal ()) Spec.exampleEnv burst ∅).1)) ≤ 3)%nat.
Proof.
  assert (H : clockOf 0 burst) by (simpl; lia).
  split; [exact H |].
  exact (at_most_three_mails_per_hour Spec.exampleRuntime Spec.exampleTemplate
           (λ _ _, Normal ()) Spec.exampleEnv (lit "jo@x.com") burst 0 40000 H).
Defined.

End ServiceFacts.
